(** * Narration player: a shallow embedding of the playback engine

    The development follows the TypeScript sources of the narration player.
    Definitions come first:

    - [PCM]         the two [decodeAudioData] helpers of the [Player]
                    components (16-bit PCM bytes to normalised samples);
    - [WebAudio]    the audio output device as the components use it: source
                    nodes, their life cycle and the log of operations;
    - [Nav]         the previous / next / sentence-click handlers;
    - [App]         the [App] component (restored state, schedule check) and
                    [fetchLessonContent] of the Gemini service;
    - [Engine]      the [Player] with [stopAllAudio], [speakSentence] and
                    [playNextSentence], as an event-driven state machine;
    - [Draft]       the first [Player] ([playSentence], click-to-seek);
    - [DraftPoint]  the last [Player] ([playSentence] and [speakText]);
    - [Second]      the second [Player], whose narration starts on mount;
    - [Shell]       the state updates of [App], its auto-start effect and
                    what a reload reads back;
    - [Home]        the schedule list and the lesson label of the home screen;
    - [Narration]   uninterrupted narration of a lesson by the engine;
    - [DraftRuns]   the invariant of the first player.

    The modules named [...Facts], [EngineExamples] and [EngineRuns] hold the
    theorems.

    Modelling conventions.  An asynchronous function is split at its [await]
    on [generateSpeech]: the part before it runs when the function is called,
    the rest is a pending continuation that runs when speech generation
    settles.  The state updates of one task are committed together and are
    followed by the playback effect when one of its dependencies changed.
    A callback created by [useCallback] keeps the values of [isPlaying] and
    [isLooping] of the render that created it.  The audio context is assumed
    to be available and the component to stay mounted; the mounted flag is
    part of the state and is read where the source reads it. *)

From Stdlib Require Import ZArith QArith.
From Stdlib.Strings Require Import Byte.
From stdpp Require Import gmap strings list pretty.

Set Warnings "-register-all".
Open Scope Z_scope.

(** JavaScript exceptions that the modelled code can raise. *)
Inductive Exn : Type :=
  | RangeError          (* typed-array constructor: misaligned or out-of-range view *)
  | TypeError           (* property access on [undefined] or [null] *)
  | NotSupportedError   (* [createBuffer] with a frame count of zero *)
  | InvalidStateError.  (* [stop] on a source that was never started *)

(** A computation that either throws or returns. *)
Definition Result (A : Type) : Type := Exn + A.

(* ===================================================================== *)
(** * PCM decoding *)
(* ===================================================================== *)

Module PCM.

(** A [Uint8Array]: a window of [byteLength] bytes starting at [byteOffset]
    into an [ArrayBuffer]. *)
Record Uint8Array : Type := {
  buffer : list byte;
  byteOffset : nat;
  byteLength : nat
}.

(** [new Uint8Array(len)] filled byte by byte, as [generateSpeech] builds its
    result: the array owns its buffer, so the offset is 0. *)
Definition fresh (bs : list byte) : Uint8Array :=
  {| buffer := bs; byteOffset := 0; byteLength := length bs |}.

(** The bytes seen through the view. *)
Definition contents (d : Uint8Array) : list byte :=
  take (byteLength d) (drop (byteOffset d) (buffer d)).

(** A view lies inside its buffer (guaranteed by the typed-array constructors). *)
Definition well_formed (d : Uint8Array) : Prop :=
  (byteOffset d + byteLength d <= length (buffer d))%nat.

(** The signed 16-bit integer stored little-endian in two bytes (typed arrays
    use the byte order of the platform, little-endian on the supported ones). *)
Definition int16_le (lo hi : byte) : Z :=
  let u := Z.of_N (Byte.to_N lo) + 256 * Z.of_N (Byte.to_N hi) in
  if u <? 32768 then u else u - 65536.

(** Consecutive 16-bit elements of a byte sequence. *)
Fixpoint read_int16 (bs : list byte) : list Z :=
  match bs with
  | lo :: hi :: rest => int16_le lo hi :: read_int16 rest
  | _ => []
  end.

(** [new Int16Array(buffer, byteOffset, length)]: a [RangeError] when the
    offset is not a multiple of the element size or the view leaves the
    buffer. *)
Definition Int16Array_view (buf : list byte) (off len : nat) : Result (list Z) :=
  if negb (off mod 2 =? 0)%nat then inl RangeError
  else if (length buf <? off + 2 * len)%nat then inl RangeError
  else inr (read_int16 (take (2 * len) (drop off buf))).

(** [new Int16Array(buffer)]: the whole buffer; a [RangeError] when its byte
    length is not a multiple of the element size. *)
Definition Int16Array_of_buffer (buf : list byte) : Result (list Z) :=
  if negb (length buf mod 2 =? 0)%nat then inl RangeError
  else inr (read_int16 buf).

(** [ctx.createBuffer(1, length, 24000)]: one channel of [length] frames; the
    Web Audio API rejects a frame count of zero with [NotSupportedError]. *)
Definition createBuffer (frames : nat) : Result (list Q) :=
  if (frames =? 0)%nat then inl NotSupportedError
  else inr (replicate frames 0%Q).

(** [dataInt16[i] / 32768.0]: the quotient is a dyadic rational with a 16-bit
    numerator, so the floating-point division is exact. *)
Definition normalise (v : Z) : Q := (inject_Z v / 32768)%Q.

(** The loop [for (i = 0; i < n; i++) channelData[i] = dataInt16[i] / 32768.0]. *)
Fixpoint fill (n i : nat) (dataInt16 : list Z) (channelData : list Q) : list Q :=
  match n with
  | O => channelData
  | S n' =>
      fill n' (S i) dataInt16
           (<[i := normalise (default 0 (dataInt16 !! i))]> channelData)
  end.

(** [decodeAudioData] of the engine (the same body is used by the first and
    the last variant of the player):
    [bufferLength = Math.floor(data.byteLength / 2)], a 16-bit view of
    [bufferLength] elements at [data.byteOffset], then the fill loop. *)
Definition decodeAudioData (data : Uint8Array) : Result (list Q) :=
  let bufferLength := (byteLength data / 2)%nat in
  match Int16Array_view (buffer data) (byteOffset data) bufferLength with
  | inl e => inl e
  | inr dataInt16 =>
      match createBuffer bufferLength with
      | inl e => inl e
      | inr channelData => inr (fill bufferLength 0 dataInt16 channelData)
      end
  end.

(** [decodeAudioData] of the second variant of the player: the 16-bit view is
    taken over the whole buffer, [frameCount = dataInt16.length]. *)
Definition decodeAudioData_whole (data : Uint8Array) : Result (list Q) :=
  match Int16Array_of_buffer (buffer data) with
  | inl e => inl e
  | inr dataInt16 =>
      let frameCount := length dataInt16 in
      match createBuffer frameCount with
      | inl e => inl e
      | inr channelData => inr (fill frameCount 0 dataInt16 channelData)
      end
  end.

(** The sample the specification expects at position [i] of a byte sequence:
    the signed 16-bit little-endian integer at byte offset [2 i], over 32768. *)
Definition int16_at (bs : list byte) (i : nat) : option Z :=
  match bs !! (2 * i)%nat, bs !! (2 * i + 1)%nat with
  | Some lo, Some hi => Some (int16_le lo hi)
  | _, _ => None
  end.

End PCM.

(* ===================================================================== *)
(** * The audio output device *)
(* ===================================================================== *)

Module WebAudio.

(** Life cycle of an [AudioBufferSourceNode].  [stop()] silences the node at
    once and queues its [ended] event; a node that plays to the end of its
    buffer gets the same event.  The event is delivered to the handler that
    is attached when it is dispatched. *)
Inductive Playback : Type :=
  | Unstarted   (* created, [start] not called yet *)
  | Sounding    (* started, producing sound *)
  | Halted      (* silenced by [stop()], [ended] event not yet dispatched *)
  | Ended.      (* [ended] event dispatched *)

(** The operations issued to the device, in program order. *)
Inductive DeviceOp : Type :=
  | Connect (n : nat)
  | Detach (n : nat)       (* [source.onended = null] *)
  | Stop (n : nat)
  | Disconnect (n : nat)
  | Start (n : nat).

Section Device.

(** The type of completion handlers (closures) of the component. *)
Context {H : Type}.

Record SourceNode : Type := {
  buffer : list Q;
  onended : option H;
  playback : Playback;
  connected : bool
}.

(** The source nodes created so far, addressed by creation order, and the
    operations issued so far (oldest first). *)
Record Device : Type := {
  nodes : list SourceNode;
  log : list DeviceOp
}.

Definition no_device : Device := {| nodes := []; log := [] |}.

Definition issue (op : DeviceOp) (f : SourceNode -> SourceNode) (n : nat)
  (d : Device) : Device :=
  {| nodes := alter f n (nodes d); log := log d ++ [op] |}.

(** [ctx.createBufferSource()] followed by [source.buffer = buf]. *)
Definition createBufferSource (buf : list Q) (d : Device) : nat * Device :=
  (length (nodes d),
   {| nodes := nodes d ++ [{| buffer := buf; onended := None;
                              playback := Unstarted; connected := false |}];
      log := log d |}).

(** [source.connect(ctx.destination)]. *)
Definition connect (n : nat) : Device -> Device :=
  issue (Connect n)
    (fun s => {| buffer := buffer s; onended := onended s;
                 playback := playback s; connected := true |}) n.

(** [source.onended = h]. *)
Definition set_onended (n : nat) (h : H) (d : Device) : Device :=
  {| nodes := alter (fun s => {| buffer := buffer s; onended := Some h;
                                 playback := playback s;
                                 connected := connected s |}) n (nodes d);
     log := log d |}.

(** [source.onended = null]. *)
Definition detach (n : nat) : Device -> Device :=
  issue (Detach n)
    (fun s => {| buffer := buffer s; onended := None;
                 playback := playback s; connected := connected s |}) n.

(** [source.start(0)]. *)
Definition start (n : nat) : Device -> Device :=
  issue (Start n)
    (fun s => {| buffer := buffer s; onended := onended s;
                 playback := match playback s with
                             | Unstarted => Sounding
                             | p => p
                             end;
                 connected := connected s |}) n.

(** [source.stop()]: throws when the node was never started. *)
Definition stop (n : nat) (d : Device) : Result Device :=
  match nodes d !! n with
  | Some s =>
      match playback s with
      | Unstarted => inl InvalidStateError
      | _ =>
          inr (issue (Stop n)
                 (fun s => {| buffer := buffer s; onended := onended s;
                              playback := match playback s with
                                          | Sounding => Halted
                                          | p => p
                                          end;
                              connected := connected s |}) n d)
      end
  | None => inl InvalidStateError
  end.

(** [try { source.stop(); } catch (e) {}]. *)
Definition try_stop (n : nat) (d : Device) : Device :=
  match stop n d with
  | inr d' => d'
  | inl _ => d
  end.

(** [source.disconnect()]. *)
Definition disconnect (n : nat) : Device -> Device :=
  issue (Disconnect n)
    (fun s => {| buffer := buffer s; onended := onended s;
                 playback := playback s; connected := false |}) n.

(** Dispatch of the [ended] event of node [n]: possible while the node sounds
    (its buffer has run out) or after [stop()]; returns the handler to run,
    if one is attached at that moment. *)
Definition dispatch_ended (n : nat) (d : Device) : option (option H * Device) :=
  match nodes d !! n with
  | Some s =>
      match playback s with
      | Sounding | Halted =>
          Some (onended s,
                {| nodes := alter (fun s => {| buffer := buffer s;
                                               onended := onended s;
                                               playback := Ended;
                                               connected := connected s |})
                                  n (nodes d);
                   log := log d |})
      | _ => None
      end
  | None => None
  end.

Definition is_sounding (s : SourceNode) : bool :=
  match playback s with Sounding => true | _ => false end.

(** Node [n] exists and produces sound. *)
Definition sounds (d : Device) (n : nat) : bool :=
  match nodes d !! n with
  | Some s => is_sounding s
  | None => false
  end.

(** The nodes that produce sound. *)
Definition sounding (d : Device) : list nat :=
  List.filter (sounds d) (seq 0 (length (nodes d))).

(** At most one node produces sound. *)
Definition single_source (d : Device) : Prop :=
  forall n m a b,
    nodes d !! n = Some a -> nodes d !! m = Some b ->
    playback a = Sounding -> playback b = Sounding -> n = m.

(** A node halted by [stop()] has no completion handler, so the [ended]
    event that [stop()] queued finds nothing to run. *)
Definition detached_when_halted (d : Device) : Prop :=
  forall n s, nodes d !! n = Some s -> playback s = Halted -> onended s = None.

End Device.

Arguments SourceNode : clear implicits.
Arguments Device : clear implicits.

(** [op] may follow [prev] when every [stop()] comes right after the detach
    of the same node. *)
Definition permitted (prev : option DeviceOp) (op : DeviceOp) : bool :=
  match op with
  | Stop n =>
      match prev with
      | Some (Detach m) => bool_decide (n = m)
      | _ => false
      end
  | _ => true
  end.

(** The operation issued last, [prev] standing for what came before the log. *)
Definition last_op (prev : option DeviceOp) (l : list DeviceOp) : option DeviceOp :=
  match last l with
  | Some op => Some op
  | None => prev
  end.

(** Every [Stop] of a log directly follows the [Detach] of the same node. *)
Fixpoint stops_detached (prev : option DeviceOp) (l : list DeviceOp) : bool :=
  match l with
  | [] => true
  | op :: l' => permitted prev op && stops_detached (Some op) l'
  end.

(** Stopping is done the safe way: the log is well ordered and halted nodes
    are detached. *)
Definition well_stopped {H : Type} (d : Device H) : Prop :=
  stops_detached None (log d) = true /\ detached_when_halted d.

End WebAudio.

(* ===================================================================== *)
(** * Navigation between units *)
(* ===================================================================== *)

Module Nav.

(** The "previous" control:
    [disabled={currentIndex === 0}],
    [onClick={() => setCurrentIndex(prev => Math.max(0, prev - 1))}].
    A disabled button delivers no click. *)
Definition prev_click (currentIndex : Z) : Z :=
  if currentIndex =? 0 then currentIndex
  else Z.max 0 (currentIndex - 1).

(** The "next" control, for a lesson of [n] sentences:
    [disabled={currentIndex === lesson.sentences.length - 1}],
    [onClick={() => setCurrentIndex(prev =>
       Math.min(lesson.sentences.length - 1, prev + 1))}]. *)
Definition next_click (n currentIndex : Z) : Z :=
  if currentIndex =? n - 1 then currentIndex
  else Z.min (n - 1) (currentIndex + 1).

(** Clicking the sentence rendered at position [idx] (first variant of the
    player): [setCurrentIndex(idx)].  Only the indices produced by
    [lesson.sentences.map((s, idx) => ...)] are rendered. *)
Definition sentence_click (n idx currentIndex : Z) : Z :=
  if (0 <=? idx) && (idx <? n) then idx else currentIndex.

(** The controls offer relative moves only; reaching unit [i] from the
    current one is pressing "next" or "previous" the required number of
    times. *)
Definition navigate_to (n i currentIndex : Z) : Z :=
  if currentIndex <=? i
  then Nat.iter (Z.to_nat (i - currentIndex)) (next_click n) currentIndex
  else Nat.iter (Z.to_nat (currentIndex - i)) prev_click currentIndex.

(** [clamp(i, lo, hi)]. *)
Definition clamp (i lo hi : Z) : Z := Z.max lo (Z.min i hi).

(** [i] is an index into a sequence of [n] units. *)
Definition valid_index (n i : Z) : Prop := 0 <= i < n.

End Nav.

(* ===================================================================== *)
(** * The application shell: restored state, schedule check, lesson fetch *)
(* ===================================================================== *)

Module App.

(** Values produced by [JSON.parse].  Numbers are kept as integers, the only
    numbers the application stores (weekdays). *)
Inductive JSON : Type :=
  | JNull
  | JBool (b : bool)
  | JNum (z : Z)
  | JStr (s : string)
  | JArr (l : list JSON)
  | JObj (m : gmap string JSON).

(** A JavaScript object: string keys to values. *)
Abbreviation Obj := (gmap string JSON).

(** Truthiness of the result of a property read ([None] is [undefined]). *)
Definition truthy (v : option JSON) : bool :=
  match v with
  | None | Some JNull => false
  | Some (JBool b) => b
  | Some (JNum z) => negb (z =? 0)
  | Some (JStr s) => negb (String.eqb s EmptyString)
  | Some (JArr _) | Some (JObj _) => true
  end.

(** Property read [v.k]: a [TypeError] on [null], [undefined] on the other
    primitives and on arrays (for the names read here), the field of an
    object. *)
Definition get_prop (v : JSON) (k : string) : Result (option JSON) :=
  match v with
  | JNull => inl TypeError
  | JObj m => inr (m !! k)
  | _ => inr None
  end.

(** A surrogate [u] on its own, as a string.  Strings are kept in UTF-8,
    which has no well-formed sequence for a lone surrogate: it is written in
    the three-byte form of the code point of the same number. *)
Definition surrogate_string (u : N) : string :=
  let byte (n : N) := String (Ascii.ascii_of_N n) EmptyString in
  (byte (224 + u / 4096) +:+ byte (128 + (u / 64) mod 64) +:+
   byte (128 + u mod 64))%N.

(** The two surrogates of the code point written in the four bytes
    [a b c d]. *)
Definition surrogates (a b c d : Ascii.ascii) : list string :=
  let cp := (((Ascii.N_of_ascii a mod 8) * 262144 +
              (Ascii.N_of_ascii b mod 64) * 4096 +
              (Ascii.N_of_ascii c mod 64) * 64 +
              Ascii.N_of_ascii d mod 64) - 65536)%N in
  [surrogate_string (55296 + cp / 1024)%N;
   surrogate_string (56320 + cp mod 1024)%N].

(** The elements of a string that an object spread enumerates: its UTF-16
    code units, one string each.  A code point of the basic plane (one to
    three bytes of UTF-8) is one unit, a code point above it (four bytes) is
    its two surrogates.  Bytes that do not start a sequence, which
    [JSON.parse] never delivers, are kept one by one. *)
Fixpoint chars (s : string) : list JSON :=
  match s with
  | EmptyString => []
  | String a s1 =>
      if (Ascii.N_of_ascii a <? 192)%N then JStr (String a EmptyString) :: chars s1
      else
        match s1 with
        | EmptyString => [JStr (String a EmptyString)]
        | String b s2 =>
            if (Ascii.N_of_ascii a <? 224)%N
            then JStr (String a (String b EmptyString)) :: chars s2
            else
              match s2 with
              | EmptyString => [JStr (String a (String b EmptyString))]
              | String c s3 =>
                  if (Ascii.N_of_ascii a <? 240)%N
                  then JStr (String a (String b (String c EmptyString)))
                         :: chars s3
                  else
                    match s3 with
                    | EmptyString =>
                        [JStr (String a (String b (String c EmptyString)))]
                    | String d s4 =>
                        (JStr <$> surrogates a b c d) ++ chars s4
                    end
              end
        end
  end.

(** An array as an object: element [i] under the key [i] in decimal. *)
Definition indexed (l : list JSON) : Obj :=
  list_to_map (imap (fun i v => (pretty (Z.of_nat i), v)) l).

(** The own enumerable properties copied by an object spread [{...v}]. *)
Definition own_props (v : JSON) : Obj :=
  match v with
  | JObj m => m
  | JArr l => indexed l
  | JStr s => indexed (chars s)
  | _ => ∅
  end.

(** ** Restored application state *)

Section Restored.

(** [MOCK_LESSONS[0]] of the constants module. *)
Variable mock_lesson0 : JSON.

(** One schedule of the default state. *)
Definition default_schedule (id name startTime endTime : string) : JSON :=
  JObj (<["id" := JStr id]> (<["name" := JStr name]>
       (<["startTime" := JStr startTime]> (<["endTime" := JStr endTime]>
       (<["enabled" := JBool true]>
       (<["repeatDays" := JArr [JNum 1; JNum 2; JNum 3; JNum 4; JNum 5]]> ∅)))))).

(** The state used when nothing is stored. *)
Definition default_state : Obj :=
  <["currentView" := JStr "home"]>
  (<["currentLesson" := mock_lesson0]>
  (<["schedules" := JArr [default_schedule "1" "早餐熏听" "07:00" "07:30";
                          default_schedule "2" "午餐熏听" "12:00" "12:45"]]>
  (<["isAutoModeArmed" := JBool false]> ∅))).

(** [{ ...parsed, currentView: 'home', isAutoModeArmed: false }]. *)
Definition restore (parsed : JSON) : Obj :=
  <["isAutoModeArmed" := JBool false]>
    (<["currentView" := JStr "home"]> (own_props parsed)).

(** The initializer of the application state.  [saved] is the parsed content
    of the storage key when [localStorage.getItem] returned a non-empty
    string, [None] otherwise. *)
Definition initial_state (saved : option JSON) : Obj :=
  match saved with
  | Some parsed => restore parsed
  | None => default_state
  end.

End Restored.

(** ** Schedule check *)

Inductive ViewMode : Type := home | player | scheduler | library | scanner.

Record Schedule : Type := {
  sch_id : string;
  sch_name : string;
  startTime : string;
  endTime : string;
  enabled : bool;
  repeatDays : list Z
}.

(** The part of the application state read by the schedule check. *)
Record AppState : Type := {
  currentView : ViewMode;
  schedules : list Schedule;
  isAutoModeArmed : bool
}.

(** The fields of [new Date()] in local time. *)
Record Date : Type := {
  getHours : Z;
  getMinutes : Z;
  getSeconds : Z;
  getDay : Z
}.

(** [s.padStart(2, '0')]. *)
Definition padStart2 (s : string) : string :=
  String.concat EmptyString (replicate (2 - String.length s) "0") +:+ s.

(** [`${now.getHours().toString().padStart(2, '0')}:${now.getMinutes()...}`]. *)
Definition currentHhMm (now : Date) : string :=
  padStart2 (pretty (getHours now)) +:+ ":" +:+ padStart2 (pretty (getMinutes now)).

(** [Array.prototype.includes] on numbers. *)
Definition includes (l : list Z) (x : Z) : bool := existsb (Z.eqb x) l.

(** The predicate passed to [find]. *)
Definition matches (now : Date) (s : Schedule) : bool :=
  enabled s && includes (repeatDays s) (getDay now)
  && String.eqb (startTime s) (currentHhMm now).

(** [state.schedules.find(...)]. *)
Definition activeSchedule (now : Date) (st : AppState) : option Schedule :=
  List.find (matches now) (schedules st).

Definition is_player (v : ViewMode) : bool :=
  match v with player => true | _ => false end.

(** [setView(view)]. *)
Definition setView (view : ViewMode) (st : AppState) : AppState :=
  {| currentView := view; schedules := schedules st;
     isAutoModeArmed := isAutoModeArmed st |}.

(** [checkSchedule]: [if (activeSchedule && state.currentView !== 'player')
    setView('player')]. *)
Definition checkSchedule (now : Date) (st : AppState) : AppState :=
  match activeSchedule now st with
  | Some _ => if negb (is_player (currentView st)) then setView player st else st
  | None => st
  end.

(** The two schedules of the default state, and Monday 07:00:30. *)
Definition default_schedules : list Schedule :=
  [ {| sch_id := "1"; sch_name := "早餐熏听"; startTime := "07:00";
       endTime := "07:30"; enabled := true; repeatDays := [1; 2; 3; 4; 5] |};
    {| sch_id := "2"; sch_name := "午餐熏听"; startTime := "12:00";
       endTime := "12:45"; enabled := true; repeatDays := [1; 2; 3; 4; 5] |} ].

Definition monday_morning : Date :=
  {| getHours := 7; getMinutes := 0; getSeconds := 30; getDay := 1 |}.

(** The same schedule with another [endTime], and a state whose schedules
    all get the end time chosen by [f]: used to state what the check ignores. *)
Definition set_endTime (e : string) (s : Schedule) : Schedule :=
  {| sch_id := sch_id s; sch_name := sch_name s; startTime := startTime s;
     endTime := e; enabled := enabled s; repeatDays := repeatDays s |}.

Definition retime (f : Schedule -> string) (st : AppState) : AppState :=
  {| currentView := currentView st;
     schedules := map (fun s => set_endTime (f s) s) (schedules st);
     isAutoModeArmed := isAutoModeArmed st |}.

(** The same instant's minute, at another second. *)
Definition at_second (sec : Z) (now : Date) : Date :=
  {| getHours := getHours now; getMinutes := getMinutes now;
     getSeconds := sec; getDay := getDay now |}.

(** ** Fetching a lesson *)

Record Lesson : Type := {
  id : string;
  title : JSON;
  category : string;
  sentences : list Obj
}.

(** [`s-${i}`]. *)
Definition sentence_id (i : nat) : string := "s-" +:+ pretty (Z.of_nat i).

(** [{ ...s, id: `s-${i}` }]. *)
Definition with_id (i : nat) (s : JSON) : Obj :=
  <["id" := JStr (sentence_id i)]> (own_props s).

(** [(data.sentences || []).map(...)]: a [TypeError] when the truthy value
    is not an array. *)
Definition map_sentences (v : option JSON) : Result (list Obj) :=
  if truthy v then
    match v with
    | Some (JArr l) => inr (imap with_id l)
    | _ => inl TypeError
    end
  else inr [].

(** [fetchLessonContent] after the request: [data] is the parsed response
    text ([{}] when the text is empty), or the exception thrown by the
    request or by [JSON.parse]; [rnd] is the identifier drawn from
    [Math.random()].  Any exception is caught and [null] returned. *)
Definition fetchLessonContent (lessonName rnd : string) (data : Result JSON)
  : option Lesson :=
  match data with
  | inl _ => None
  | inr data =>
      match get_prop data "title", get_prop data "sentences" with
      | inr t, inr ss =>
          match map_sentences ss with
          | inr sentences =>
              Some {| id := rnd;
                      title := if truthy t then default JNull t else JStr lessonName;
                      category := "custom";
                      sentences := sentences |}
          | inl _ => None
          end
      | _, _ => None
      end
  end.

End App.

(* ===================================================================== *)
(** * The narration engine: the player with point reading *)
(* ===================================================================== *)

Module Engine.

Import WebAudio.

Record Sentence : Type := {
  s_id : string;
  original : string;
  translation : string
}.

(** The values of [isPlaying] and [isLooping] captured by the
    [playNextSentence] callback of one render.  [useCallback] hands out a new
    callback exactly when one of them changes (the lesson is fixed), and the
    callback refers to itself through the binding of the same render. *)
Record Closure : Type := {
  c_isPlaying : bool;
  c_isLooping : bool
}.

(** The two [onended] handlers of the component. *)
Inductive Handler : Type :=
  | ClearActiveSpeech                        (* [() => setActiveSpeechId(null)] *)
  | AutoAdvance (c : Closure) (index : Z).   (* the handler of [playNextSentence] *)

(** Work suspended at an [await], or scheduled by [setTimeout]. *)
Inductive Continuation : Type :=
  | SpeakAwait (text id : string)                  (* [speakSentence] in [generateSpeech] *)
  | AutoAwait (c : Closure) (index : Z) (text : string)  (* [playNextSentence] in [generateSpeech] *)
  | SkipTimer (index : Z)                          (* the 1000 ms callback *)
  | Settled.                                       (* already run *)

(** React state, refs, the device and the pending work of one mounted
    [Player]. *)
Record State : Type := {
  currentIndex : Z;
  isPlaying : bool;
  isLooping : bool;
  loadingAudio : bool;
  activeSpeechId : option string;
  loadingSpeechId : option string;
  statusMsg : option string;
  currentSourceRef : option nat;
  isComponentMounted : bool;
  device : Device Handler;
  pending : list Continuation
}.

(** A freshly mounted player. *)
Definition init : State :=
  {| currentIndex := 0; isPlaying := false; isLooping := false;
     loadingAudio := false; activeSpeechId := None; loadingSpeechId := None;
     statusMsg := None; currentSourceRef := None; isComponentMounted := true;
     device := no_device; pending := [] |}.

(** ** State setters *)

Definition setCurrentIndex (v : Z) (s : State) : State :=
  {| currentIndex := v; isPlaying := isPlaying s; isLooping := isLooping s;
     loadingAudio := loadingAudio s; activeSpeechId := activeSpeechId s;
     loadingSpeechId := loadingSpeechId s; statusMsg := statusMsg s;
     currentSourceRef := currentSourceRef s;
     isComponentMounted := isComponentMounted s;
     device := device s; pending := pending s |}.

Definition setIsPlaying (v : bool) (s : State) : State :=
  {| currentIndex := currentIndex s; isPlaying := v; isLooping := isLooping s;
     loadingAudio := loadingAudio s; activeSpeechId := activeSpeechId s;
     loadingSpeechId := loadingSpeechId s; statusMsg := statusMsg s;
     currentSourceRef := currentSourceRef s;
     isComponentMounted := isComponentMounted s;
     device := device s; pending := pending s |}.

Definition setIsLooping (v : bool) (s : State) : State :=
  {| currentIndex := currentIndex s; isPlaying := isPlaying s; isLooping := v;
     loadingAudio := loadingAudio s; activeSpeechId := activeSpeechId s;
     loadingSpeechId := loadingSpeechId s; statusMsg := statusMsg s;
     currentSourceRef := currentSourceRef s;
     isComponentMounted := isComponentMounted s;
     device := device s; pending := pending s |}.

Definition setLoadingAudio (v : bool) (s : State) : State :=
  {| currentIndex := currentIndex s; isPlaying := isPlaying s;
     isLooping := isLooping s; loadingAudio := v;
     activeSpeechId := activeSpeechId s;
     loadingSpeechId := loadingSpeechId s; statusMsg := statusMsg s;
     currentSourceRef := currentSourceRef s;
     isComponentMounted := isComponentMounted s;
     device := device s; pending := pending s |}.

Definition setActiveSpeechId (v : option string) (s : State) : State :=
  {| currentIndex := currentIndex s; isPlaying := isPlaying s;
     isLooping := isLooping s; loadingAudio := loadingAudio s;
     activeSpeechId := v;
     loadingSpeechId := loadingSpeechId s; statusMsg := statusMsg s;
     currentSourceRef := currentSourceRef s;
     isComponentMounted := isComponentMounted s;
     device := device s; pending := pending s |}.

Definition setLoadingSpeechId (v : option string) (s : State) : State :=
  {| currentIndex := currentIndex s; isPlaying := isPlaying s;
     isLooping := isLooping s; loadingAudio := loadingAudio s;
     activeSpeechId := activeSpeechId s;
     loadingSpeechId := v; statusMsg := statusMsg s;
     currentSourceRef := currentSourceRef s;
     isComponentMounted := isComponentMounted s;
     device := device s; pending := pending s |}.

Definition setStatusMsg (v : option string) (s : State) : State :=
  {| currentIndex := currentIndex s; isPlaying := isPlaying s;
     isLooping := isLooping s; loadingAudio := loadingAudio s;
     activeSpeechId := activeSpeechId s;
     loadingSpeechId := loadingSpeechId s; statusMsg := v;
     currentSourceRef := currentSourceRef s;
     isComponentMounted := isComponentMounted s;
     device := device s; pending := pending s |}.

(** [currentSourceRef.current = v]. *)
Definition set_ref (v : option nat) (s : State) : State :=
  {| currentIndex := currentIndex s; isPlaying := isPlaying s;
     isLooping := isLooping s; loadingAudio := loadingAudio s;
     activeSpeechId := activeSpeechId s;
     loadingSpeechId := loadingSpeechId s; statusMsg := statusMsg s;
     currentSourceRef := v;
     isComponentMounted := isComponentMounted s;
     device := device s; pending := pending s |}.

(** An operation on the audio device. *)
Definition on_device (f : Device Handler -> Device Handler) (s : State) : State :=
  {| currentIndex := currentIndex s; isPlaying := isPlaying s;
     isLooping := isLooping s; loadingAudio := loadingAudio s;
     activeSpeechId := activeSpeechId s;
     loadingSpeechId := loadingSpeechId s; statusMsg := statusMsg s;
     currentSourceRef := currentSourceRef s;
     isComponentMounted := isComponentMounted s;
     device := f (device s); pending := pending s |}.

Definition set_pending (p : list Continuation) (s : State) : State :=
  {| currentIndex := currentIndex s; isPlaying := isPlaying s;
     isLooping := isLooping s; loadingAudio := loadingAudio s;
     activeSpeechId := activeSpeechId s;
     loadingSpeechId := loadingSpeechId s; statusMsg := statusMsg s;
     currentSourceRef := currentSourceRef s;
     isComponentMounted := isComponentMounted s;
     device := device s; pending := p |}.

(** Suspend: the continuation waits for its promise (or timer). *)
Definition suspend (k : Continuation) (s : State) : State :=
  set_pending (pending s ++ [k]) s.

(** A continuation runs once. *)
Definition settle (k : nat) (s : State) : State :=
  set_pending (<[k := Settled]> (pending s)) s.

(** ** Status texts *)

Definition msg_warming_up : string := "AI 正在备嗓...".
Definition msg_voice_absent : string := "AI 乐师暂时缺席，请重试".
Definition msg_summon_failed : string := "音频传唤失败".
Definition msg_studying (index : Z) : string :=
  "正在研读第 " +:+ pretty (index + 1) +:+ " 章...".
Definition msg_finished : string := "全篇诵读完毕".
Definition msg_interrupted : string := "朗读中断，请检查设置".

(** Truthiness of a [string | null] state value. *)
Definition truthy_id (v : option string) : bool :=
  match v with
  | Some id => negb (String.eqb id EmptyString)
  | None => false
  end.

(** ** The component *)

Section Player.

(** [lesson.sentences]. *)
Variable sentences : list Sentence.

Definition len : Z := Z.of_nat (length sentences).

(** [lesson.sentences[index]]; [None] is [undefined]. *)
Definition sentence_at (index : Z) : option Sentence :=
  if index <? 0 then None else sentences !! Z.to_nat index.

(** [stopAllAudio]. *)
Definition stopAllAudio (s : State) : State :=
  let s :=
    match currentSourceRef s with
    | Some r =>
        let s := on_device (detach r) s in
        let s :=
          match stop r (device s) with
          | inr d => on_device (disconnect r) (on_device (fun _ => d) s)
          | inl _ => s
          end in
        set_ref None s
    | None => s
    end in
  setActiveSpeechId None s.

(** [createBufferSource], [source.buffer = buffer],
    [source.connect(ctx.destination)], [source.onended = h]. *)
Definition new_source (buf : list Q) (h : Handler) (s : State) : nat * State :=
  let '(n, d) := createBufferSource buf (device s) in
  (n, on_device (fun _ => set_onended n h (connect n d)) s).

(** [speakSentence(text, id)] up to [await generateSpeech(text)]. *)
Definition speakSentence (text id : string) (s : State) : State :=
  let s := stopAllAudio s in
  let s := setIsPlaying false s in
  let s := setLoadingSpeechId (Some id) s in
  let s := setStatusMsg (Some msg_warming_up) s in
  suspend (SpeakAwait text id) s.

(** [speakSentence] after [generateSpeech] has settled with [audioBytes]
    ([None] is [null]). *)
Definition speakSentence_resume (id : string) (audioBytes : option (list byte))
  (s : State) : State :=
  if negb (isComponentMounted s) then s
  else
    let s := setLoadingSpeechId None s in
    match audioBytes with
    | None => setStatusMsg (Some msg_voice_absent) s
    | Some bytes =>
        match PCM.decodeAudioData (PCM.fresh bytes) with
        | inl _ =>
            (* catch (err) *)
            setStatusMsg (Some msg_summon_failed) (setLoadingSpeechId None s)
        | inr buf =>
            let '(source, s) := new_source buf ClearActiveSpeech s in
            let s := set_ref (Some source) s in
            let s := setActiveSpeechId (Some id) s in
            let s := setStatusMsg None s in
            on_device (start source) s
        end
    end.

(** [playNextSentence(index)] up to [await generateSpeech(fullText)], for the
    callback with captured values [c]. *)
Definition playNextSentence (c : Closure) (index : Z) (s : State) : State :=
  if negb (c_isPlaying c) || negb (isComponentMounted s) then s
  else
    let s := setLoadingAudio true s in
    let s := setStatusMsg (Some (msg_studying index)) s in
    match sentence_at index with
    | None =>
        (* [sentence.original] throws; catch (err) *)
        setStatusMsg (Some msg_interrupted) (setLoadingAudio false s)
    | Some sentence =>
        let fullText := original sentence +:+ "。意思是：" +:+ translation sentence in
        suspend (AutoAwait c index fullText) s
    end.

(** The callback given to [setTimeout] when speech generation failed. *)
Definition skip_failed (index : Z) (s : State) : State :=
  if index + 1 <? len then setCurrentIndex (index + 1) s
  else setIsPlaying false s.

(** [playNextSentence] after [generateSpeech] has settled. *)
Definition playNextSentence_resume (c : Closure) (index : Z)
  (audioBytes : option (list byte)) (s : State) : State :=
  if negb (isComponentMounted s) || negb (c_isPlaying c) then s
  else
    let s := setLoadingAudio false s in
    match audioBytes with
    | None => suspend (SkipTimer index) s
    | Some bytes =>
        match PCM.decodeAudioData (PCM.fresh bytes) with
        | inl _ =>
            (* catch (err) *)
            setStatusMsg (Some msg_interrupted) (setLoadingAudio false s)
        | inr buf =>
            let '(source, s) := new_source buf (AutoAdvance c index) s in
            let s := stopAllAudio s in
            let s := set_ref (Some source) s in
            let s := on_device (start source) s in
            setStatusMsg None s
        end
    end.

(** The body of an [onended] handler. *)
Definition run_handler (h : Handler) (s : State) : State :=
  match h with
  | ClearActiveSpeech => setActiveSpeechId None s
  | AutoAdvance c index =>
      if negb (isComponentMounted s) then s
      else if c_isLooping c then playNextSentence c index s
      else
        let next := index + 1 in
        if next <? len then setCurrentIndex next s
        else setStatusMsg (Some msg_finished) (setIsPlaying false s)
  end.

(** [toggleAutoPlay]. *)
Definition toggleAutoPlay (s : State) : State :=
  let s' := if truthy_id (activeSpeechId s) then stopAllAudio s else s in
  setIsPlaying (negb (isPlaying s)) s'.

(** The playback effect, run with the values of the render it belongs to. *)
Definition effect (s : State) : State :=
  if isPlaying s then
    playNextSentence {| c_isPlaying := isPlaying s; c_isLooping := isLooping s |}
                     (currentIndex s) s
  else if negb (truthy_id (activeSpeechId s)) then stopAllAudio s
  else s.

(** The dependencies of the effect:
    [[currentIndex, isPlaying, playNextSentence, activeSpeechId]]. *)
Definition deps (s : State) : Z * bool * bool * option string :=
  (currentIndex s, isPlaying s, isLooping s, activeSpeechId s).

(** After the state updates of one task are committed, the effect runs again
    if one of its dependencies changed. *)
Definition commit (before after : State) : State :=
  if decide (deps before = deps after) then after else effect after.

(** What can happen to a mounted player. *)
Inductive Event : Type :=
  | ToggleAutoPlay
  | ToggleLoop
  | PrevClick
  | NextClick
  | SpeakClick (text id : string)
  | SpeechSettled (k : nat) (audioBytes : option (list byte))
  | TimerFired (k : nat)
  | SourceEnded (n : nat).

(** The task run for an event. *)
Definition handle (e : Event) (s : State) : State :=
  match e with
  | ToggleAutoPlay => toggleAutoPlay s
  | ToggleLoop => setIsLooping (negb (isLooping s)) s
  | PrevClick => setCurrentIndex (Nav.prev_click (currentIndex s)) s
  | NextClick => setCurrentIndex (Nav.next_click len (currentIndex s)) s
  | SpeakClick text id => speakSentence text id s
  | SpeechSettled k audioBytes =>
      match pending s !! k with
      | Some (SpeakAwait _ id) => speakSentence_resume id audioBytes (settle k s)
      | Some (AutoAwait c index _) =>
          playNextSentence_resume c index audioBytes (settle k s)
      | _ => s
      end
  | TimerFired k =>
      match pending s !! k with
      | Some (SkipTimer index) => skip_failed index (settle k s)
      | _ => s
      end
  | SourceEnded n =>
      match dispatch_ended n (device s) with
      | Some (h, d) =>
          let s := on_device (fun _ => d) s in
          match h with
          | Some h => run_handler h s
          | None => s
          end
      | None => s
      end
  end.

Definition step (s : State) (e : Event) : State := commit s (handle e s).

Definition run (s : State) (es : list Event) : State := fold_left step es s.

(** ** Looping on one unit *)

(** One round of a loop: the current source plays to its end, and the speech
    that its handler requests arrives as [audioBytes]. *)
Definition replay_round (s : State) (audioBytes : list byte) : State :=
  match currentSourceRef s with
  | Some n =>
      step (step s (SourceEnded n))
           (SpeechSettled (length (pending s)) (Some audioBytes))
  | None => s
  end.

Definition replay_rounds (s : State) (audio : list (list byte)) : State :=
  fold_left replay_round audio s.

(** Unit [k] is being narrated by a callback that captured [isLooping = true]:
    its source sounds, is the current one, and no point read is active. *)
Definition looping_on (k : Z) (s : State) : Prop :=
  isComponentMounted s = true /\ currentIndex s = k /\
  activeSpeechId s = None /\ is_Some (sentence_at k) /\
  exists n node c,
    currentSourceRef s = Some n /\ nodes (device s) !! n = Some node /\
    playback node = Sounding /\ onended node = Some (AutoAdvance c k) /\
    c_isLooping c = true /\ c_isPlaying c = true.

(** ** Invariants of the engine *)

(** Only the current source may sound. *)
Definition ref_owns_sound (s : State) : Prop :=
  forall n node,
    nodes (device s) !! n = Some node -> playback node = Sounding ->
    currentSourceRef s = Some n.

(** No point read is waiting for its speech. *)
Definition no_point_read_pending (s : State) : Prop :=
  forall k text id, pending s !! k <> Some (SpeakAwait text id).

Definition is_point_read (e : Event) : bool :=
  match e with SpeakClick _ _ => true | _ => false end.

End Player.

(** ** Sample data for the examples *)

Definition sample_lesson : list Sentence :=
  [ {| s_id := "s-0"; original := "学而时习之"; translation := "Learn and practise" |};
    {| s_id := "s-1"; original := "不亦说乎"; translation := "Is it not a joy" |};
    {| s_id := "s-2"; original := "有朋自远方来"; translation := "Friends come from afar" |} ].

(** Two frames of PCM. *)
Definition sample_audio : list byte := [x01; x00; xff; x7f]%byte.

(** Narration of the first sample unit, its source sounding. *)
Definition narrating : State :=
  run sample_lesson init [ToggleAutoPlay; SpeechSettled 0 (Some sample_audio)].

(** The same with loop mode switched on beforehand. *)
Definition narrating_in_loop : State :=
  run sample_lesson init
      [ToggleLoop; ToggleAutoPlay; SpeechSettled 0 (Some sample_audio)].

End Engine.

(* ===================================================================== *)
(** * The first player: auto narration with click-to-seek *)
(* ===================================================================== *)

Module Draft.

Import WebAudio.

Abbreviation Sentence := Engine.Sentence.
Abbreviation Closure := Engine.Closure.

(** The [onended] handler installed by [playSentence], with the values
    captured by the callback. *)
Inductive Handler : Type :=
  | AutoAdvance (c : Closure) (index : Z).

Inductive Continuation : Type :=
  | AutoAwait (c : Closure) (index : Z) (text : string)
  | Settled.

Record State : Type := {
  currentIndex : Z;
  isPlaying : bool;
  isLooping : bool;
  loadingAudio : bool;
  error : option string;
  currentSourceRef : option nat;
  device : Device Handler;
  pending : list Continuation
}.

Definition init : State :=
  {| currentIndex := 0; isPlaying := false; isLooping := false;
     loadingAudio := false; error := None; currentSourceRef := None;
     device := no_device; pending := [] |}.

Definition setCurrentIndex (v : Z) (s : State) : State :=
  {| currentIndex := v; isPlaying := isPlaying s; isLooping := isLooping s;
     loadingAudio := loadingAudio s; error := error s;
     currentSourceRef := currentSourceRef s; device := device s;
     pending := pending s |}.

Definition setIsPlaying (v : bool) (s : State) : State :=
  {| currentIndex := currentIndex s; isPlaying := v; isLooping := isLooping s;
     loadingAudio := loadingAudio s; error := error s;
     currentSourceRef := currentSourceRef s; device := device s;
     pending := pending s |}.

Definition setIsLooping (v : bool) (s : State) : State :=
  {| currentIndex := currentIndex s; isPlaying := isPlaying s; isLooping := v;
     loadingAudio := loadingAudio s; error := error s;
     currentSourceRef := currentSourceRef s; device := device s;
     pending := pending s |}.

Definition setLoadingAudio (v : bool) (s : State) : State :=
  {| currentIndex := currentIndex s; isPlaying := isPlaying s;
     isLooping := isLooping s; loadingAudio := v; error := error s;
     currentSourceRef := currentSourceRef s; device := device s;
     pending := pending s |}.

Definition setError (v : option string) (s : State) : State :=
  {| currentIndex := currentIndex s; isPlaying := isPlaying s;
     isLooping := isLooping s; loadingAudio := loadingAudio s; error := v;
     currentSourceRef := currentSourceRef s; device := device s;
     pending := pending s |}.

Definition set_ref (v : option nat) (s : State) : State :=
  {| currentIndex := currentIndex s; isPlaying := isPlaying s;
     isLooping := isLooping s; loadingAudio := loadingAudio s;
     error := error s; currentSourceRef := v; device := device s;
     pending := pending s |}.

Definition on_device (f : Device Handler -> Device Handler) (s : State) : State :=
  {| currentIndex := currentIndex s; isPlaying := isPlaying s;
     isLooping := isLooping s; loadingAudio := loadingAudio s;
     error := error s; currentSourceRef := currentSourceRef s;
     device := f (device s); pending := pending s |}.

Definition set_pending (p : list Continuation) (s : State) : State :=
  {| currentIndex := currentIndex s; isPlaying := isPlaying s;
     isLooping := isLooping s; loadingAudio := loadingAudio s;
     error := error s; currentSourceRef := currentSourceRef s;
     device := device s; pending := p |}.

Definition suspend (k : Continuation) (s : State) : State :=
  set_pending (pending s ++ [k]) s.

Definition settle (k : nat) (s : State) : State :=
  set_pending (<[k := Settled]> (pending s)) s.

Definition msg_generation_failed : string := "语音生成失败，请检查网络或 API Key".

Section Player.

Variable sentences : list Sentence.

Definition len : Z := Z.of_nat (length sentences).

Definition sentence_at (index : Z) : option Sentence :=
  if index <? 0 then None else sentences !! Z.to_nat index.

(** [if (currentSourceRef.current) { try { currentSourceRef.current.stop(); }
    catch (e) {} }]: the handler stays attached. *)
Definition stop_current (s : State) : State :=
  match currentSourceRef s with
  | Some r => on_device (try_stop r) s
  | None => s
  end.

(** [playSentence(index)] up to [await generateSpeech(fullText)].  The text is
    built outside the [try] block: with no sentence at [index] the call is
    abandoned after the two state updates. *)
Definition playSentence (c : Closure) (index : Z) (s : State) : State :=
  if negb (Engine.c_isPlaying c) then s
  else
    let s := setError None s in
    let s := setLoadingAudio true s in
    match sentence_at index with
    | None => s
    | Some sentence =>
        let fullText :=
          Engine.original sentence +:+ "。" +:+ Engine.translation sentence in
        suspend (AutoAwait c index fullText) s
    end.

(** [playSentence] after [generateSpeech] has settled. *)
Definition playSentence_resume (c : Closure) (index : Z)
  (audioBytes : option (list byte)) (s : State) : State :=
  let s := setLoadingAudio false s in
  match audioBytes with
  | None => s
  | Some bytes =>
      if negb (Engine.c_isPlaying c) then s
      else
        let s := stop_current s in
        match PCM.decodeAudioData (PCM.fresh bytes) with
        | inl _ =>
            (* catch (err) *)
            setIsPlaying false
              (setLoadingAudio false (setError (Some msg_generation_failed) s))
        | inr buf =>
            let '(source, d) := createBufferSource buf (device s) in
            let s :=
              on_device (fun _ => set_onended source (AutoAdvance c index)
                                    (connect source d)) s in
            let s := set_ref (Some source) s in
            on_device (start source) s
        end
  end.

(** The body of the [onended] handler. *)
Definition run_handler (h : Handler) (s : State) : State :=
  match h with
  | AutoAdvance c index =>
      if Engine.c_isLooping c then playSentence c index s
      else
        let next := index + 1 in
        if next <? len then setCurrentIndex next s
        else setIsPlaying false s
  end.

(** The playback effect:
    [if (isPlaying) playSentence(currentIndex) else <stop the current source>]. *)
Definition effect (s : State) : State :=
  if isPlaying s then
    playSentence {| Engine.c_isPlaying := isPlaying s;
                    Engine.c_isLooping := isLooping s |} (currentIndex s) s
  else stop_current s.

(** Its cleanup: [try { currentSourceRef.current?.stop(); } catch (e) {}]. *)
Definition cleanup (s : State) : State := stop_current s.

(** Dependencies [[currentIndex, isPlaying, playSentence]]. *)
Definition deps (s : State) : Z * bool * bool :=
  (currentIndex s, isPlaying s, isLooping s).

(** When a dependency changed, the cleanup of the previous effect runs, then
    the effect. *)
Definition commit (before after : State) : State :=
  if decide (deps before = deps after) then after
  else effect (cleanup after).

Inductive Event : Type :=
  | TogglePlay
  | ToggleLoop
  | PrevClick
  | NextClick
  | SentenceClick (idx : nat)
  | SpeechSettled (k : nat) (audioBytes : option (list byte))
  | SourceEnded (n : nat).

Definition handle (e : Event) (s : State) : State :=
  match e with
  | TogglePlay => setIsPlaying (negb (isPlaying s)) s
  | ToggleLoop => setIsLooping (negb (isLooping s)) s
  | PrevClick => setCurrentIndex (Nav.prev_click (currentIndex s)) s
  | NextClick => setCurrentIndex (Nav.next_click len (currentIndex s)) s
  | SentenceClick idx =>
      (* [setCurrentIndex(idx); if (!isPlaying) setIsPlaying(true)] *)
      let s' := setCurrentIndex (Nav.sentence_click len (Z.of_nat idx)
                                   (currentIndex s)) s in
      if (Z.of_nat idx <? len) && negb (isPlaying s) then setIsPlaying true s'
      else s'
  | SpeechSettled k audioBytes =>
      match pending s !! k with
      | Some (AutoAwait c index _) =>
          playSentence_resume c index audioBytes (settle k s)
      | _ => s
      end
  | SourceEnded n =>
      match dispatch_ended n (device s) with
      | Some (h, d) =>
          let s := on_device (fun _ => d) s in
          match h with
          | Some h => run_handler h s
          | None => s
          end
      | None => s
      end
  end.

Definition step (s : State) (e : Event) : State := commit s (handle e s).

Definition run (s : State) (es : list Event) : State := fold_left step es s.

End Player.

End Draft.

(* ===================================================================== *)
(** * The last player: auto narration and [speakText] *)
(* ===================================================================== *)

Module DraftPoint.

Import WebAudio.

Abbreviation Sentence := Engine.Sentence.
Abbreviation Closure := Engine.Closure.

Inductive Handler : Type :=
  | ClearActiveSpeech                        (* the handler of [speakText] *)
  | AutoAdvance (c : Closure) (index : Z).   (* the handler of [playSentence] *)

Inductive Continuation : Type :=
  | SpeakAwait (text id : string)
  | AutoAwait (c : Closure) (index : Z) (text : string)
  | Settled.

(** [unlocked] tells that the [unlock] listener of the mount effect has run
    (it is attached for the first [touchstart] or [click] only). *)
Record State : Type := {
  currentIndex : Z;
  isPlaying : bool;
  isLooping : bool;
  loadingAudio : bool;
  activeSpeechId : option string;
  error : option string;
  currentSourceRef : option nat;
  unlocked : bool;
  device : Device Handler;
  pending : list Continuation
}.

Definition init : State :=
  {| currentIndex := 0; isPlaying := false; isLooping := false;
     loadingAudio := false; activeSpeechId := None; error := None;
     currentSourceRef := None; unlocked := false; device := no_device;
     pending := [] |}.

Definition setCurrentIndex (v : Z) (s : State) : State :=
  {| currentIndex := v; isPlaying := isPlaying s; isLooping := isLooping s;
     loadingAudio := loadingAudio s; activeSpeechId := activeSpeechId s;
     error := error s; currentSourceRef := currentSourceRef s;
     unlocked := unlocked s; device := device s; pending := pending s |}.

Definition setIsPlaying (v : bool) (s : State) : State :=
  {| currentIndex := currentIndex s; isPlaying := v; isLooping := isLooping s;
     loadingAudio := loadingAudio s; activeSpeechId := activeSpeechId s;
     error := error s; currentSourceRef := currentSourceRef s;
     unlocked := unlocked s; device := device s; pending := pending s |}.

Definition setIsLooping (v : bool) (s : State) : State :=
  {| currentIndex := currentIndex s; isPlaying := isPlaying s; isLooping := v;
     loadingAudio := loadingAudio s; activeSpeechId := activeSpeechId s;
     error := error s; currentSourceRef := currentSourceRef s;
     unlocked := unlocked s; device := device s; pending := pending s |}.

Definition setLoadingAudio (v : bool) (s : State) : State :=
  {| currentIndex := currentIndex s; isPlaying := isPlaying s;
     isLooping := isLooping s; loadingAudio := v;
     activeSpeechId := activeSpeechId s; error := error s;
     currentSourceRef := currentSourceRef s;
     unlocked := unlocked s; device := device s;
     pending := pending s |}.

Definition setActiveSpeechId (v : option string) (s : State) : State :=
  {| currentIndex := currentIndex s; isPlaying := isPlaying s;
     isLooping := isLooping s; loadingAudio := loadingAudio s;
     activeSpeechId := v; error := error s;
     currentSourceRef := currentSourceRef s;
     unlocked := unlocked s; device := device s;
     pending := pending s |}.

Definition setError (v : option string) (s : State) : State :=
  {| currentIndex := currentIndex s; isPlaying := isPlaying s;
     isLooping := isLooping s; loadingAudio := loadingAudio s;
     activeSpeechId := activeSpeechId s; error := v;
     currentSourceRef := currentSourceRef s;
     unlocked := unlocked s; device := device s;
     pending := pending s |}.

Definition set_ref (v : option nat) (s : State) : State :=
  {| currentIndex := currentIndex s; isPlaying := isPlaying s;
     isLooping := isLooping s; loadingAudio := loadingAudio s;
     activeSpeechId := activeSpeechId s; error := error s;
     currentSourceRef := v;
     unlocked := unlocked s; device := device s; pending := pending s |}.

Definition on_device (f : Device Handler -> Device Handler) (s : State) : State :=
  {| currentIndex := currentIndex s; isPlaying := isPlaying s;
     isLooping := isLooping s; loadingAudio := loadingAudio s;
     activeSpeechId := activeSpeechId s; error := error s;
     currentSourceRef := currentSourceRef s;
     unlocked := unlocked s; device := f (device s);
     pending := pending s |}.

Definition set_pending (p : list Continuation) (s : State) : State :=
  {| currentIndex := currentIndex s; isPlaying := isPlaying s;
     isLooping := isLooping s; loadingAudio := loadingAudio s;
     activeSpeechId := activeSpeechId s; error := error s;
     currentSourceRef := currentSourceRef s;
     unlocked := unlocked s; device := device s;
     pending := p |}.

(** The [unlock] listener has run and is detached. *)
Definition set_unlocked (v : bool) (s : State) : State :=
  {| currentIndex := currentIndex s; isPlaying := isPlaying s;
     isLooping := isLooping s; loadingAudio := loadingAudio s;
     activeSpeechId := activeSpeechId s; error := error s;
     currentSourceRef := currentSourceRef s; unlocked := v;
     device := device s; pending := pending s |}.

Definition suspend (k : Continuation) (s : State) : State :=
  set_pending (pending s ++ [k]) s.

Definition settle (k : nat) (s : State) : State :=
  set_pending (<[k := Settled]> (pending s)) s.

Definition msg_speak_failed : string := "单句朗读失败，请重试".
Definition msg_network : string := "网络连接不稳定".

Section Player.

Variable sentences : list Sentence.

Definition len : Z := Z.of_nat (length sentences).

Definition sentence_at (index : Z) : option Sentence :=
  if index <? 0 then None else sentences !! Z.to_nat index.

(** [try { currentSourceRef.current.stop(); } catch (e) {}] when the ref is set. *)
Definition stop_current (s : State) : State :=
  match currentSourceRef s with
  | Some r => on_device (try_stop r) s
  | None => s
  end.

(** A source with its buffer, connection and handler. *)
Definition new_source (buf : list Q) (h : Handler) (s : State) : nat * State :=
  let '(n, d) := createBufferSource buf (device s) in
  (n, on_device (fun _ => set_onended n h (connect n d)) s).

(** [speakText(text, id)] up to [await generateSpeech(text)]. *)
Definition speakText (text id : string) (s : State) : State :=
  let s' := if isPlaying s then setIsPlaying false s else s in
  let s' := stop_current s' in
  let s' := setActiveSpeechId (Some id) s' in
  let s' := setError None s' in
  suspend (SpeakAwait text id) s'.

(** [speakText] after [generateSpeech] has settled: a missing result is thrown
    and caught together with a decoding failure. *)
Definition speakText_resume (audioBytes : option (list byte)) (s : State) : State :=
  match audioBytes with
  | None => setActiveSpeechId None (setError (Some msg_speak_failed) s)
  | Some bytes =>
      match PCM.decodeAudioData (PCM.fresh bytes) with
      | inl _ => setActiveSpeechId None (setError (Some msg_speak_failed) s)
      | inr buf =>
          let '(source, s) := new_source buf ClearActiveSpeech s in
          let s := set_ref (Some source) s in
          on_device (start source) s
      end
  end.

(** [playSentence(index)] up to [await generateSpeech(fullText)]. *)
Definition playSentence (c : Closure) (index : Z) (s : State) : State :=
  if negb (Engine.c_isPlaying c) then s
  else
    let s := setError None s in
    let s := setLoadingAudio true s in
    match sentence_at index with
    | None => s
    | Some sentence =>
        let fullText :=
          Engine.original sentence +:+ "。" +:+ Engine.translation sentence in
        suspend (AutoAwait c index fullText) s
    end.

(** [playSentence] after [generateSpeech] has settled:
    [setLoadingAudio(false); if (!audioBytes || !isPlaying) return; ...]. *)
Definition playSentence_resume (c : Closure) (index : Z)
  (audioBytes : option (list byte)) (s : State) : State :=
  let s := setLoadingAudio false s in
  match audioBytes with
  | None => s
  | Some bytes =>
      if negb (Engine.c_isPlaying c) then s
      else
        let s := stop_current s in
        match PCM.decodeAudioData (PCM.fresh bytes) with
        | inl _ =>
            (* catch (err) *)
            setIsPlaying false
              (setLoadingAudio false (setError (Some msg_network) s))
        | inr buf =>
            let '(source, s) := new_source buf (AutoAdvance c index) s in
            let s := set_ref (Some source) s in
            on_device (start source) s
        end
  end.

Definition run_handler (h : Handler) (s : State) : State :=
  match h with
  | ClearActiveSpeech => setActiveSpeechId None s
  | AutoAdvance c index =>
      if Engine.c_isLooping c then playSentence c index s
      else
        let next := index + 1 in
        if next <? len then setCurrentIndex next s
        else setIsPlaying false s
  end.

(** [togglePlay]. *)
Definition togglePlay (s : State) : State :=
  let s' := if Engine.truthy_id (activeSpeechId s)
            then setActiveSpeechId None s else s in
  setIsPlaying (negb (isPlaying s)) s'.

(** The playback effect. *)
Definition effect (s : State) : State :=
  if isPlaying s then
    playSentence {| Engine.c_isPlaying := isPlaying s;
                    Engine.c_isLooping := isLooping s |} (currentIndex s) s
  else if negb (Engine.truthy_id (activeSpeechId s)) then stop_current s
  else s.

(** The cleanup of the effect of the previous render, which captured that
    render's [activeSpeechId]. *)
Definition cleanup (before s : State) : State :=
  if negb (Engine.truthy_id (activeSpeechId before)) then stop_current s else s.

Definition deps (s : State) : Z * bool * bool * option string :=
  (currentIndex s, isPlaying s, isLooping s, activeSpeechId s).

Definition commit (before after : State) : State :=
  if decide (deps before = deps after) then after
  else effect (cleanup before after).

Inductive Event : Type :=
  | TogglePlay
  | ToggleLoop
  | PrevClick
  | NextClick
  | SpeakClick (text id : string)
  | Gesture                      (* a touch or click that hits no control *)
  | SpeechSettled (k : nat) (audioBytes : option (list byte))
  | SourceEnded (n : nat).

Definition handle (e : Event) (s : State) : State :=
  match e with
  | TogglePlay => togglePlay s
  | ToggleLoop => setIsLooping (negb (isLooping s)) s
  | PrevClick => setCurrentIndex (Nav.prev_click (currentIndex s)) s
  | NextClick => setCurrentIndex (Nav.next_click len (currentIndex s)) s
  | SpeakClick text id => speakText text id s
  | Gesture => s
  | SpeechSettled k audioBytes =>
      match pending s !! k with
      | Some (SpeakAwait _ _) => speakText_resume audioBytes (settle k s)
      | Some (AutoAwait c index _) =>
          playSentence_resume c index audioBytes (settle k s)
      | _ => s
      end
  | SourceEnded n =>
      match dispatch_ended n (device s) with
      | Some (h, d) =>
          let s := on_device (fun _ => d) s in
          match h with
          | Some h => run_handler h s
          | None => s
          end
      | None => s
      end
  end.

(** The [unlock] listener of the mount effect:
    [createBuffer(1, 1, 24000)], [createBufferSource()], [source.buffer =
    buffer], [source.connect(ctx.destination)], [source.start(0)], and both
    window listeners are removed.  The frame of silence gets no completion
    handler and is not made the current source.  The context is taken to be
    running, or resumed before the next event arrives, so that the listener
    runs once; a touch on a disabled control is a [Gesture]. *)
Definition unlock (s : State) : State :=
  if unlocked s then s
  else
    let '(source, d) := createBufferSource (replicate 1 0%Q) (device s) in
    set_unlocked true (on_device (fun _ => start source (connect source d)) s).

(** The events that reach the window as a [touchstart] or [click].  A
    disabled control delivers no click. *)
Definition reaches_window (s : State) (e : Event) : bool :=
  match e with
  | TogglePlay | ToggleLoop | SpeakClick _ _ | Gesture => true
  | PrevClick => negb (currentIndex s =? 0)
  | NextClick => negb (currentIndex s =? len - 1)
  | SpeechSettled _ _ | SourceEnded _ => false
  end.

(** One task.  A click bubbles to the window after the handler of the control
    it hit has run and its state updates are committed. *)
Definition step (s : State) (e : Event) : State :=
  let s' := commit s (handle e s) in
  if reaches_window s e then unlock s' else s'.

Definition run (s : State) (es : list Event) : State := fold_left step es s.

End Player.

End DraftPoint.

(* ===================================================================== *)
(** * The second player: narration that starts on mount *)
(* ===================================================================== *)

Module Second.

Import WebAudio.

Abbreviation Sentence := Engine.Sentence.
Abbreviation Closure := Engine.Closure.

(** The [onended] handler installed by [playSentence]. *)
Inductive Handler : Type :=
  | AutoAdvance (c : Closure) (index : Z).

Inductive Continuation : Type :=
  | AutoAwait (c : Closure) (index : Z) (text : string)
  | Settled.

(** [crashed] records an exception that left the playback effect: the
    [stop()] of its second branch is not inside a [try].  What follows such a
    crash is not modelled; a crashed player takes no further step. *)
Record State : Type := {
  currentIndex : Z;
  isPlaying : bool;
  isLooping : bool;
  loadingAudio : bool;
  currentSourceRef : option nat;
  crashed : bool;
  device : Device Handler;
  pending : list Continuation
}.

(** The initial values of the state hooks: narration is on from the start. *)
Definition init : State :=
  {| currentIndex := 0; isPlaying := true; isLooping := false;
     loadingAudio := false; currentSourceRef := None; crashed := false;
     device := no_device; pending := [] |}.

Definition setCurrentIndex (v : Z) (s : State) : State :=
  {| currentIndex := v; isPlaying := isPlaying s; isLooping := isLooping s;
     loadingAudio := loadingAudio s; currentSourceRef := currentSourceRef s;
     crashed := crashed s; device := device s; pending := pending s |}.

Definition setIsPlaying (v : bool) (s : State) : State :=
  {| currentIndex := currentIndex s; isPlaying := v; isLooping := isLooping s;
     loadingAudio := loadingAudio s; currentSourceRef := currentSourceRef s;
     crashed := crashed s; device := device s; pending := pending s |}.

Definition setIsLooping (v : bool) (s : State) : State :=
  {| currentIndex := currentIndex s; isPlaying := isPlaying s; isLooping := v;
     loadingAudio := loadingAudio s; currentSourceRef := currentSourceRef s;
     crashed := crashed s; device := device s; pending := pending s |}.

Definition setLoadingAudio (v : bool) (s : State) : State :=
  {| currentIndex := currentIndex s; isPlaying := isPlaying s;
     isLooping := isLooping s; loadingAudio := v;
     currentSourceRef := currentSourceRef s; crashed := crashed s;
     device := device s; pending := pending s |}.

Definition set_ref (v : option nat) (s : State) : State :=
  {| currentIndex := currentIndex s; isPlaying := isPlaying s;
     isLooping := isLooping s; loadingAudio := loadingAudio s;
     currentSourceRef := v; crashed := crashed s; device := device s;
     pending := pending s |}.

Definition crash (s : State) : State :=
  {| currentIndex := currentIndex s; isPlaying := isPlaying s;
     isLooping := isLooping s; loadingAudio := loadingAudio s;
     currentSourceRef := currentSourceRef s; crashed := true;
     device := device s; pending := pending s |}.

Definition on_device (f : Device Handler -> Device Handler) (s : State) : State :=
  {| currentIndex := currentIndex s; isPlaying := isPlaying s;
     isLooping := isLooping s; loadingAudio := loadingAudio s;
     currentSourceRef := currentSourceRef s; crashed := crashed s;
     device := f (device s); pending := pending s |}.

Definition set_pending (p : list Continuation) (s : State) : State :=
  {| currentIndex := currentIndex s; isPlaying := isPlaying s;
     isLooping := isLooping s; loadingAudio := loadingAudio s;
     currentSourceRef := currentSourceRef s; crashed := crashed s;
     device := device s; pending := p |}.

Definition suspend (k : Continuation) (s : State) : State :=
  set_pending (pending s ++ [k]) s.

Definition settle (k : nat) (s : State) : State :=
  set_pending (<[k := Settled]> (pending s)) s.

Section Player.

Variable sentences : list Sentence.

Definition len : Z := Z.of_nat (length sentences).

Definition sentence_at (index : Z) : option Sentence :=
  if index <? 0 then None else sentences !! Z.to_nat index.

(** [if (currentSourceRef.current) { try { currentSourceRef.current.stop(); }
    catch (e) {} }], also the cleanup of the playback effect. *)
Definition stop_current (s : State) : State :=
  match currentSourceRef s with
  | Some r => on_device (try_stop r) s
  | None => s
  end.

(** [playSentence(index)] up to [await generateSpeech(fullText)].  Nothing
    is caught in this function: with no sentence at [index] the property
    read throws, the promise of the call is rejected, and the state update
    made before stays. *)
Definition playSentence (c : Closure) (index : Z) (s : State) : State :=
  if negb (Engine.c_isPlaying c) then s
  else
    let s := setLoadingAudio true s in
    match sentence_at index with
    | None => s
    | Some sentence =>
        let fullText :=
          Engine.original sentence +:+ ". " +:+ Engine.translation sentence in
        suspend (AutoAwait c index fullText) s
    end.

(** [playSentence] after [generateSpeech] has settled:
    [setLoadingAudio(false); if (!audioBytes) return;], the current source is
    stopped, and the bytes are decoded over their whole buffer.  An exception
    of the decoder leaves the call, with the current source already
    stopped. *)
Definition playSentence_resume (c : Closure) (index : Z)
  (audioBytes : option (list byte)) (s : State) : State :=
  let s := setLoadingAudio false s in
  match audioBytes with
  | None => s
  | Some bytes =>
      let s := stop_current s in
      match PCM.decodeAudioData_whole (PCM.fresh bytes) with
      | inl _ => s
      | inr buf =>
          let '(source, d) := createBufferSource buf (device s) in
          let s :=
            on_device (fun _ => set_onended source (AutoAdvance c index)
                                  (connect source d)) s in
          let s := set_ref (Some source) s in
          on_device (start source) s
      end
  end.

(** The body of the [onended] handler. *)
Definition run_handler (h : Handler) (s : State) : State :=
  match h with
  | AutoAdvance c index =>
      if Engine.c_isLooping c then playSentence c index s
      else
        let next := index + 1 in
        if next <? len then setCurrentIndex next s
        else setIsPlaying false s
  end.

(** The playback effect:
    [if (isPlaying) playSentence(currentIndex);
     else currentSourceRef.current?.stop();]. *)
Definition effect (s : State) : State :=
  if isPlaying s then
    playSentence {| Engine.c_isPlaying := isPlaying s;
                    Engine.c_isLooping := isLooping s |} (currentIndex s) s
  else
    match currentSourceRef s with
    | Some r =>
        match stop r (device s) with
        | inr d => on_device (fun _ => d) s
        | inl _ => crash s
        end
    | None => s
    end.

(** Its cleanup: [try { currentSourceRef.current?.stop(); } catch (e) {}]. *)
Definition cleanup (s : State) : State := stop_current s.

(** Dependencies [[currentIndex, isPlaying, playSentence]]. *)
Definition deps (s : State) : Z * bool * bool :=
  (currentIndex s, isPlaying s, isLooping s).

Definition commit (before after : State) : State :=
  if decide (deps before = deps after) then after
  else effect (cleanup after).

(** The player after its first render: the effect has run once. *)
Definition mounted : State := effect init.

Inductive Event : Type :=
  | TogglePlay
  | ToggleLoop
  | PrevClick
  | NextClick
  | SentenceClick (idx : nat)
  | SpeechSettled (k : nat) (audioBytes : option (list byte))
  | SourceEnded (n : nat).

Definition handle (e : Event) (s : State) : State :=
  match e with
  | TogglePlay => setIsPlaying (negb (isPlaying s)) s
  | ToggleLoop => setIsLooping (negb (isLooping s)) s
  | PrevClick => setCurrentIndex (Nav.prev_click (currentIndex s)) s
  | NextClick => setCurrentIndex (Nav.next_click len (currentIndex s)) s
  | SentenceClick idx =>
      (* [setCurrentIndex(idx)], for the rendered sentences *)
      setCurrentIndex (Nav.sentence_click len (Z.of_nat idx) (currentIndex s)) s
  | SpeechSettled k audioBytes =>
      match pending s !! k with
      | Some (AutoAwait c index _) =>
          playSentence_resume c index audioBytes (settle k s)
      | _ => s
      end
  | SourceEnded n =>
      match dispatch_ended n (device s) with
      | Some (h, d) =>
          let s := on_device (fun _ => d) s in
          match h with
          | Some h => run_handler h s
          | None => s
          end
      | None => s
      end
  end.

Definition step (s : State) (e : Event) : State :=
  if crashed s then s else commit s (handle e s).

Definition run (s : State) (es : list Event) : State := fold_left step es s.

(** The current source has been started ([stop()] on it does not throw). *)
Definition ref_started (s : State) : Prop :=
  forall r, currentSourceRef s = Some r ->
    exists node, nodes (device s) !! r = Some node /\ playback node <> Unstarted.

End Player.

End Second.

(* ===================================================================== *)
(** * The application shell: state updates, auto start, the home screen *)
(* ===================================================================== *)

Module Shell.

Import App.

(** ** The state updates of [App], on the stored object *)

(** [setState(prev => ({ ...prev, currentView: view }))]. *)
Definition setView (view : string) (prev : Obj) : Obj :=
  <["currentView" := JStr view]> prev.

(** [setState(prev => ({ ...prev, currentLesson: lesson, currentView: 'player' }))]. *)
Definition setCurrentLesson (lesson : JSON) (prev : Obj) : Obj :=
  <["currentView" := JStr "player"]> (<["currentLesson" := lesson]> prev).

(** [setState(prev => ({ ...prev, schedules }))]. *)
Definition setSchedules (schedules : JSON) (prev : Obj) : Obj :=
  <["schedules" := schedules]> prev.

(** [setState(prev => ({ ...prev, isAutoModeArmed: !prev.isAutoModeArmed }))]. *)
Definition toggleAutoMode (prev : Obj) : Obj :=
  <["isAutoModeArmed" := JBool (negb (truthy (prev !! "isAutoModeArmed")))]> prev.

(** What the user interface of the shell can ask for. *)
Inductive Action : Type :=
  | SetView (view : string)
  | SetCurrentLesson (lesson : JSON)
  | SetSchedules (schedules : JSON)
  | ToggleAutoMode.

Definition act (st : Obj) (a : Action) : Obj :=
  match a with
  | SetView view => setView view st
  | SetCurrentLesson lesson => setCurrentLesson lesson st
  | SetSchedules schedules => setSchedules schedules st
  | ToggleAutoMode => toggleAutoMode st
  end.

Definition run (st : Obj) (actions : list Action) : Obj := fold_left act actions st.

(** The actions that write a field other than the view and the armed flag. *)
Definition persistent (a : Action) : bool :=
  match a with
  | SetCurrentLesson _ | SetSchedules _ => true
  | SetView _ | ToggleAutoMode => false
  end.

(** The persistence effect writes [JSON.stringify(state)] after every change
    of the state; the next start of the application parses that text in its
    initializer.  The state holds JSON values only, which [JSON.parse] gives
    back as they were written. *)
Definition reload (mock_lesson0 : JSON) (st : Obj) : Obj :=
  initial_state mock_lesson0 (Some (JObj st)).

(** ** The auto-start effect *)

(** One run of [checkSchedule] by the auto-start effect (its immediate check
    or a firing of its interval): [if (!state.isAutoModeArmed) return;] comes
    first, and no timer exists while the mode is off. *)
Definition auto_start (now : Date) (st : AppState) : AppState :=
  if negb (isAutoModeArmed st) then st else checkSchedule now st.

(** The checks made at the instants [nows], in order.  The effect depends on
    every field that [checkSchedule] reads, so each check sees the state left
    by the one before. *)
Definition ticks (st : AppState) (nows : list Date) : AppState :=
  fold_left (fun st now => auto_start now st) nows st.

(** A wall-clock reading. *)
Definition clock (now : Date) : Prop :=
  0 <= getHours now < 24 /\ 0 <= getMinutes now < 60.

(** The decimal digit [d] as a character. *)
Definition digit (d : Z) : Ascii.ascii := Ascii.ascii_of_nat (48 + Z.to_nat d).

(** A field of a time of day written with two decimal digits. *)
Definition two_decimals (z : Z) : string :=
  String (digit (z / 10)) (String (digit (z mod 10)) EmptyString).

(** The time of day [h]:[m], to the minute, as a start time is written:
    [HH:MM].  This is the specification's reading of the clock; the program
    builds the string with [padStart], see [currentHhMm]. *)
Definition hh_mm (h m : Z) : string := two_decimals h +:+ ":" +:+ two_decimals m.

End Shell.

Module Home.

Import App.

(** [state.schedules.filter(s => s.enabled)]: the schedules listed under the
    auto-mode switch. *)
Definition activeSchedules (st : AppState) : list Schedule :=
  List.filter enabled (schedules st).

(** [currentLesson.category === 'middle' ? '初中必背' : '高中必背']. *)
Definition category_label (category : string) : string :=
  if String.eqb category "middle" then "初中必背" else "高中必背".

End Home.

(* ===================================================================== *)
(** * Runs of the narration engine *)
(* ===================================================================== *)

Module Narration.

Import WebAudio Engine.

(** Speech that decodes to at least one frame, or no speech at all. *)
Definition playable (outcome : option (list byte)) : Prop :=
  match outcome with
  | Some audio => (2 <= length audio)%nat
  | None => True
  end.

(** No source node produces sound. *)
Definition silent (s : State) : Prop :=
  forall n node, nodes (device s) !! n = Some node -> playback node <> Sounding.

(** The unit index kept by suspended work and by completion handlers. *)
Definition continuation_index (k : Continuation) : option Z :=
  match k with
  | AutoAwait _ index _ | SkipTimer index => Some index
  | SpeakAwait _ _ | Settled => None
  end.

Definition handler_index (h : option Handler) : option Z :=
  match h with
  | Some (AutoAdvance _ index) => Some index
  | _ => None
  end.

Definition nonneg (i : option Z) : Prop :=
  match i with
  | Some i => 0 <= i
  | None => True
  end.

(** The events that need no listener: speech that arrives, a timer that
    fires, a source that ends. *)
Definition is_arrival (e : Event) : bool :=
  match e with
  | SpeechSettled _ _ | TimerFired _ | SourceEnded _ => true
  | _ => false
  end.

(** No suspended work and no completion handler keeps a negative index. *)
Definition pending_ok (p : list Continuation) : Prop :=
  Forall (fun k => nonneg (continuation_index k)) p.

Definition handlers_ok (d : Device Handler) : Prop :=
  Forall (fun node => nonneg (handler_index (onended node))) (nodes d).

Section Player.

Variable sentences : list Sentence.

(** The position is an index of the lesson, and every index that a
    continuation or a completion handler will add one to is at least 0. *)
Definition indices_ok (s : State) : Prop :=
  Nav.valid_index (len sentences) (currentIndex s) /\
  pending_ok (pending s) /\ handlers_ok (device s).

(** The speech requested last arrives as [outcome].  A source that starts
    plays to the end of its buffer; after a failed request the one-second
    timer fires. *)
Definition deliver (s : State) (outcome : option (list byte)) : State :=
  let k := Nat.pred (length (pending s)) in
  let s1 := step sentences s (SpeechSettled k outcome) in
  match outcome with
  | Some _ =>
      match currentSourceRef s1 with
      | Some n => step sentences s1 (SourceEnded n)
      | None => s1
      end
  | None => step sentences s1 (TimerFired (length (pending s)))
  end.

(** Uninterrupted narration: one outcome per request. *)
Definition narrate (s : State) (outcomes : list (option (list byte))) : State :=
  fold_left deliver outcomes s.

(** The text that [playNextSentence] sends for a unit. *)
Definition full_text (sentence : Sentence) : string :=
  original sentence +:+ "。意思是：" +:+ translation sentence.

(** Narration of unit [j] has been requested and nothing sounds meanwhile. *)
Definition awaiting (j : nat) (s : State) : Prop :=
  isComponentMounted s = true /\ isPlaying s = true /\ isLooping s = false /\
  activeSpeechId s = None /\ currentIndex s = Z.of_nat j /\
  silent s /\
  (forall r, currentSourceRef s = Some r -> (r < length (nodes (device s)))%nat) /\
  exists p sentence,
    sentences !! j = Some sentence /\
    pending s = p ++ [AutoAwait {| c_isPlaying := true; c_isLooping := false |}
                                (Z.of_nat j) (full_text sentence)].

End Player.

End Narration.

(* ===================================================================== *)
(** * Runs of the first player *)
(* ===================================================================== *)

Module DraftRuns.

Import WebAudio Draft.

(** Only the current source of the first player may sound. *)
Definition ref_owns_sound (s : State) : Prop :=
  forall n node,
    nodes (device s) !! n = Some node -> playback node = Sounding ->
    currentSourceRef s = Some n.

End DraftRuns.

(* ===================================================================== *)
(** * Properties of the decoder *)
(* ===================================================================== *)

Module PCMFacts.

Import PCM.

(** Induction two bytes at a time. *)
Lemma pair_ind (P : list byte -> Prop) :
  P [] -> (forall a, P [a]) -> (forall a b l, P l -> P (a :: b :: l)) ->
  forall l, P l.
Proof.
  intros Hnil Hone Hstep.
  assert (H : forall l, P l /\ forall a, P (a :: l)).
  { induction l as [|b l [IH1 IH2]]; split; auto. }
  intros l. apply H.
Qed.

(** A 16-bit element is a signed 16-bit integer. *)
Lemma int16_le_range lo hi : -32768 <= int16_le lo hi < 32768.
Proof.
  unfold int16_le.
  pose proof (Byte.to_N_bounded lo). pose proof (Byte.to_N_bounded hi).
  destruct (Z.ltb_spec (Z.of_N (Byte.to_N lo) + 256 * Z.of_N (Byte.to_N hi)) 32768);
    lia.
Qed.

Lemma read_int16_length bs : length (read_int16 bs) = (length bs / 2)%nat.
Proof.
  induction bs as [|a|a b l IH] using pair_ind; [done..|].
  cbn [read_int16 length]. rewrite IH.
  change (S (S (length l))) with (1 * 2 + length l)%nat.
  rewrite Nat.div_add_l by lia. done.
Qed.

Lemma read_int16_lookup bs i : read_int16 bs !! i = int16_at bs i.
Proof.
  revert i. induction bs as [|a|a b l IH] using pair_ind; intros i.
  - done.
  - unfold int16_at. destruct i as [|i]; simpl; [done|].
    replace (i + S (i + 0))%nat with (S (2 * i)) by lia. done.
  - destruct i as [|i]; [done|].
    cbn [read_int16]. rewrite lookup_cons. rewrite IH. unfold int16_at.
    replace (2 * S i)%nat with (S (S (2 * i))) by lia.
    replace (S (S (2 * i)) + 1)%nat with (S (S (2 * i + 1))) by lia.
    done.
Qed.

(** The fill loop writes positions [i .. i + n - 1] and nothing else. *)
Lemma fill_length n i dataInt16 channelData :
  length (fill n i dataInt16 channelData) = length channelData.
Proof.
  revert i channelData. induction n as [|n IH]; intros i ch; simpl; [done|].
  rewrite IH. apply length_insert.
Qed.

Lemma fill_lookup n i dataInt16 channelData j :
  (i + n <= length channelData)%nat ->
  fill n i dataInt16 channelData !! j =
    if decide (i <= j < i + n)%nat
    then Some (normalise (default 0 (dataInt16 !! j)))
    else channelData !! j.
Proof.
  revert i channelData. induction n as [|n IH]; intros i ch Hlen; simpl.
  - case_decide; [lia|done].
  - rewrite IH by (rewrite length_insert; lia).
    destruct (decide (j = i)) as [->|Hne].
    + rewrite decide_False by lia. rewrite decide_True by lia.
      apply list_lookup_insert_eq. lia.
    + rewrite list_lookup_insert_ne by done.
      repeat case_decide; done || lia.
Qed.

(** Reading through the even-length prefix of a view sees the same elements. *)
Lemma int16_at_take bs n i :
  (2 * i + 1 < n)%nat -> int16_at (take n bs) i = int16_at bs i.
Proof.
  intros Hi. unfold int16_at. rewrite !lookup_take_lt by lia. done.
Qed.

(** Engine decoder: an aligned view of at least two bytes decodes to
    [floor(byteLength / 2)] samples, sample [i] being the 16-bit element at
    byte offset [2 i] of the view over 32768. *)
Lemma decodeAudioData_aligned (data : Uint8Array) :
  well_formed data ->
  (byteOffset data mod 2 = 0)%nat ->
  (2 <= byteLength data)%nat ->
  exists samples,
    decodeAudioData data = inr samples /\
    length samples = (byteLength data / 2)%nat /\
    forall i, (i < byteLength data / 2)%nat ->
      samples !! i = normalise <$> int16_at (contents data) i.
Proof.
  unfold well_formed. intros Hwf Hal Hlen.
  pose proof (Nat.div_mod_eq (byteLength data) 2) as Hdm.
  pose proof (Nat.mod_upper_bound (byteLength data) 2 ltac:(lia)) as Hmod.
  assert (Hpos : (0 < byteLength data / 2)%nat).
  { apply Nat.div_str_pos. lia. }
  unfold decodeAudioData, Int16Array_view, createBuffer.
  rewrite Hal. simpl negb. cbv iota.
  destruct (Nat.ltb_spec (length (buffer data))
              (byteOffset data + 2 * (byteLength data / 2))) as [Hbad|_]; [lia|].
  destruct (Nat.eqb_spec (byteLength data / 2) 0) as [Hz|_]; [lia|].
  eexists. split; [reflexivity|]. split.
  - rewrite fill_length. apply length_replicate.
  - intros i Hi. rewrite fill_lookup by (rewrite length_replicate; lia).
    rewrite decide_True by lia. rewrite read_int16_lookup.
    rewrite int16_at_take by lia.
    unfold contents. rewrite int16_at_take by lia.
    destruct (int16_at (drop (byteOffset data) (buffer data)) i) eqn:E; [done|].
    exfalso. unfold int16_at in E.
    rewrite !lookup_drop in E.
    destruct (lookup_lt_is_Some_2 (buffer data) (byteOffset data + 2 * i))
      as [x Hx]; [lia|].
    destruct (lookup_lt_is_Some_2 (buffer data) (byteOffset data + (2 * i + 1)))
      as [y Hy]; [lia|].
    rewrite Hx, Hy in E. done.
Qed.

(** What [generateSpeech] returns is aligned. *)
Lemma decodeAudioData_fresh (B : list byte) :
  (2 <= length B)%nat ->
  exists samples,
    decodeAudioData (fresh B) = inr samples /\
    length samples = (length B / 2)%nat /\
    forall i, (i < length B / 2)%nat ->
      samples !! i = normalise <$> int16_at B i.
Proof.
  intros Hlen.
  destruct (decodeAudioData_aligned (fresh B)) as (samples & Hd & Hl & Hs).
  - unfold well_formed. simpl. lia.
  - done.
  - done.
  - exists samples. split; [done|]. split; [done|].
    intros i Hi. rewrite (Hs i Hi). unfold contents. simpl.
    rewrite drop_0, firstn_all. done.
Qed.

(** Normalised samples lie in [-1, 1). *)
Lemma normalise_range lo hi :
  (-1 <= normalise (int16_le lo hi))%Q /\ (normalise (int16_le lo hi) < 1)%Q.
Proof.
  pose proof (int16_le_range lo hi) as H.
  unfold normalise, Qle, Qlt, Qdiv, Qmult, Qinv, inject_Z. simpl. lia.
Qed.

(** Fewer than two bytes: no frame, and [createBuffer] refuses. *)
Lemma decodeAudioData_short (B : list byte) :
  (length B < 2)%nat -> decodeAudioData (fresh B) = inl NotSupportedError.
Proof.
  intros H. destruct B as [|a [|b l]]; [done|done|simpl in H; lia].
Qed.


(** C6 (second player, [decodeAudioData] over the whole buffer): on the
    three-byte buffer [01 00 ff] the decoder throws a [RangeError], where the
    claim promises one sample, [1 / 32768], and the trailing byte dropped; the
    engine's decoder returns exactly that on the same bytes.  On a single
    byte the engine's decoder throws as well: the claim promises an empty
    result, and [createBuffer] refuses a buffer without frames. *)
Theorem decode_odd_length_divergence :
  decodeAudioData_whole (fresh [x01; x00; xff]%byte) = inl RangeError /\
  decodeAudioData (fresh [x01; x00; xff]%byte) = inr [normalise 1] /\
  decodeAudioData (fresh [x01]%byte) = inl NotSupportedError.
Proof. repeat split; reflexivity. Qed.

End PCMFacts.

(* ===================================================================== *)
(** * Properties of navigation *)
(* ===================================================================== *)

Module NavFacts.

Import Nav.

Lemma next_click_min n cur :
  0 < n -> 0 <= cur < n -> next_click n cur = Z.min (n - 1) (cur + 1).
Proof.
  intros Hn Hc. unfold next_click.
  destruct (Z.eqb_spec cur (n - 1)); lia.
Qed.

Lemma prev_click_max cur : 0 <= cur -> prev_click cur = Z.max 0 (cur - 1).
Proof.
  intros Hc. unfold prev_click. destruct (Z.eqb_spec cur 0); lia.
Qed.

(** Pressing "next" [k] times. *)
Lemma iter_next_click n k cur :
  0 < n -> 0 <= cur < n ->
  Nat.iter k (next_click n) cur = Z.min (n - 1) (cur + Z.of_nat k).
Proof.
  intros Hn Hc. induction k as [|k IH].
  - simpl. lia.
  - rewrite Nat.iter_succ, IH. rewrite next_click_min by lia. lia.
Qed.

(** Pressing "previous" [k] times. *)
Lemma iter_prev_click k cur :
  0 <= cur -> Nat.iter k prev_click cur = Z.max 0 (cur - Z.of_nat k).
Proof.
  intros Hc. induction k as [|k IH].
  - simpl. lia.
  - rewrite Nat.iter_succ, IH. rewrite prev_click_max by lia. lia.
Qed.

(** C7, amended to lessons with at least one unit: from a valid index, moving
    towards any integer [i] with the controls ends on [clamp(i, 0, n - 1)];
    one press of "next" or "previous" ends on the clamped neighbour; clicking
    a rendered sentence selects it; every result is a valid index, so
    navigation never wraps. *)
Theorem navigation_clamps (n cur i : Z) :
  0 < n -> valid_index n cur ->
  navigate_to n i cur = clamp i 0 (n - 1) /\
  next_click n cur = clamp (cur + 1) 0 (n - 1) /\
  prev_click cur = clamp (cur - 1) 0 (n - 1) /\
  (valid_index n i -> sentence_click n i cur = i) /\
  valid_index n (navigate_to n i cur) /\
  valid_index n (next_click n cur) /\
  valid_index n (prev_click cur) /\
  valid_index n (sentence_click n i cur).
Proof.
  unfold valid_index. intros Hn Hc.
  assert (Hnav : navigate_to n i cur = clamp i 0 (n - 1)).
  { unfold navigate_to, clamp. destruct (Z.leb_spec cur i).
    - rewrite iter_next_click by lia. lia.
    - rewrite iter_prev_click by lia. lia. }
  assert (Hsc : 0 <= sentence_click n i cur < n).
  { unfold sentence_click.
    destruct (Z.leb_spec 0 i), (Z.ltb_spec i n); simpl; lia. }
  rewrite Hnav, next_click_min, prev_click_max by lia.
  unfold clamp. repeat split; try lia.
  intros Hi. unfold sentence_click.
  destruct (Z.leb_spec 0 i), (Z.ltb_spec i n); simpl; lia.
Qed.

(** The theorem at a lesson of three units, from unit 1 towards unit 7. *)
Lemma navigation_clamps_witness :
  navigate_to 3 7 1 = 2 /\ next_click 3 1 = 2 /\ prev_click 1 = 0.
Proof.
  destruct (navigation_clamps 3 1 7) as (H1 & H2 & H3 & _);
    [lia | unfold valid_index; lia |].
  rewrite H1, H2, H3. unfold clamp. repeat split; reflexivity.
Defined.

End NavFacts.

(* ===================================================================== *)
(** * Properties of the application shell *)
(* ===================================================================== *)

Module AppFacts.

Import App.

(** [find] returns the first element that satisfies the predicate. *)
Lemma find_first {A} (f : A -> bool) (l : list A) (x : A) :
  List.find f l = Some x <->
  exists l1 l2, l = l1 ++ x :: l2 /\ f x = true /\ Forall (fun y => f y = false) l1.
Proof.
  induction l as [|a l IH]; simpl.
  - split; [done|]. intros (l1 & l2 & H & _). by destruct l1.
  - destruct (f a) eqn:Ha.
    + split.
      * intros [= <-]. exists [], l. by repeat split.
      * intros (l1 & l2 & H & Hx & Hl1). destruct l1 as [|b l1].
        -- simpl in H. by injection H as ->.
        -- simpl in H. injection H as -> _.
           apply Forall_cons in Hl1 as [Hb _]. congruence.
    + rewrite IH. split.
      * intros (l1 & l2 & -> & Hx & Hl1). exists (a :: l1), l2.
        repeat split; [done|]. by constructor.
      * intros (l1 & l2 & H & Hx & Hl1). destruct l1 as [|b l1].
        -- simpl in H. injection H as -> _. congruence.
        -- simpl in H. injection H as -> ->.
           apply Forall_cons in Hl1 as [_ Hl1]. by exists l1, l2.
Qed.

Lemma includes_spec (l : list Z) (x : Z) : includes l x = true <-> x ∈ l.
Proof.
  unfold includes. rewrite existsb_exists. split.
  - intros (y & Hin & Hy). apply Z.eqb_eq in Hy as ->. by apply list_elem_of_In.
  - intros Hin. exists x. split; [by apply list_elem_of_In | apply Z.eqb_refl].
Qed.

Lemma matches_spec now s :
  matches now s = true <->
  enabled s = true /\ getDay now ∈ repeatDays s /\ startTime s = currentHhMm now.
Proof.
  unfold matches. rewrite !andb_true_iff, includes_spec, String.eqb_eq. tauto.
Qed.

Lemma matches_set_endTime now e s : matches now (set_endTime e s) = matches now s.
Proof. reflexivity. Qed.

Lemma find_retime now f l :
  List.find (matches now) (map (fun s => set_endTime (f s) s) l) =
  (fun s => set_endTime (f s) s) <$> List.find (matches now) l.
Proof.
  induction l as [|a l IH]; simpl; [done|].
  rewrite matches_set_endTime. by destruct (matches now a).
Qed.

(** Armed at 07:00 on a Monday with the default schedules: the first check
    opens the player, a second check in the same minute changes nothing, and
    a check one minute later, from the home view, does not fire. *)
Example schedule_scenario :
  let st := {| currentView := home; schedules := default_schedules;
               isAutoModeArmed := true |} in
  let later := {| getHours := 7; getMinutes := 1; getSeconds := 0; getDay := 1 |} in
  currentView (checkSchedule monday_morning st) = player /\
  checkSchedule monday_morning (checkSchedule monday_morning st) =
    checkSchedule monday_morning st /\
  checkSchedule later st = st /\
  (sch_id <$> activeSchedule monday_morning st) = Some "1".
Proof. repeat split; reflexivity. Qed.

(** C9: whatever was stored, the restored state is disarmed and shows the
    home view, and every other stored field, the current lesson and the
    schedule list among them, is restored as saved. *)
Theorem restore_forces_defaults (mock_lesson0 parsed : JSON) :
  let st := initial_state mock_lesson0 (Some parsed) in
  st !! "isAutoModeArmed" = Some (JBool false) /\
  st !! "currentView" = Some (JStr "home") /\
  st !! "currentLesson" = own_props parsed !! "currentLesson" /\
  st !! "schedules" = own_props parsed !! "schedules" /\
  (forall k : string, k <> "isAutoModeArmed" -> k <> "currentView" ->
     st !! k = own_props parsed !! k) /\
  (forall m : Obj, parsed = JObj m ->
     st !! "currentLesson" = m !! "currentLesson" /\
     st !! "schedules" = m !! "schedules").
Proof.
  simpl. unfold restore.
  assert (Hother : forall k : string, k <> "isAutoModeArmed" -> k <> "currentView" ->
            <["isAutoModeArmed" := JBool false]>
              (<["currentView" := JStr "home"]> (own_props parsed)) !! k
            = own_props parsed !! k).
  { intros k H1 H2. by rewrite !lookup_insert_ne. }
  split; [apply lookup_insert_eq|].
  split; [rewrite lookup_insert_ne by done; apply lookup_insert_eq|].
  split; [by apply Hother|].
  split; [by apply Hother|].
  split; [done|].
  intros m ->. split; by apply Hother.
Qed.

Lemma map_sentences_spec v sentences :
  map_sentences v = inr sentences ->
  exists l, sentences = imap with_id l /\
            (v = Some (JArr l) \/ (truthy v = false /\ l = [])).
Proof.
  unfold map_sentences. destruct (truthy v) eqn:Ht.
  - destruct v as [[| | | |l|]|]; try done.
    intros [= <-]. exists l. split; [done|]. by left.
  - intros [= <-]. exists []. split; [done|]. by right.
Qed.

Lemma with_id_lookup i s :
  with_id i s !! "id" = Some (JStr ("s-" +:+ pretty (Z.of_nat i))) /\
  forall k : string, k <> "id" -> with_id i s !! k = own_props s !! k.
Proof.
  unfold with_id, sentence_id. split; [apply lookup_insert_eq|].
  intros k Hk. by rewrite lookup_insert_ne.
Qed.

(** A string is spread by UTF-16 code unit: a character of the basic plane
    is one element whatever its length in UTF-8, a character beyond it is
    two, its surrogates. *)
Example spread_by_code_unit :
  chars "a学b" = [JStr "a"; JStr "学"; JStr "b"] /\
  own_props (JStr "学") = <["0" := JStr "学"]> ∅ /\
  length (chars "😀") = 2%nat /\
  dom (own_props (JStr "😀")) = ({["0"; "1"]} : gset string).
Proof. repeat split; try reflexivity. Qed.

(** An object payload whose [sentences] field is an array (or is missing)
    yields a lesson. *)
Lemma fetch_succeeds (lessonName rnd : string) (m : Obj) :
  (m !! "sentences" = None \/ exists l, m !! "sentences" = Some (JArr l)) ->
  is_Some (fetchLessonContent lessonName rnd (inr (JObj m))).
Proof.
  unfold fetchLessonContent. simpl.
  intros [->|[l ->]]; simpl; eauto.
Qed.

(** C10.  Stated on the fields of the payload.  When the parsed payload is
    an object whose [sentences] field is an array, [fetchLessonContent]
    returns a lesson; its category is ['custom'], it has as many sentences
    as the array has elements, in the array's order, sentence [i] has the
    identifier [s-i], and when element [i] is an object every other field of
    the sentence is the field of that element.  And whatever the payload,
    object or not, a lesson that is returned has category ['custom'] and its
    [i]-th sentence the identifier [s-i]. *)
Theorem fetch_assigns_ids (lessonName rnd : string) (m : Obj) (l : list JSON) :
  m !! "sentences" = Some (JArr l) ->
  (exists lesson,
     fetchLessonContent lessonName rnd (inr (JObj m)) = Some lesson /\
     category lesson = "custom" /\
     length (sentences lesson) = length l /\
     forall i s, l !! i = Some s ->
       exists o, sentences lesson !! i = Some o /\
         o !! "id" = Some (JStr ("s-" +:+ pretty (Z.of_nat i))) /\
         forall f, s = JObj f ->
           forall k : string, k <> "id" -> o !! k = f !! k) /\
  (forall data lesson,
     fetchLessonContent lessonName rnd data = Some lesson ->
     category lesson = "custom" /\
     forall i o, sentences lesson !! i = Some o ->
       o !! "id" = Some (JStr ("s-" +:+ pretty (Z.of_nat i)))).
Proof.
  intros Hs. split.
  - unfold fetchLessonContent. simpl. rewrite Hs. simpl.
    eexists. split; [reflexivity|]. simpl.
    split; [done|]. split; [apply length_imap|].
    intros i s Hi. exists (with_id i s).
    split; [by rewrite list_lookup_imap, Hi|].
    split; [apply with_id_lookup|].
    intros f -> k Hk. by apply with_id_lookup.
  - intros data lesson. unfold fetchLessonContent.
    destruct data as [e|d]; [done|].
    destruct (get_prop d "title") as [e|t]; [done|].
    destruct (get_prop d "sentences") as [e|ss]; [done|].
    destruct (map_sentences ss) as [e|sents] eqn:Hm; [done|].
    intros [= <-]. simpl. split; [done|].
    apply map_sentences_spec in Hm as (l' & -> & _).
    intros i o. rewrite list_lookup_imap.
    destruct (l' !! i) as [s|]; [|done].
    intros [= <-]. apply with_id_lookup.
Qed.

(** The theorem at a two-sentence payload that carries its own category and
    its own sentence identifier: the lesson is ['custom'], and the second
    sentence is [s-1] and keeps its text. *)
Lemma fetch_assigns_ids_witness :
  exists lesson,
    fetchLessonContent "静夜思" "k3x9" (inr (JObj (
      <["category" := JStr "middle"]> (<["sentences" := JArr [
         JObj (<["original" := JStr "a"]> ∅);
         JObj (<["id" := JStr "x"]> (<["original" := JStr "b"]> ∅))]]> ∅))))
      = Some lesson /\
    category lesson = "custom" /\
    (sentences lesson !! 1%nat ≫= (.!! "id")) = Some (JStr "s-1") /\
    (sentences lesson !! 1%nat ≫= (.!! "original")) = Some (JStr "b").
Proof.
  pose (sents := [JObj (<["original" := JStr "a"]> ∅);
                  JObj (<["id" := JStr "x"]> (<["original" := JStr "b"]> ∅))]).
  pose (payload := (<["category" := JStr "middle"]>
                      (<["sentences" := JArr sents]> ∅) : Obj)).
  assert (Hs : payload !! "sentences" = Some (JArr sents))
    by (vm_compute; reflexivity).
  destruct (fetch_assigns_ids "静夜思" "k3x9" payload sents Hs)
    as [(lesson & Hf & Hc & _ & Hids) _].
  exists lesson. split; [exact Hf|]. split; [exact Hc|].
  destruct (Hids 1%nat _ eq_refl) as (o & Ho & Hid & Hother).
  rewrite Ho. simpl. split; [exact Hid|].
  rewrite (Hother _ eq_refl "original") by discriminate.
  vm_compute. reflexivity.
Defined.
End AppFacts.

(* ===================================================================== *)
(** * Properties of the audio device *)
(* ===================================================================== *)

Module WebAudioFacts.

Import WebAudio.

Section Device.

Context {H : Type}.

Implicit Types d : Device H.

(** Updating the element just appended. *)
Lemma alter_snoc {A} (f : A -> A) (l : list A) (x : A) :
  alter f (length l) (l ++ [x]) = l ++ [f x].
Proof.
  replace (length l) with (length l + 0)%nat at 1 by lia.
  by rewrite alter_app_r.
Qed.

Lemma issue_nodes_length op f n d :
  length (nodes (issue op f n d)) = length (nodes d).
Proof. unfold issue. simpl. apply length_alter. Qed.

Lemma issue_lookup_ne op f n m d :
  n <> m -> nodes (issue op f n d) !! m = nodes d !! m.
Proof. intros Hne. unfold issue. simpl. by apply list_lookup_alter_ne. Qed.

Lemma issue_lookup_eq op f n d :
  nodes (issue op f n d) !! n = f <$> nodes d !! n.
Proof. unfold issue. simpl. apply list_lookup_alter_eq. Qed.

Lemma stop_inv n d d' :
  stop n d = inr d' ->
  exists s, nodes d !! n = Some s /\ playback s <> Unstarted /\
    log d' = log d ++ [Stop n] /\
    nodes d' = alter (fun s => {| buffer := buffer s; onended := onended s;
                                 playback := match playback s with
                                             | Sounding => Halted
                                             | p => p
                                             end;
                                 connected := connected s |}) n (nodes d).
Proof.
  unfold stop. destruct (nodes d !! n) as [s|] eqn:Hs; [|done].
  destruct (playback s) eqn:Hp; [done|..]; intros [= <-];
    exists s; rewrite Hp; repeat split; done.
Qed.

End Device.

(** ** Order of the device operations *)

Lemma last_op_snoc prev l op : last_op prev (l ++ [op]) = Some op.
Proof. unfold last_op. by rewrite last_snoc. Qed.

Lemma stops_detached_snoc prev l op :
  stops_detached prev (l ++ [op]) =
  stops_detached prev l && permitted (last_op prev l) op.
Proof.
  revert prev. induction l as [|a l IH]; intros prev.
  - simpl. unfold last_op. simpl. by rewrite andb_true_r.
  - cbn [app stops_detached]. rewrite IH.
    replace (last_op prev (a :: l)) with (last_op (Some a) l).
    + by rewrite andb_assoc.
    + unfold last_op. rewrite last_cons. by destruct (last l).
Qed.

(** The log stays well ordered when something other than [Stop] is issued. *)
Lemma ordered_snoc l op :
  stops_detached None l = true -> (forall n, op <> Stop n) ->
  stops_detached None (l ++ [op]) = true.
Proof.
  intros Hl Hop. rewrite stops_detached_snoc, Hl. simpl.
  destruct op; try done. by destruct (Hop n).
Qed.

(** ... and when a node is detached and then stopped. *)
Lemma ordered_detach_stop l r :
  stops_detached None l = true ->
  stops_detached None ((l ++ [Detach r]) ++ [Stop r]) = true.
Proof.
  intros Hl. rewrite stops_detached_snoc, last_op_snoc.
  rewrite ordered_snoc by done. simpl. by apply bool_decide_eq_true_2.
Qed.

Section Halted.

Context {H : Type}.

Implicit Types d : Device H.

(** An update that neither halts a node nor attaches a handler keeps halted
    nodes detached. *)
Lemma detached_when_halted_alter (f : SourceNode H -> SourceNode H) n ns lg lg' :
  (forall s, playback (f s) = Halted ->
             onended (f s) = None \/ (playback s = Halted /\ onended (f s) = onended s)) ->
  detached_when_halted {| nodes := ns; log := lg |} ->
  detached_when_halted {| nodes := alter f n ns; log := lg' |}.
Proof.
  intros Hf Hd m s. cbn [nodes]. rewrite list_lookup_alter.
  case_decide as Hm.
  - subst m. destruct (ns !! n) as [s0|] eqn:Hs0; [|done].
    simpl. intros [= <-] Hp.
    destruct (Hf s0 Hp) as [?|[Hp0 ->]]; [done|]. by apply (Hd n s0).
  - intros Hs Hp. by apply (Hd m s).
Qed.

Lemma detached_when_halted_log d lg :
  detached_when_halted d ->
  detached_when_halted {| nodes := nodes d; log := lg |}.
Proof. intros Hd n s. apply Hd. Qed.

Lemma detached_when_halted_snoc d s0 lg :
  playback s0 <> Halted ->
  detached_when_halted d ->
  detached_when_halted {| nodes := nodes d ++ [s0]; log := lg |}.
Proof.
  intros Hs0 Hd n s. cbn [nodes]. rewrite lookup_snoc_Some.
  intros [[_ Hs]|[_ <-]] Hp; [by apply (Hd n s) | done].
Qed.

End Halted.

Section WellStopped.

Context {H : Type}.

Implicit Types d : Device H.

Lemma well_stopped_issue op f n d :
  (forall m, op <> Stop m) ->
  (forall s, playback (f s) = Halted ->
             onended (f s) = None \/ (playback s = Halted /\ onended (f s) = onended s)) ->
  well_stopped d -> well_stopped (issue op f n d).
Proof.
  intros Hop Hf [Hl Hd]. unfold issue. split; cbn [log].
  - by apply ordered_snoc.
  - destruct d as [ns lg]. by eapply detached_when_halted_alter.
Qed.

Lemma well_stopped_connect n d : well_stopped d -> well_stopped (connect n d).
Proof. apply well_stopped_issue; [done|]. intros s Hp. right. by split. Qed.

Lemma well_stopped_detach n d : well_stopped d -> well_stopped (detach n d).
Proof. apply well_stopped_issue; [done|]. intros s Hp. by left. Qed.

Lemma well_stopped_disconnect n d :
  well_stopped d -> well_stopped (disconnect n d).
Proof. apply well_stopped_issue; [done|]. intros s Hp. right. by split. Qed.

Lemma well_stopped_start n d : well_stopped d -> well_stopped (start n d).
Proof.
  apply well_stopped_issue; [done|]. intros s Hp. right. simpl in *.
  by destruct (playback s).
Qed.

(** Stopping right after the detach of the same node. *)
Lemma well_stopped_stop r d d' :
  well_stopped d -> stop r (detach r d) = inr d' -> well_stopped d'.
Proof.
  intros [Hl Hd] Hstop.
  apply stop_inv in Hstop as (s & Hs & Hp & Hlog & Hnodes).
  split.
  - rewrite Hlog. unfold detach, issue. cbn [log]. by apply ordered_detach_stop.
  - intros m x. rewrite Hnodes. unfold detach, issue. cbn [nodes].
    rewrite !list_lookup_alter. case_decide as Hm.
    + subst m. rewrite decide_True by done.
      destruct (nodes d !! r) as [y|]; simpl.
      * by intros [= <-] _.
      * done.
    + intros Hx Hh. by apply (Hd m x).
Qed.

Lemma well_stopped_dispatch n d h d' :
  well_stopped d -> dispatch_ended n d = Some (h, d') -> well_stopped d'.
Proof.
  intros [Hl Hd]. unfold dispatch_ended.
  destruct (nodes d !! n) as [s|]; [|done].
  destruct (playback s); try done; intros [= _ <-]; (split; [done|]);
    destruct d as [ns lg];
    (eapply detached_when_halted_alter; [|done]); intros x Hp; by simpl in Hp.
Qed.

(** A node appended live, with something other than [Stop] logged. *)
Lemma well_stopped_extend d d' s0 op :
  nodes d' = nodes d ++ [s0] -> log d' = log d ++ [op] ->
  playback s0 <> Halted -> (forall m, op <> Stop m) ->
  well_stopped d -> well_stopped d'.
Proof.
  intros Hn Hlg Hs0 Hop [Hl Hd]. split.
  - rewrite Hlg. by apply ordered_snoc.
  - destruct d' as [ns' lg']. cbn [nodes log] in *. subst ns'.
    by apply detached_when_halted_snoc.
Qed.

End WellStopped.

End WebAudioFacts.

(* ===================================================================== *)
(** * Properties of the narration engine *)
(* ===================================================================== *)

Module EngineFacts.

Import WebAudio Engine.

(** Reduce the state setters and projections, leaving device operations
    folded. *)
Ltac fsimpl :=
  cbn [currentIndex isPlaying isLooping loadingAudio activeSpeechId
       loadingSpeechId statusMsg currentSourceRef isComponentMounted device
       pending setCurrentIndex setIsPlaying setIsLooping setLoadingAudio
       setActiveSpeechId setLoadingSpeechId setStatusMsg set_ref on_device
       set_pending suspend settle] in *.

(** Bring the conjuncts of a frame lemma into the context. *)
Ltac frame H :=
  let F := fresh "F" in
  pose proof H as F; cbv zeta in F; decompose [and] F; clear F.

Section Player.

Variable sentences : list Sentence.

Abbreviation step := (step sentences).
Abbreviation run := (run sentences).
Abbreviation effect := (effect sentences).
Abbreviation handle := (handle sentences).
Abbreviation len := (len sentences).

(** ** What [stopAllAudio] touches *)

Lemma stopAllAudio_frame s :
  let s' := stopAllAudio s in
  currentIndex s' = currentIndex s /\ isPlaying s' = isPlaying s /\
  isLooping s' = isLooping s /\ loadingAudio s' = loadingAudio s /\
  loadingSpeechId s' = loadingSpeechId s /\ statusMsg s' = statusMsg s /\
  isComponentMounted s' = isComponentMounted s /\ pending s' = pending s /\
  activeSpeechId s' = None /\ currentSourceRef s' = None /\
  length (nodes (device s')) = length (nodes (device s)).
Proof.
  unfold stopAllAudio. destruct (currentSourceRef s) as [r|] eqn:Hr; fsimpl.
  - destruct (stop r (detach r (device s))) as [e|d] eqn:Hstop; fsimpl.
    + repeat split. apply WebAudioFacts.issue_nodes_length.
    + repeat split. unfold disconnect. rewrite WebAudioFacts.issue_nodes_length.
      apply WebAudioFacts.stop_inv in Hstop as (x & _ & _ & _ & ->).
      rewrite length_alter. apply WebAudioFacts.issue_nodes_length.
  - repeat split; done.
Qed.

(** With no current source and no active point read there is nothing to stop. *)
Lemma stopAllAudio_idle s :
  currentSourceRef s = None -> activeSpeechId s = None -> stopAllAudio s = s.
Proof.
  intros Hr Ha. unfold stopAllAudio. rewrite Hr.
  destruct s. simpl in *. by subst.
Qed.

(** The source that was current is detached and silent afterwards; every other
    node is untouched. *)
Lemma stopAllAudio_current s r node :
  currentSourceRef s = Some r -> nodes (device s) !! r = Some node ->
  exists node', nodes (device (stopAllAudio s)) !! r = Some node' /\
    onended node' = None /\ playback node' <> Sounding /\
    (playback node = Sounding -> playback node' = Halted).
Proof.
  intros Hr Hn. unfold stopAllAudio. rewrite Hr. fsimpl.
  destruct (stop r (detach r (device s))) as [e|d] eqn:Hstop; fsimpl.
  - unfold stop, detach in Hstop.
    rewrite WebAudioFacts.issue_lookup_eq, Hn in Hstop. simpl in Hstop.
    unfold detach. rewrite WebAudioFacts.issue_lookup_eq, Hn. simpl.
    eexists. split; [done|]. simpl. destruct (playback node); done.
  - apply WebAudioFacts.stop_inv in Hstop as (x & Hx & Hp & _ & Hd).
    unfold disconnect. rewrite WebAudioFacts.issue_lookup_eq, Hd.
    rewrite list_lookup_alter_eq, Hx. simpl.
    unfold detach in Hx. rewrite WebAudioFacts.issue_lookup_eq, Hn in Hx.
    simpl in Hx. injection Hx as <-. simpl in *.
    eexists. split; [done|]. simpl. destruct (playback node); done.
Qed.

Lemma stopAllAudio_other s m :
  currentSourceRef s <> Some m ->
  nodes (device (stopAllAudio s)) !! m = nodes (device s) !! m.
Proof.
  intros Hr. unfold stopAllAudio.
  destruct (currentSourceRef s) as [r|]; fsimpl; [|done].
  assert (r <> m) by congruence.
  destruct (stop r (detach r (device s))) as [e|d] eqn:Hstop; fsimpl.
  - by apply WebAudioFacts.issue_lookup_ne.
  - apply WebAudioFacts.stop_inv in Hstop as (x & _ & _ & _ & Hd).
    unfold disconnect.
    rewrite WebAudioFacts.issue_lookup_ne, Hd, list_lookup_alter_ne by done.
    by apply WebAudioFacts.issue_lookup_ne.
Qed.

(** ** What the effect touches *)

Lemma playNextSentence_frame c index s :
  let s' := playNextSentence sentences c index s in
  currentIndex s' = currentIndex s /\ isPlaying s' = isPlaying s /\
  isLooping s' = isLooping s /\ activeSpeechId s' = activeSpeechId s /\
  loadingSpeechId s' = loadingSpeechId s /\
  isComponentMounted s' = isComponentMounted s /\
  currentSourceRef s' = currentSourceRef s /\ device s' = device s.
Proof.
  unfold playNextSentence.
  destruct (negb (c_isPlaying c) || negb (isComponentMounted s)); [done|].
  destruct (sentence_at sentences index); done.
Qed.

Lemma effect_frame s :
  currentIndex (effect s) = currentIndex s /\
  isPlaying (effect s) = isPlaying s /\
  isLooping (effect s) = isLooping s /\
  isComponentMounted (effect s) = isComponentMounted s /\
  loadingSpeechId (effect s) = loadingSpeechId s.
Proof.
  unfold Engine.effect. destruct (isPlaying s) eqn:Hp.
  - pose proof (playNextSentence_frame
      {| c_isPlaying := true; c_isLooping := isLooping s |} (currentIndex s) s) as H.
    cbv zeta in H. rewrite Hp in H. tauto.
  - destruct (negb (truthy_id (activeSpeechId s))).
    + pose proof (stopAllAudio_frame s) as H. cbv zeta in H. rewrite Hp in H. tauto.
    + done.
Qed.

Lemma commit_frame before after :
  currentIndex (commit sentences before after) = currentIndex after /\
  isPlaying (commit sentences before after) = isPlaying after /\
  isLooping (commit sentences before after) = isLooping after /\
  isComponentMounted (commit sentences before after) = isComponentMounted after /\
  loadingSpeechId (commit sentences before after) = loadingSpeechId after.
Proof.
  unfold commit. case_decide; [done|]. apply effect_frame.
Qed.

(** While narration is off and no point read is active, the effect only
    stops the current source. *)
Lemma effect_stopped s :
  isPlaying s = false -> truthy_id (activeSpeechId s) = false ->
  effect s = stopAllAudio s.
Proof. intros Hp Ha. unfold Engine.effect. by rewrite Hp, Ha. Qed.

(** While a point read is active and narration is off, the effect does
    nothing. *)
Lemma effect_point_read s :
  isPlaying s = false -> truthy_id (activeSpeechId s) = true -> effect s = s.
Proof. intros Hp Ha. unfold Engine.effect. by rewrite Hp, Ha. Qed.

(** With narration off the effect leaves the status text alone. *)
Lemma effect_stopped_status s :
  isPlaying s = false -> statusMsg (effect s) = statusMsg s.
Proof.
  intros Hp. unfold Engine.effect. rewrite Hp.
  destruct (negb (truthy_id (activeSpeechId s))); [|done].
  frame (stopAllAudio_frame s). done.
Qed.

(** One run of the effect is enough: it leaves its own dependencies alone, or
    running it again changes nothing. *)
Lemma effect_settles s :
  deps (effect s) = deps s \/ effect (effect s) = effect s.
Proof.
  unfold Engine.effect at 1 3 4. destruct (isPlaying s) eqn:Hp.
  - left. unfold deps.
    pose proof (playNextSentence_frame
      {| c_isPlaying := true; c_isLooping := isLooping s |} (currentIndex s) s) as F.
    cbv zeta in F. destruct F as (F1 & F2 & F3 & F4 & _).
    by rewrite F1, F2, F3, F4.
  - destruct (negb (truthy_id (activeSpeechId s))); [|by left].
    right. pose proof (stopAllAudio_frame s) as F. cbv zeta in F.
    destruct F as (_ & F2 & _ & _ & _ & _ & _ & _ & F9 & F10 & _).
    rewrite effect_stopped by (by rewrite ?F2, ?F9).
    by apply stopAllAudio_idle.
Qed.

Lemma commit_idle before after :
  isPlaying after = false -> currentSourceRef after = None ->
  activeSpeechId after = None -> commit sentences before after = after.
Proof.
  intros Hp Hr Ha. unfold commit. case_decide; [done|].
  rewrite effect_stopped by (by rewrite ?Ha). by apply stopAllAudio_idle.
Qed.

Lemma commit_point_read before after :
  isPlaying after = false -> truthy_id (activeSpeechId after) = true ->
  commit sentences before after = after.
Proof.
  intros Hp Ha. unfold commit. case_decide; [done|]. by apply effect_point_read.
Qed.

Lemma commit_same before after :
  deps before = deps after -> commit sentences before after = after.
Proof. intros H. unfold commit. by rewrite decide_True. Qed.

Lemma commit_activeSpeechId_None before after :
  activeSpeechId after = None ->
  activeSpeechId (commit sentences before after) = None.
Proof.
  intros Ha. unfold commit. case_decide; [done|]. unfold Engine.effect.
  destruct (isPlaying after).
  - by rewrite (proj1 (proj2 (proj2 (proj2 (playNextSentence_frame _ _ after))))).
  - rewrite Ha. done.
Qed.

(** ** Point reading *)

Lemma speakSentence_frame text id s :
  let s' := speakSentence text id s in
  isPlaying s' = false /\ currentIndex s' = currentIndex s /\
  isLooping s' = isLooping s /\ activeSpeechId s' = None /\
  currentSourceRef s' = None /\ loadingSpeechId s' = Some id /\
  statusMsg s' = Some msg_warming_up /\
  isComponentMounted s' = isComponentMounted s /\
  pending s' = pending s ++ [SpeakAwait text id] /\
  device s' = device (stopAllAudio s).
Proof.
  unfold speakSentence. fsimpl.
  pose proof (stopAllAudio_frame s) as H. cbv zeta in H.
  destruct H as (H1 & H2 & H3 & H4 & H5 & H6 & H7 & H8 & H9 & H10 & H11).
  rewrite H8. repeat split; done.
Qed.

(** A click on a point-read button runs [speakSentence] up to its request;
    the effect that follows finds nothing left to stop. *)
Lemma step_speak s text id :
  step s (SpeakClick text id) = speakSentence text id s.
Proof.
  unfold Engine.step. cbn [Engine.handle].
  pose proof (speakSentence_frame text id s) as H. cbv zeta in H.
  apply commit_idle; apply H.
Qed.

Lemma new_source_lookup buf h s :
  let '(n, s') := new_source buf h s in
  n = length (nodes (device s)) /\
  nodes (device s') =
    nodes (device s) ++ [{| buffer := buf; onended := Some h;
                            playback := Unstarted; connected := true |}] /\
  log (device s') = log (device s) ++ [Connect n] /\
  currentIndex s' = currentIndex s /\ isPlaying s' = isPlaying s /\
  isLooping s' = isLooping s /\ activeSpeechId s' = activeSpeechId s /\
  currentSourceRef s' = currentSourceRef s /\ pending s' = pending s /\
  isComponentMounted s' = isComponentMounted s /\
  statusMsg s' = statusMsg s /\ loadingSpeechId s' = loadingSpeechId s /\
  loadingAudio s' = loadingAudio s.
Proof.
  unfold new_source, createBufferSource. fsimpl.
  split; [done|]. split; [|done].
  unfold set_onended, connect, issue. cbn [nodes log].
  by rewrite !WebAudioFacts.alter_snoc.
Qed.

Lemma start_fresh (ns : list (SourceNode Handler)) node lg :
  playback node = Unstarted ->
  nodes (start (length ns) {| nodes := ns ++ [node]; log := lg |}) =
  ns ++ [{| buffer := buffer node; onended := onended node;
            playback := Sounding; connected := connected node |}].
Proof.
  intros Hp. unfold start, issue. cbn [nodes].
  rewrite WebAudioFacts.alter_snoc. simpl. by rewrite Hp.
Qed.

(** Speech for a point read arrives: a new source sounds and is the current
    one. *)
Lemma speak_settled_ok s k text id audio :
  isComponentMounted s = true -> isPlaying s = false ->
  pending s !! k = Some (SpeakAwait text id) ->
  (2 <= length audio)%nat -> id <> EmptyString ->
  let src := length (nodes (device s)) in
  let s' := step s (SpeechSettled k (Some audio)) in
  activeSpeechId s' = Some id /\ isPlaying s' = false /\
  currentIndex s' = currentIndex s /\ isLooping s' = isLooping s /\
  currentSourceRef s' = Some src /\ isComponentMounted s' = true /\
  statusMsg s' = None /\ loadingSpeechId s' = None /\
  (exists buf, nodes (device s') =
     nodes (device s) ++ [{| buffer := buf; onended := Some ClearActiveSpeech;
                             playback := Sounding; connected := true |}]).
Proof.
  intros Hm Hp Hk Hlen Hid src s'. subst s'.
  destruct (PCMFacts.decodeAudioData_fresh audio Hlen) as (buf & Hd & _).
  assert (Ht : truthy_id (Some id) = true).
  { simpl. destruct (String.eqb_spec id EmptyString); done. }
  unfold Engine.step. cbn [Engine.handle]. rewrite Hk.
  unfold speakSentence_resume. fsimpl. rewrite Hm, Hd. cbn [negb].
  pose proof (new_source_lookup buf ClearActiveSpeech
                (setLoadingSpeechId None (settle k s))) as Hn.
  destruct (new_source buf ClearActiveSpeech (setLoadingSpeechId None (settle k s)))
    as [source t].
  fsimpl.
  destruct Hn as (-> & Hnodes & Hlog & H1 & H2 & H3 & H4 & H5 & H6 & H7 & H8 & H9 & H10).
  rewrite commit_point_read by (fsimpl; congruence).
  fsimpl. repeat split; try congruence.
  exists buf. destruct (device t) as [tn tl]. cbn [nodes] in *. subst tn.
  by rewrite start_fresh.
Qed.

(** The source of a point read plays to its end: the active point read is
    cleared and nothing else of the narration state moves. *)
Lemma point_read_ended s src node :
  isPlaying s = false ->
  nodes (device s) !! src = Some node -> playback node = Sounding ->
  onended node = Some ClearActiveSpeech ->
  let s' := step s (SourceEnded src) in
  activeSpeechId s' = None /\ isPlaying s' = false /\
  currentIndex s' = currentIndex s /\ isLooping s' = isLooping s /\
  pending s' = pending s.
Proof.
  intros Hp Hn Hs Hh s'. subst s'.
  unfold Engine.step. cbn [Engine.handle]. unfold dispatch_ended.
  rewrite Hn, Hs, Hh. cbn [run_handler].
  match goal with |- context [commit _ s ?a] => set (after := a) end.
  pose proof (commit_frame s after) as (H1 & H2 & H3 & _).
  rewrite H1, H2, H3. repeat split; try done.
  - by apply commit_activeSpeechId_None.
  - unfold commit. case_decide; [done|].
    rewrite effect_stopped by done. frame (stopAllAudio_frame after).
    by transitivity (pending after).
Qed.

(** At the click of a point read and on the sources it meets: a point read
    turns narration off and keeps the position; the source that was playing, narration or another point read, is halted with its
    observer detached and no point read stays active; when its speech arrives
    the new source is the active point read, and when that source completes
    the active point read is cleared while narration stays off; when speech
    generation fails nothing is active, an error status is shown and the
    position is unchanged. *)
Theorem point_read (s : State) (text id : string) (audio : list byte) :
  isComponentMounted s = true -> (2 <= length audio)%nat -> id <> EmptyString ->
  let s1 := step s (SpeakClick text id) in
  let k := length (pending s) in
  let src := length (nodes (device s)) in
  let s2 := step s1 (SpeechSettled k (Some audio)) in
  let s3 := step s2 (SourceEnded src) in
  let failed := step s1 (SpeechSettled k None) in
  (isPlaying s1 = false /\ currentIndex s1 = currentIndex s /\
   activeSpeechId s1 = None /\ currentSourceRef s1 = None /\
   forall r node, currentSourceRef s = Some r ->
     nodes (device s) !! r = Some node ->
     exists node', nodes (device s1) !! r = Some node' /\
       onended node' = None /\ playback node' <> Sounding) /\
  (activeSpeechId s2 = Some id /\ isPlaying s2 = false /\
   currentIndex s2 = currentIndex s /\ currentSourceRef s2 = Some src /\
   exists node, nodes (device s2) !! src = Some node /\
     playback node = Sounding) /\
  (activeSpeechId s3 = None /\ isPlaying s3 = false /\
   currentIndex s3 = currentIndex s) /\
  (activeSpeechId failed = None /\ loadingSpeechId failed = None /\
   statusMsg failed = Some msg_voice_absent /\
   currentIndex failed = currentIndex s /\ isPlaying failed = false /\
   device failed = device s1).
Proof.
  intros Hm Hlen Hid s1 k src s2 s3 failed.
  subst s3 failed s2 s1. rewrite step_speak.
  pose proof (speakSentence_frame text id s) as F. cbv zeta in F.
  destruct F as (F1 & F2 & F3 & F4 & F5 & F6 & F7 & F8 & F9 & F10).
  assert (Hk : pending (speakSentence text id s) !! k = Some (SpeakAwait text id)).
  { rewrite F9. by apply list_lookup_middle. }
  assert (Hsrc : length (nodes (device (speakSentence text id s))) = src).
  { rewrite F10. apply stopAllAudio_frame. }
  split.
  { repeat split; try done. intros r node Hr Hn. rewrite F10.
    destruct (stopAllAudio_current s r node Hr Hn) as (node' & ? & ? & ? & _).
    by exists node'. }
  pose proof (speak_settled_ok (speakSentence text id s) k text id audio
                ltac:(congruence) F1 Hk Hlen Hid) as S.
  cbv zeta in S. rewrite Hsrc in S.
  destruct S as (S1 & S2 & S3 & S4 & S5 & S6 & S7 & S8 & buf & S9).
  assert (Hnode : nodes (device (step (speakSentence text id s)
                     (SpeechSettled k (Some audio)))) !! src
                  = Some {| buffer := buf; onended := Some ClearActiveSpeech;
                            playback := Sounding; connected := true |}).
  { rewrite S9. by apply list_lookup_middle. }
  split.
  { repeat split; try congruence. eexists. split; [exact Hnode|done]. }
  split.
  { pose proof (point_read_ended _ src _ S2 Hnode eq_refl eq_refl) as E.
    cbv zeta in E. destruct E as (E1 & E2 & E3 & _).
    repeat split; congruence. }
  unfold Engine.step at 1 2 3 4 5 6. cbn [Engine.handle]. rewrite Hk.
  unfold speakSentence_resume. fsimpl. rewrite F8, Hm. cbn [negb].
  rewrite commit_same by (unfold deps; fsimpl; done).
  fsimpl. repeat split; done.
Qed.

(** ** Auto narration *)

(** Speech for auto narration arrives while no point read is active: the
    previous source is stopped and a new one sounds as the current source. *)
Lemma auto_settled_ok s j c k text audio :
  isComponentMounted s = true -> c_isPlaying c = true ->
  activeSpeechId s = None ->
  (forall r, currentSourceRef s = Some r -> (r < length (nodes (device s)))%nat) ->
  pending s !! j = Some (AutoAwait c k text) ->
  (2 <= length audio)%nat ->
  let src := length (nodes (device s)) in
  let s' := step s (SpeechSettled j (Some audio)) in
  currentIndex s' = currentIndex s /\ isPlaying s' = isPlaying s /\
  isLooping s' = isLooping s /\ isComponentMounted s' = true /\
  activeSpeechId s' = None /\ currentSourceRef s' = Some src /\
  pending s' = <[j := Settled]> (pending s) /\
  (exists buf, nodes (device s') !! src =
     Some {| buffer := buf; onended := Some (AutoAdvance c k);
             playback := Sounding; connected := true |}).
Proof.
  intros Hm Hc Ha Hr Hj Hlen src s'. subst s'.
  destruct (PCMFacts.decodeAudioData_fresh audio Hlen) as (buf & Hd & _).
  unfold Engine.step. cbn [Engine.handle]. rewrite Hj.
  unfold playNextSentence_resume. fsimpl. rewrite Hm, Hc, Hd. cbn [negb orb].
  pose proof (new_source_lookup buf (AutoAdvance c k)
                (setLoadingAudio false (settle j s))) as Hn.
  destruct (new_source buf (AutoAdvance c k) (setLoadingAudio false (settle j s)))
    as [source t].
  fsimpl.
  destruct Hn as (-> & Hnodes & Hlog & H1 & H2 & H3 & H4 & H5 & H6 & H7 & H8 & H9 & H10).
  frame (stopAllAudio_frame t).
  rewrite commit_same by (unfold deps; fsimpl; congruence).
  fsimpl. repeat split; try congruence.
  exists buf. unfold start. rewrite WebAudioFacts.issue_lookup_eq.
  rewrite stopAllAudio_other.
  - rewrite Hnodes. rewrite list_lookup_middle by done. simpl. done.
  - rewrite H5. intros Heq. apply Hr in Heq. lia.
Qed.

(** The source of auto narration plays to its end. *)
Lemma auto_ended s n node c k :
  isComponentMounted s = true ->
  nodes (device s) !! n = Some node -> playback node = Sounding ->
  onended node = Some (AutoAdvance c k) ->
  let s' := step s (SourceEnded n) in
  (c_isLooping c = true ->
     currentIndex s' = currentIndex s /\ isPlaying s' = isPlaying s /\
     isLooping s' = isLooping s /\ activeSpeechId s' = activeSpeechId s /\
     currentSourceRef s' = currentSourceRef s /\ isComponentMounted s' = true /\
     length (nodes (device s')) = length (nodes (device s)) /\
     (c_isPlaying c = true -> forall sentence,
        sentence_at sentences k = Some sentence ->
        pending s' = pending s ++
          [AutoAwait c k (original sentence +:+ "。意思是：" +:+ translation sentence)])) /\
  (c_isLooping c = false -> k + 1 < len ->
     currentIndex s' = k + 1 /\ isPlaying s' = isPlaying s) /\
  (c_isLooping c = false -> len <= k + 1 ->
     isPlaying s' = false /\ statusMsg s' = Some msg_finished /\
     currentIndex s' = currentIndex s).
Proof.
  intros Hm Hn Hs Hh s'. subst s'.
  unfold Engine.step. cbn [Engine.handle]. unfold dispatch_ended.
  rewrite Hn, Hs, Hh. cbn [run_handler]. fsimpl. rewrite Hm. cbn [negb].
  match goal with |- context [on_device ?f s] => set (s0 := on_device f s) end.
  assert (Hlen0 : length (nodes (device s0)) = length (nodes (device s))).
  { subst s0. fsimpl. cbn [nodes]. apply length_alter. }
  split; [|split].
  - intros Hl. rewrite Hl.
    frame (playNextSentence_frame c k s0).
    rewrite commit_same by (unfold deps; subst s0; fsimpl; congruence).
    repeat split; try (subst s0; fsimpl; congruence).
    intros Hc sentence Hsent. unfold playNextSentence. rewrite Hc.
    subst s0. fsimpl. rewrite Hm, Hsent. done.
  - intros Hl Hk. rewrite Hl.
    destruct (Z.ltb_spec (k + 1) len) as [_|?]; [|lia].
    match goal with |- context [commit _ s ?a] => set (after := a) end.
    pose proof (commit_frame s after) as (H1 & H2 & _). by rewrite H1, H2.
  - intros Hl Hk. rewrite Hl.
    destruct (Z.ltb_spec (k + 1) len) as [?|_]; [lia|].
    match goal with |- context [commit _ s ?a] => set (after := a) end.
    pose proof (commit_frame s after) as (H1 & H2 & _). rewrite H1, H2.
    repeat split; try done.
    unfold commit. case_decide; [done|].
    rewrite effect_stopped_status by done. done.
Qed.

(** A round of looping leaves the engine looping on the same unit. *)
Lemma replay_round_keeps k s audio :
  looping_on sentences k s -> (2 <= length audio)%nat ->
  looping_on sentences k (replay_round sentences s audio).
Proof.
  intros (Hm & Hk & Ha & [sentence Hsent] & n & node & c & Hr & Hn & Hs & Hh & Hl & Hc)
         Hlen.
  unfold replay_round. rewrite Hr.
  destruct (auto_ended s n node c k Hm Hn Hs Hh) as (E & _).
  destruct (E Hl) as (E1 & E2 & E3 & E4 & E5 & E6 & E7 & E8).
  specialize (E8 Hc sentence Hsent).
  set (s1 := step s (SourceEnded n)) in *.
  edestruct (auto_settled_ok s1 (length (pending s)) c k
               (original sentence +:+ "。意思是：" +:+ translation sentence) audio)
    as (S1 & S2 & S3 & S4 & S5 & S6 & S7 & buf & S8); try done.
  - congruence.
  - intros r Hr1. rewrite E5, Hr in Hr1. injection Hr1 as <-.
    rewrite E7. by eapply lookup_lt_Some.
  - rewrite E8. by apply list_lookup_middle.
  - repeat split; try congruence; [by exists sentence|].
    eexists _, _, c. repeat split; try done.
Qed.

Lemma replay_rounds_keep k audio : forall s,
  looping_on sentences k s -> Forall (fun a => 2 <= length a)%nat audio ->
  looping_on sentences k (replay_rounds sentences s audio).
Proof.
  induction audio as [|a audio IH]; intros s Hs Hall; [done|].
  apply Forall_cons in Hall as [Ha Hall]. simpl.
  apply IH; [|done]. by apply replay_round_keeps.
Qed.

(** The completion handler in terms of the flags its callback captured:
    when the source that narrates unit [k] completes, a callback in loop
    mode requests the same unit again and leaves the position alone, and
    however many times the replayed unit completes the position is still
    [k]; otherwise the position advances to [k + 1] when that is a unit of
    the lesson, and else narration is switched off and the lesson marked as
    read to the end. *)
Theorem completion_auto_narration (s : State) (n : nat)
  (node : SourceNode Handler) (c : Closure) (k : Z) :
  isComponentMounted s = true ->
  nodes (device s) !! n = Some node -> playback node = Sounding ->
  onended node = Some (AutoAdvance c k) -> c_isPlaying c = true ->
  let s' := step s (SourceEnded n) in
  (c_isLooping c = true ->
     currentIndex s' = currentIndex s /\
     (forall sentence, sentence_at sentences k = Some sentence ->
        pending s' = pending s ++
          [AutoAwait c k (original sentence +:+ "。意思是：" +:+ translation sentence)]) /\
     (forall audio,
        currentIndex s = k -> currentSourceRef s = Some n ->
        activeSpeechId s = None -> is_Some (sentence_at sentences k) ->
        Forall (fun a => 2 <= length a)%nat audio ->
        currentIndex (replay_rounds sentences s audio) = k /\
        looping_on sentences k (replay_rounds sentences s audio))) /\
  (c_isLooping c = false -> k + 1 < len -> currentIndex s' = k + 1) /\
  (c_isLooping c = false -> len <= k + 1 ->
     isPlaying s' = false /\ statusMsg s' = Some msg_finished).
Proof.
  intros Hm Hn Hs Hh Hc s'.
  destruct (auto_ended s n node c k Hm Hn Hs Hh) as (A & B & C).
  split; [|split].
  - intros Hl. destruct (A Hl) as (A1 & _ & _ & _ & _ & _ & _ & A8).
    split; [done|]. split; [by apply A8|].
    intros audio Hk Hr Ha Hsent Hall.
    assert (L : looping_on sentences k (replay_rounds sentences s audio)).
    { apply replay_rounds_keep; [|done].
      repeat split; try done. by exists n, node, c. }
    split; [apply L | done].
  - intros Hl Hk. by apply B.
  - intros Hl Hk. destruct (C Hl Hk) as (? & ? & _). done.
Qed.

(** The effect suspends at most one request, for the current position. *)
Lemma effect_pending s :
  pending (effect s) = pending s \/
  isPlaying s = true /\
  exists text,
    pending (effect s) =
      pending s ++ [AutoAwait {| c_isPlaying := isPlaying s;
                                 c_isLooping := isLooping s |}
                              (currentIndex s) text].
Proof.
  unfold Engine.effect. destruct (isPlaying s) eqn:Hp.
  - unfold playNextSentence. cbn [c_isPlaying negb orb].
    destruct (negb (isComponentMounted s)); [by left|].
    destruct (sentence_at sentences (currentIndex s));
      [right; split; [done | by eexists] | by left].
  - left. destruct (negb (truthy_id (activeSpeechId s))); [|done].
    frame (stopAllAudio_frame s). done.
Qed.

Lemma commit_pending before after :
  pending (commit sentences before after) = pending after \/
  isPlaying after = true /\
  exists text,
    pending (commit sentences before after) =
      pending after ++ [AutoAwait {| c_isPlaying := isPlaying after;
                                     c_isLooping := isLooping after |}
                                  (currentIndex after) text].
Proof. unfold commit. case_decide; [by left | apply effect_pending]. Qed.

(** X16.  Speech generation fails during auto narration: the engine arms the
    skip timer and, when it fires, moves on as a completed unit would without
    looping; unit [k] is not requested again. *)
Lemma failure_skips s j c k text :
  isComponentMounted s = true -> c_isPlaying c = true ->
  pending s !! j = Some (AutoAwait c k text) ->
  let s1 := step s (SpeechSettled j None) in
  let t := length (pending s) in
  let s2 := step s1 (TimerFired t) in
  (currentIndex s1 = currentIndex s /\ isPlaying s1 = isPlaying s /\
   device s1 = device s /\
   pending s1 = <[j := Settled]> (pending s) ++ [SkipTimer k]) /\
  (k + 1 < len -> currentIndex s2 = k + 1 /\ isPlaying s2 = isPlaying s) /\
  (len <= k + 1 -> isPlaying s2 = false /\ currentIndex s2 = currentIndex s) /\
  (forall c' text', AutoAwait c' k text' ∉ drop (S t) (pending s2)).
Proof.
  intros Hm Hc Hj s1 t s2.
  assert (E1 : s1 = suspend (SkipTimer k) (setLoadingAudio false (settle j s))).
  { subst s1. unfold Engine.step. cbn [Engine.handle]. rewrite Hj.
    unfold playNextSentence_resume. fsimpl. rewrite Hm, Hc. cbn [negb orb].
    by apply commit_same. }
  assert (Ht : pending s1 !! t = Some (SkipTimer k)).
  { rewrite E1. fsimpl. apply list_lookup_middle. by rewrite length_insert. }
  assert (Hlen1 : length (pending s1) = S t).
  { rewrite E1. fsimpl. rewrite length_app, length_insert. simpl. lia. }
  split; [by rewrite E1|].
  assert (E2 : s2 = commit sentences s1 (skip_failed sentences k (settle t s1))).
  { subst s2. unfold Engine.step. cbn [Engine.handle]. by rewrite Ht. }
  pose proof (commit_frame s1 (skip_failed sentences k (settle t s1)))
    as (C1 & C2 & _).
  pose proof (commit_pending s1 (skip_failed sentences k (settle t s1))) as CP.
  rewrite <- E2 in C1, C2, CP.
  unfold skip_failed in C1, C2, CP.
  destruct (Z.ltb_spec (k + 1) len) as [Hk|Hk]; fsimpl.
  - split; [intros _; rewrite C1, C2, E1; by fsimpl|].
    split; [lia|].
    intros c' text' Hin.
    destruct CP as [CP|(_ & text0 & CP)]; rewrite CP in Hin.
    + rewrite drop_ge in Hin by (rewrite length_insert; lia).
      by apply not_elem_of_nil in Hin.
    + rewrite drop_app_length' in Hin by (rewrite length_insert; lia).
      apply list_elem_of_singleton in Hin. injection Hin as _ Hbad _. lia.
  - split; [lia|].
    split; [intros _; rewrite C1, C2, E1; by fsimpl|].
    intros c' text' Hin.
    destruct CP as [CP|(? & _)]; [|done]. rewrite CP in Hin.
    rewrite drop_ge in Hin by (rewrite length_insert; lia).
    by apply not_elem_of_nil in Hin.
Qed.

(** ** Every stop goes through [stopAllAudio] *)

Lemma ws_stopAllAudio s :
  well_stopped (device s) -> well_stopped (device (stopAllAudio s)).
Proof.
  intros Hw. unfold stopAllAudio.
  destruct (currentSourceRef s) as [r|]; fsimpl; [|done].
  destruct (stop r (detach r (device s))) as [e|d] eqn:Hstop; fsimpl.
  - by apply WebAudioFacts.well_stopped_detach.
  - apply WebAudioFacts.well_stopped_disconnect.
    by eapply WebAudioFacts.well_stopped_stop.
Qed.

Lemma ws_new_source buf h s :
  well_stopped (device s) -> well_stopped (device (new_source buf h s).2).
Proof.
  intros Hw. pose proof (new_source_lookup buf h s) as Hn.
  destruct (new_source buf h s) as [n t]. cbn [snd].
  destruct Hn as (_ & Hnodes & Hlog & _).
  by eapply WebAudioFacts.well_stopped_extend.
Qed.

Lemma ws_playNextSentence c k s :
  well_stopped (device s) ->
  well_stopped (device (playNextSentence sentences c k s)).
Proof.
  intros Hw. frame (playNextSentence_frame c k s). congruence.
Qed.

Lemma ws_effect s : well_stopped (device s) -> well_stopped (device (effect s)).
Proof.
  intros Hw. unfold Engine.effect. destruct (isPlaying s).
  - by apply ws_playNextSentence.
  - destruct (negb (truthy_id (activeSpeechId s))); [by apply ws_stopAllAudio | done].
Qed.

Lemma ws_commit before after :
  well_stopped (device after) ->
  well_stopped (device (commit sentences before after)).
Proof. intros Hw. unfold commit. case_decide; [done | by apply ws_effect]. Qed.

Lemma ws_speakSentence_resume id audioBytes s :
  well_stopped (device s) ->
  well_stopped (device (speakSentence_resume id audioBytes s)).
Proof.
  intros Hw. unfold speakSentence_resume.
  destruct (negb (isComponentMounted s)); [done|].
  destruct audioBytes as [bytes|]; [|done].
  destruct (PCM.decodeAudioData (PCM.fresh bytes)) as [e|buf]; [done|].
  pose proof (ws_new_source buf ClearActiveSpeech (setLoadingSpeechId None s) Hw) as Hn.
  destruct (new_source buf ClearActiveSpeech (setLoadingSpeechId None s)) as [n t].
  fsimpl. by apply WebAudioFacts.well_stopped_start.
Qed.

Lemma ws_playNextSentence_resume c k audioBytes s :
  well_stopped (device s) ->
  well_stopped (device (playNextSentence_resume c k audioBytes s)).
Proof.
  intros Hw. unfold playNextSentence_resume.
  destruct (negb (isComponentMounted s) || negb (c_isPlaying c)); [done|].
  destruct audioBytes as [bytes|]; [|done].
  destruct (PCM.decodeAudioData (PCM.fresh bytes)) as [e|buf]; [done|].
  pose proof (ws_new_source buf (AutoAdvance c k) (setLoadingAudio false s) Hw) as Hn.
  destruct (new_source buf (AutoAdvance c k) (setLoadingAudio false s)) as [n t].
  fsimpl. apply WebAudioFacts.well_stopped_start. by apply ws_stopAllAudio.
Qed.

Lemma ws_run_handler h s :
  well_stopped (device s) -> well_stopped (device (run_handler sentences h s)).
Proof.
  intros Hw. destruct h as [|c k]; [done|]. cbn [run_handler].
  destruct (negb (isComponentMounted s)); [done|].
  destruct (c_isLooping c); [by apply ws_playNextSentence|].
  by destruct (k + 1 <? len).
Qed.

Lemma ws_handle e s :
  well_stopped (device s) -> well_stopped (device (handle e s)).
Proof.
  intros Hw. destruct e as [| | | |text id|k audioBytes|k|n]; cbn [Engine.handle];
    try done.
  - unfold toggleAutoPlay. fsimpl.
    destruct (truthy_id (activeSpeechId s)); [by apply ws_stopAllAudio | done].
  - unfold speakSentence. fsimpl. by apply ws_stopAllAudio.
  - destruct (pending s !! k) as [[text id|c i text|i|]|]; try done.
    + by apply ws_speakSentence_resume.
    + by apply ws_playNextSentence_resume.
  - destruct (pending s !! k) as [[text id|c i text|i|]|]; try done.
    unfold skip_failed. by destruct (i + 1 <? len).
  - destruct (dispatch_ended n (device s)) as [[h d]|] eqn:Hd; [|done].
    apply WebAudioFacts.well_stopped_dispatch in Hd; [|done].
    destruct h as [h|]; [|done]. by apply ws_run_handler.
Qed.

Lemma ws_step s e : well_stopped (device s) -> well_stopped (device (step s e)).
Proof. intros Hw. unfold Engine.step. by apply ws_commit, ws_handle. Qed.

Lemma ws_run es : forall s,
  well_stopped (device s) -> well_stopped (device (run s es)).
Proof.
  induction es as [|e es IH]; intros s Hw; [done|].
  simpl. by apply IH, ws_step.
Qed.

(** X17.  In every state the player can reach, each [stop()] was issued right
    after the detach of the same source, and the [ended] event of a halted source
    changes nothing but the bookkeeping of that source: position, narration
    flag, point read, pending work and the sounding sources stay as they
    are. *)
Theorem stopped_source_is_silent (es : list Event) :
  let s := run init es in
  stops_detached None (log (device s)) = true /\
  forall n node,
    nodes (device s) !! n = Some node -> playback node = Halted ->
    onended node = None /\
    let s' := step s (SourceEnded n) in
    currentIndex s' = currentIndex s /\ isPlaying s' = isPlaying s /\
    isLooping s' = isLooping s /\ activeSpeechId s' = activeSpeechId s /\
    pending s' = pending s /\ currentSourceRef s' = currentSourceRef s /\
    sounding (device s') = sounding (device s).
Proof.
  intros s.
  assert (Hw : well_stopped (device s)).
  { apply ws_run. split; [done|]. intros n x Hx. done. }
  destruct Hw as [Hl Hd]. split; [done|].
  intros n node Hn Hp. pose proof (Hd n node Hn Hp) as Ho. split; [done|].
  unfold Engine.step. cbn [Engine.handle]. unfold dispatch_ended.
  rewrite Hn, Hp, Ho. rewrite commit_same by done. fsimpl.
  repeat split; try done.
  unfold sounding. cbn [nodes]. rewrite length_alter.
  apply List.filter_ext. intros i. unfold sounds. cbn [nodes].
  rewrite list_lookup_alter. case_decide as Hi; [|done]. subst i.
  rewrite Hn. unfold is_sounding. simpl. by rewrite Hp.
Qed.

(** ** Narration keeps a single source *)

(** After [stopAllAudio] nothing sounds, provided only the current source
    did. *)
Lemma silent_after_stopAllAudio s n node :
  ref_owns_sound s ->
  nodes (device (stopAllAudio s)) !! n = Some node -> playback node <> Sounding.
Proof.
  intros Hros Hn Hp.
  destruct (decide (currentSourceRef s = Some n)) as [Hr|Hr].
  - destruct (nodes (device s) !! n) as [x|] eqn:Hx.
    + destruct (stopAllAudio_current s n x Hr Hx) as (y & Hy & _ & Hny & _).
      congruence.
    + apply lookup_ge_None in Hx. apply lookup_lt_Some in Hn.
      frame (stopAllAudio_frame s). lia.
  - rewrite stopAllAudio_other in Hn by done. apply Hr. by apply (Hros n node).
Qed.

Lemma ros_stopAllAudio s : ref_owns_sound s -> ref_owns_sound (stopAllAudio s).
Proof.
  intros Hros n node Hn Hp. by destruct (silent_after_stopAllAudio s n node).
Qed.

Lemma ros_playNextSentence c k s :
  ref_owns_sound s -> ref_owns_sound (playNextSentence sentences c k s).
Proof.
  intros Hros n node.
  pose proof (playNextSentence_frame c k s) as F. cbv zeta in F.
  destruct F as (_ & _ & _ & _ & _ & _ & Hr & Hd).
  rewrite Hr, Hd. apply Hros.
Qed.

Lemma ros_effect s : ref_owns_sound s -> ref_owns_sound (effect s).
Proof.
  intros Hros. unfold Engine.effect. destruct (isPlaying s).
  - by apply ros_playNextSentence.
  - destruct (negb (truthy_id (activeSpeechId s))); [by apply ros_stopAllAudio | done].
Qed.

Lemma ros_commit before after :
  ref_owns_sound after -> ref_owns_sound (commit sentences before after).
Proof. intros Hros. unfold commit. case_decide; [done | by apply ros_effect]. Qed.

(** [playNextSentence] stops the current source right before it starts the
    new one, so the new source is the only one that sounds. *)
Lemma ros_playNextSentence_resume c k audioBytes s :
  ref_owns_sound s -> ref_owns_sound (playNextSentence_resume c k audioBytes s).
Proof.
  intros Hros. unfold playNextSentence_resume.
  destruct (negb (isComponentMounted s) || negb (c_isPlaying c)); [done|].
  destruct audioBytes as [bytes|]; [|done].
  destruct (PCM.decodeAudioData (PCM.fresh bytes)) as [e|buf]; [done|].
  pose proof (new_source_lookup buf (AutoAdvance c k) (setLoadingAudio false s)) as Hn.
  destruct (new_source buf (AutoAdvance c k) (setLoadingAudio false s)) as [src t].
  destruct Hn as (-> & Hnodes & _ & _ & _ & _ & _ & Hr & _).
  assert (Ht : ref_owns_sound t).
  { intros n node. rewrite Hnodes, Hr. fsimpl. rewrite lookup_snoc_Some.
    intros [[_ Hn]|[_ <-]] Hp; [by apply (Hros n node) | done]. }
  intros n node. fsimpl. unfold start.
  destruct (decide (length (nodes (device s)) = n)) as [<-|Hne]; [done|].
  rewrite WebAudioFacts.issue_lookup_ne by done.
  intros Hn Hp. by destruct (silent_after_stopAllAudio t n node).
Qed.

Lemma ros_run_handler h s :
  ref_owns_sound s -> ref_owns_sound (run_handler sentences h s).
Proof.
  intros Hros. destruct h as [|c k]; [done|]. cbn [run_handler].
  destruct (negb (isComponentMounted s)); [done|].
  destruct (c_isLooping c); [by apply ros_playNextSentence|].
  by destruct (k + 1 <? len).
Qed.

Lemma ros_dispatch s n h d :
  ref_owns_sound s -> dispatch_ended n (device s) = Some (h, d) ->
  ref_owns_sound (on_device (fun _ => d) s).
Proof.
  intros Hros. unfold dispatch_ended.
  destruct (nodes (device s) !! n) as [x|] eqn:Hx; [|done].
  assert (Hgoal : ref_owns_sound
            (on_device (fun _ => {| nodes := alter (fun s0 =>
                 {| buffer := buffer s0; onended := onended s0;
                    playback := Ended; connected := connected s0 |})
                 n (nodes (device s)); log := log (device s) |}) s)).
  { intros m y. fsimpl. cbn [nodes]. rewrite list_lookup_alter.
    case_decide as Hm.
    - subst m. rewrite Hx. simpl. by intros [= <-].
    - apply Hros. }
  destruct (playback x); try done; by intros [= _ <-].
Qed.

Lemma nprp_playNextSentence c k s :
  no_point_read_pending s ->
  no_point_read_pending (playNextSentence sentences c k s).
Proof.
  intros Hn. unfold playNextSentence.
  destruct (negb (c_isPlaying c) || negb (isComponentMounted s)); [done|].
  destruct (sentence_at sentences k); [|done].
  intros j text id. fsimpl. rewrite lookup_snoc_Some.
  intros [[_ H]|[_ H]]; [by apply Hn in H | done].
Qed.

Lemma nprp_pending s s' :
  pending s' = pending s -> no_point_read_pending s -> no_point_read_pending s'.
Proof. intros Hp Hn j text id. rewrite Hp. apply Hn. Qed.

Lemma nprp_settle k s :
  no_point_read_pending s -> no_point_read_pending (settle k s).
Proof.
  intros Hn j text id. fsimpl. rewrite list_lookup_insert_Some.
  intros [(_ & H & _)|[_ H]]; [done | by apply Hn in H].
Qed.

Lemma nprp_effect s : no_point_read_pending s -> no_point_read_pending (effect s).
Proof.
  intros Hn. unfold Engine.effect. destruct (isPlaying s).
  - by apply nprp_playNextSentence.
  - destruct (negb (truthy_id (activeSpeechId s))); [|done].
    eapply nprp_pending; [|done]. frame (stopAllAudio_frame s). done.
Qed.

(** One step of a player in which no point read was requested. *)
Lemma narration_step s e :
  is_point_read e = false ->
  ref_owns_sound s /\ no_point_read_pending s ->
  ref_owns_sound (step s e) /\ no_point_read_pending (step s e).
Proof.
  intros He [Hros Hn].
  assert (H : ref_owns_sound (handle e s) /\ no_point_read_pending (handle e s)).
  { destruct e as [| | | |text id|k audioBytes|k|n]; cbn [Engine.handle];
      try done.
    - unfold toggleAutoPlay.
      destruct (truthy_id (activeSpeechId s)); [|done]. split.
      + by apply ros_stopAllAudio.
      + eapply nprp_pending; [|done]. fsimpl. frame (stopAllAudio_frame s). done.
    - destruct (pending s !! k) as [[text id|c i text|i|]|] eqn:Hk; try done.
      + by apply Hn in Hk.
      + split.
        * apply ros_playNextSentence_resume. done.
        * unfold playNextSentence_resume.
          destruct (negb (isComponentMounted (settle k s)) || negb (c_isPlaying c));
            [by apply nprp_settle|].
          destruct audioBytes as [bytes|].
          -- destruct (PCM.decodeAudioData (PCM.fresh bytes)) as [e|buf].
             ++ by apply (nprp_pending (settle k s)), nprp_settle.
             ++ pose proof (new_source_lookup buf (AutoAdvance c i)
                              (setLoadingAudio false (settle k s))) as Hs.
                destruct (new_source buf (AutoAdvance c i)
                            (setLoadingAudio false (settle k s))) as [src t].
                destruct Hs as (_ & _ & _ & _ & _ & _ & _ & _ & Hp & _).
                eapply nprp_pending; [|by apply (nprp_settle k)].
                fsimpl. frame (stopAllAudio_frame t). congruence.
          -- intros j text' id. fsimpl. rewrite lookup_snoc_Some.
             intros [[_ H]|[_ H]]; [|done].
             by apply (nprp_settle k s Hn j text' id).
    - destruct (pending s !! k) as [[text id|c i text|i|]|] eqn:Hk; try done.
      unfold skip_failed. destruct (i + 1 <? len); split; try done;
        by apply nprp_settle.
    - destruct (dispatch_ended n (device s)) as [[h d]|] eqn:Hd; [|done].
      pose proof (ros_dispatch s n h d Hros Hd) as Hros'.
      destruct h as [h|]; [|done]. split; [by apply ros_run_handler|].
      destruct h as [|c k]; [done|]. cbn [run_handler]. fsimpl.
      destruct (negb (isComponentMounted s)); [done|].
      destruct (c_isLooping c); [by apply nprp_playNextSentence|].
      by destruct (k + 1 <? len). }
  destruct H as [H1 H2]. unfold Engine.step, commit.
  case_decide; [done|]. split; [by apply ros_effect | by apply nprp_effect].
Qed.

(** X18.  As long as no point read is requested, at most one source sounds,
    whatever the listener does and whenever speech, timers and completions
    arrive. *)
Theorem narration_single_source (es : list Event) :
  Forall (fun e => is_point_read e = false) es ->
  single_source (device (run init es)) /\ ref_owns_sound (run init es).
Proof.
  intros Hes.
  assert (H : forall s, ref_owns_sound s /\ no_point_read_pending s ->
            ref_owns_sound (run s es) /\ no_point_read_pending (run s es)).
  { induction Hes as [|e es He Hes IH]; intros s Hs; [done|].
    simpl. by apply IH, narration_step. }
  destruct (H init) as [Hros _].
  { split; [intros n node Hn; done | intros k text id Hk; done]. }
  split; [|done].
  intros n m a b Ha Hb Hpa Hpb.
  pose proof (Hros n a Ha Hpa). pose proof (Hros m b Hb Hpb). congruence.
Qed.

End Player.

End EngineFacts.

(** ** Examples on the sample lesson *)

Module EngineExamples.

Import WebAudio Engine.

(** C1: two point reads requested in a row, both answered: the second source
    is started while the first still sounds, with no [stop] in between, so
    two sources are active at once.  [speakSentence] calls [stopAllAudio]
    before it awaits the speech and not again before [start];
    [playNextSentence] calls it right before [start]. *)
Theorem overlapping_point_reads (sentences : list Sentence) :
  let s := run sentences init
             [SpeakClick "学而时习之" "s-0-orig"; SpeakClick "不亦说乎" "s-1-orig";
              SpeechSettled 0 (Some sample_audio);
              SpeechSettled 1 (Some sample_audio)] in
  sounding (device s) = [0; 1]%nat /\
  log (device s) = [Connect 0; Start 0; Connect 1; Start 1]%nat /\
  currentSourceRef s = Some 1%nat /\
  activeSpeechId s = Some "s-1-orig".
Proof. repeat split; reflexivity. Qed.

(** C2.  The completion handler of [playNextSentence] tests the [isLooping]
    of the render that requested the speech, not the loop mode of the moment
    at which the source completes.  Loop mode is switched on while unit 0
    sounds and the source completes before the speech requested by the
    switch arrives: loop mode is on, yet the position advances to unit 1.
    Conversely, narration is started in loop mode, loop mode is switched off
    while unit 0 sounds and the source completes: loop mode is off and unit 1
    exists, yet the position stays at 0 and unit 0 is requested once more. *)
Theorem completion_reads_captured_loop_flag :
  let text0 := "学而时习之。意思是：Learn and practise" in
  let switched_on := run sample_lesson init
        [ToggleAutoPlay; SpeechSettled 0 (Some sample_audio); ToggleLoop] in
  let advanced := step sample_lesson switched_on (SourceEnded 0) in
  let switched_off := run sample_lesson init
        [ToggleLoop; ToggleAutoPlay; SpeechSettled 0 (Some sample_audio);
         ToggleLoop] in
  let replayed := step sample_lesson switched_off (SourceEnded 0) in
  (isLooping switched_on = true /\ isPlaying switched_on = true /\
   currentIndex switched_on = 0 /\ sounding (device switched_on) = [0%nat] /\
   (onended <$> nodes (device switched_on) !! 0%nat) =
     Some (Some (AutoAdvance {| c_isPlaying := true; c_isLooping := false |} 0))) /\
  (isLooping advanced = true /\ isPlaying advanced = true /\
   currentIndex advanced = 1) /\
  (isLooping switched_off = false /\ isPlaying switched_off = true /\
   currentIndex switched_off = 0 /\ len sample_lesson = 3 /\
   sounding (device switched_off) = [0%nat] /\
   (onended <$> nodes (device switched_off) !! 0%nat) =
     Some (Some (AutoAdvance {| c_isPlaying := true; c_isLooping := true |} 0))) /\
  (isLooping replayed = false /\ isPlaying replayed = true /\
   currentIndex replayed = 0 /\
   last (pending replayed) =
     Some (AutoAwait {| c_isPlaying := true; c_isLooping := true |} 0 text0)).
Proof. repeat split; reflexivity. Qed.

(** The guard after the request reads the captured [isPlaying] as well: speech
    requested before a pause is played when it arrives. *)
Example request_outlives_pause :
  let s := run sample_lesson init
             [ToggleAutoPlay; ToggleAutoPlay;
              SpeechSettled 0 (Some sample_audio)] in
  isPlaying s = false /\ sounding (device s) = [0%nat].
Proof. split; reflexivity. Qed.

(** C4.  A point read does not cancel narration speech that is still being
    generated.  Play is pressed, and before the speech of unit 0 arrives the
    listener point-reads a sentence: narration is switched off and nothing
    sounds.  When the speech of unit 0 then arrives, the guard after the
    request reads the [isPlaying] of the render that made it: the source is
    started although narration is off, and when it completes its handler
    moves the position from 0 to 1.  When the speech of the point read
    arrives while that source sounds, it is started beside it, and both
    sound. *)
Theorem point_read_leaves_narration_request :
  let clicked := run sample_lesson init
        [ToggleAutoPlay; SpeakClick "不亦说乎" "s-1-orig"] in
  let narrated := step sample_lesson clicked (SpeechSettled 0 (Some sample_audio)) in
  let moved := step sample_lesson narrated (SourceEnded 0) in
  let both := step sample_lesson narrated (SpeechSettled 1 (Some sample_audio)) in
  (isPlaying clicked = false /\ currentIndex clicked = 0 /\
   sounding (device clicked) = [] /\
   pending clicked =
     [AutoAwait {| c_isPlaying := true; c_isLooping := false |} 0
                "学而时习之。意思是：Learn and practise";
      SpeakAwait "不亦说乎" "s-1-orig"]) /\
  (isPlaying narrated = false /\ sounding (device narrated) = [0%nat] /\
   currentSourceRef narrated = Some 0%nat /\
   (onended <$> nodes (device narrated) !! 0%nat) =
     Some (Some (AutoAdvance {| c_isPlaying := true; c_isLooping := false |} 0))) /\
  (isPlaying moved = false /\ currentIndex moved = 1) /\
  (isPlaying both = false /\ activeSpeechId both = Some "s-1-orig" /\
   sounding (device both) = [0; 1]%nat /\
   log (device both) = [Connect 0; Start 0; Connect 1; Start 1]%nat).
Proof. repeat split; reflexivity. Qed.
(** C7 as stated fails on a lesson without units: "next" is enabled
    ([0 !== -1]) and sets the position to [Math.min(-1, 1) = -1], which
    is no index of the lesson. *)
Lemma next_on_empty_lesson :
  currentIndex (step [] init NextClick) = -1 /\
  ~ Nav.valid_index (len []) (currentIndex (step [] init NextClick)).
Proof.
  split; [reflexivity|]. unfold Nav.valid_index. vm_compute.
  intros [H _]. by apply H.
Qed.

(** The point-read theorem at a narrating player. *)
Lemma point_read_witness :
  isPlaying (step sample_lesson narrating (SpeakClick "不亦说乎" "s-1-orig")) = false /\
  currentIndex (step sample_lesson narrating (SpeakClick "不亦说乎" "s-1-orig")) = 0.
Proof.
  pose proof (EngineFacts.point_read sample_lesson narrating "不亦说乎" "s-1-orig"
                sample_audio eq_refl ltac:(simpl; lia) ltac:(discriminate)) as H.
  cbv zeta in H. destruct H as ((H1 & H2 & _) & _).
  split; [exact H1 | exact H2].
Defined.

(** The completion theorem at a player that loops on the first unit: three
    more rounds leave the position at 0. *)
Lemma completion_auto_narration_witness :
  currentIndex (replay_rounds sample_lesson narrating_in_loop
                  [sample_audio; sample_audio; sample_audio]) = 0.
Proof.
  pose proof (EngineFacts.completion_auto_narration sample_lesson narrating_in_loop 0
    {| buffer := [PCM.normalise 1; PCM.normalise 32767];
       onended := Some (AutoAdvance {| c_isPlaying := true; c_isLooping := true |} 0);
       playback := Sounding; connected := true |}
    {| c_isPlaying := true; c_isLooping := true |} 0
    eq_refl eq_refl eq_refl eq_refl eq_refl) as H.
  cbv zeta in H. destruct H as (H & _).
  destruct (H eq_refl) as (_ & _ & H3).
  apply (H3 [sample_audio; sample_audio; sample_audio]); try reflexivity.
  - by eexists.
  - repeat constructor.
Defined.

End EngineExamples.

(* ===================================================================== *)
(** * The earlier players on the sample lesson *)
(* ===================================================================== *)

Module DraftFacts.

Import WebAudio Draft.

(** C5 (first player, the stop path of the playback effect): the source is
    halted with its completion handler still attached, so after the listener
    paused narration the [ended] event of the halted source runs the handler
    and the position advances from 0 to 1.  In loop mode the handler requests
    the unit again and, when the speech arrives, playback restarts although
    narration is off.  After a seek to unit 2 the handler of the halted
    source moves the position to unit 1. *)
Theorem draft_stop_fires_completion :
  let playing := run Engine.sample_lesson init
                   [TogglePlay; SpeechSettled 0 (Some Engine.sample_audio)] in
  let paused := step Engine.sample_lesson playing TogglePlay in
  let after := step Engine.sample_lesson paused (SourceEnded 0) in
  let looping := run Engine.sample_lesson init
                   [ToggleLoop; TogglePlay; SpeechSettled 0 (Some Engine.sample_audio);
                    TogglePlay; SourceEnded 0;
                    SpeechSettled 1 (Some Engine.sample_audio)] in
  let sought := step Engine.sample_lesson playing (SentenceClick 2) in
  (isPlaying paused = false /\ currentIndex paused = 0 /\
   log (device paused) = [Connect 0; Start 0; Stop 0; Stop 0]%nat /\
   stops_detached None (log (device paused)) = false /\
   (playback <$> nodes (device paused) !! 0%nat) = Some Halted /\
   (onended <$> nodes (device paused) !! 0%nat) =
     Some (Some (AutoAdvance {| Engine.c_isPlaying := true;
                                Engine.c_isLooping := false |} 0))) /\
  (isPlaying after = false /\ currentIndex after = 1) /\
  (isPlaying looping = false /\ sounding (device looping) = [1%nat]) /\
  (currentIndex sought = 2 /\
   currentIndex (step Engine.sample_lesson sought (SourceEnded 0)) = 1).
Proof. repeat split; reflexivity. Qed.

End DraftFacts.

Module DraftPointFacts.

Import WebAudio DraftPoint.

(** C3 ([playSentence] of the last player): play is pressed, the frame of
    silence that the unlock listener started on that click has ended, speech
    generation fails for the first unit and the call just returns.  Narration
    is still on and the position still 0, but no timer, request or source is
    left (the only node is the ended frame of silence, which was never
    current), so no later event moves the player: the unit is never
    skipped. *)
Theorem draft_failure_stalls :
  let s := run Engine.sample_lesson init
             [TogglePlay; SourceEnded 0; SpeechSettled 0 None] in
  isPlaying s = true /\ currentIndex s = 0 /\ pending s = [Settled] /\
  currentSourceRef s = None /\
  nodes (device s) = [{| buffer := [0%Q]; onended := None; playback := Ended;
                         connected := true |}] /\
  (forall k audioBytes, step Engine.sample_lesson s (SpeechSettled k audioBytes) = s) /\
  (forall n, step Engine.sample_lesson s (SourceEnded n) = s).
Proof.
  repeat split; try reflexivity.
  - intros [|k] audioBytes; reflexivity.
  - intros [|n]; reflexivity.
Qed.

End DraftPointFacts.

(* ===================================================================== *)
(** * The decoders on arbitrary views *)
(* ===================================================================== *)

Module DecoderFacts.

Import PCM PCMFacts.

(** The fill loop over a fresh channel of [n] frames. *)
Lemma fill_replicate_lookup n ints i :
  fill n 0 ints (replicate n 0%Q) !! i =
  if decide (i < n)%nat then Some (normalise (default 0 (ints !! i))) else None.
Proof.
  rewrite fill_lookup by (rewrite length_replicate; lia).
  case_decide; case_decide; try lia; [done|].
  apply lookup_replicate_None. lia.
Qed.

Lemma int16_at_is_Some bs i :
  (2 * i + 1 < length bs)%nat -> is_Some (int16_at bs i).
Proof.
  intros Hi. unfold int16_at.
  destruct (lookup_lt_is_Some_2 bs (2 * i)) as [x ->]; [lia|].
  destruct (lookup_lt_is_Some_2 bs (2 * i + 1)) as [y ->]; [lia|].
  by eexists.
Qed.

Lemma int16_at_None bs i : (length bs <= 2 * i + 1)%nat -> int16_at bs i = None.
Proof.
  intros Hi. unfold int16_at.
  rewrite (lookup_ge_None_2 bs (2 * i + 1)) by lia.
  by destruct (bs !! (2 * i)%nat).
Qed.

(** Filling [length bs / 2] frames from a 16-bit view of the even prefix of
    [bs] gives the normalised elements of [bs]. *)
Lemma fill_read_int16 bs :
  fill (length bs / 2) 0 (read_int16 (take (2 * (length bs / 2)) bs))
       (replicate (length bs / 2) 0%Q) = normalise <$> read_int16 bs.
Proof.
  pose proof (Nat.div_mod_eq (length bs) 2) as Hdm.
  pose proof (Nat.mod_upper_bound (length bs) 2 ltac:(lia)) as Hmod.
  apply list_eq. intros i. rewrite fill_replicate_lookup.
  rewrite list_lookup_fmap, !read_int16_lookup.
  case_decide as Hi.
  - rewrite int16_at_take by lia.
    destruct (int16_at_is_Some bs i) as [v ->]; [lia|]. done.
  - rewrite int16_at_None by lia. done.
Qed.

(** X1.  The engine's [decodeAudioData] on any view that lies inside its
    buffer: a view at an odd byte offset makes the [Int16Array] constructor
    throw a [RangeError]; otherwise fewer than two bytes leave no frame and
    [createBuffer] throws [NotSupportedError]; otherwise the result is the
    sequence of 16-bit little-endian elements of the view, each over 32768,
    a trailing odd byte being dropped. *)
Theorem decode_view (data : Uint8Array) :
  well_formed data ->
  decodeAudioData data =
    if negb (byteOffset data mod 2 =? 0)%nat then inl RangeError
    else if (byteLength data <? 2)%nat then inl NotSupportedError
    else inr (normalise <$> read_int16 (contents data)).
Proof.
  unfold well_formed. intros Hwf.
  pose proof (Nat.div_mod_eq (byteLength data) 2) as Hdm.
  pose proof (Nat.mod_upper_bound (byteLength data) 2 ltac:(lia)) as Hmod.
  unfold decodeAudioData, Int16Array_view.
  destruct (negb (byteOffset data mod 2 =? 0)%nat); [done|].
  destruct (Nat.ltb_spec (length (buffer data))
              (byteOffset data + 2 * (byteLength data / 2))) as [Hbad|_]; [lia|].
  unfold createBuffer.
  destruct (Nat.ltb_spec (byteLength data) 2) as [Hshort|Hlong].
  - replace (byteLength data / 2)%nat with 0%nat; [done|].
    symmetry. apply Nat.div_small. lia.
  - destruct (Nat.eqb_spec (byteLength data / 2) 0) as [Hz|_].
    { apply Nat.div_small_iff in Hz; lia. }
    f_equal.
    assert (Hc : length (contents data) = byteLength data).
    { unfold contents. rewrite length_take, length_drop. lia. }
    rewrite <- (fill_read_int16 (contents data)). rewrite Hc.
    do 2 f_equal. unfold contents. rewrite take_take. f_equal. lia.
Qed.

(** The theorem at a three-byte view that starts at byte 2 of a six-byte
    buffer. *)
Lemma decode_view_witness :
  decodeAudioData {| buffer := [x00; x01; x01; x00; xff; x7f]%byte;
                     byteOffset := 2; byteLength := 3 |} = inr [normalise 1].
Proof.
  rewrite decode_view; [reflexivity|]. unfold well_formed. simpl. lia.
Defined.

Lemma read_int16_Forall bs :
  Forall (fun v => -32768 <= v < 32768) (read_int16 bs).
Proof.
  induction bs as [|a|a b l IH] using pair_ind; [constructor..|].
  cbn [read_int16]. constructor; [apply int16_le_range | done].
Qed.

Lemma normalise_bounds v :
  -32768 <= v < 32768 -> (-1 <= normalise v)%Q /\ (normalise v < 1)%Q.
Proof.
  intros H. unfold normalise, Qle, Qlt, Qdiv, Qmult, Qinv, inject_Z. simpl. lia.
Qed.

Lemma fill_Forall n ints :
  Forall (fun v => -32768 <= v < 32768) ints ->
  Forall (fun x => (-1 <= x)%Q /\ (x < 1)%Q) (fill n 0 ints (replicate n 0%Q)).
Proof.
  intros Hints. apply Forall_lookup. intros i x.
  rewrite fill_replicate_lookup. case_decide; [|done].
  intros [= <-]. apply normalise_bounds.
  destruct (ints !! i) as [v|] eqn:E; simpl; [|lia].
  by eapply (proj1 (Forall_lookup _ _) Hints).
Qed.

(** X2.  Whatever bytes and whatever view either decoder is given, every
    sample it returns lies in [-1, 1): the channel is never written with a
    value that the audio device would clip. *)
Theorem decoded_samples_in_range (data : Uint8Array) (samples : list Q) :
  decodeAudioData data = inr samples \/ decodeAudioData_whole data = inr samples ->
  Forall (fun x => (-1 <= x)%Q /\ (x < 1)%Q) samples.
Proof.
  intros [H|H].
  - unfold decodeAudioData, Int16Array_view in H.
    destruct (negb _); [done|]. destruct (_ <? _)%nat; [done|].
    unfold createBuffer in H. destruct (_ =? _)%nat; [done|].
    injection H as <-. apply fill_Forall, read_int16_Forall.
  - unfold decodeAudioData_whole, Int16Array_of_buffer in H.
    destruct (negb _); [done|].
    unfold createBuffer in H. destruct (_ =? _)%nat; [done|].
    injection H as <-. apply fill_Forall, read_int16_Forall.
Qed.

(** The theorem at the extreme 16-bit values. *)
Lemma decoded_samples_in_range_witness :
  Forall (fun x => (-1 <= x)%Q /\ (x < 1)%Q) [normalise (-32768); normalise 32767].
Proof.
  apply (decoded_samples_in_range (fresh [x00; x80; xff; x7f]%byte)).
  left. reflexivity.
Defined.

(** X3.  The decoder of the second player reads the whole buffer behind the
    array, whatever window the array shows.  On an array that owns its
    buffer it returns what the engine's decoder returns when the number of
    bytes is even, and throws a [RangeError] when it is odd. *)
Theorem decoders_agree_on_even_length (B : list byte) :
  decodeAudioData_whole (fresh B) =
    (if Nat.even (length B) then decodeAudioData (fresh B) else inl RangeError) /\
  forall off len,
    decodeAudioData_whole {| buffer := B; byteOffset := off; byteLength := len |} =
    decodeAudioData_whole (fresh B).
Proof.
  split; [|done].
  pose proof (Nat.div_mod_eq (length B) 2) as Hdm.
  pose proof (Nat.mod_upper_bound (length B) 2 ltac:(lia)) as Hmod.
  unfold decodeAudioData_whole, Int16Array_of_buffer, decodeAudioData,
    Int16Array_view, fresh. cbn [buffer byteOffset byteLength].
  destruct (Nat.even (length B)) eqn:Hev.
  - apply Nat.even_spec in Hev as [k Hk].
    assert (He : (length B mod 2 = 0)%nat) by lia.
    rewrite He. cbn [negb Nat.eqb]. cbv iota.
    destruct (Nat.ltb_spec (length B) (0 + 2 * (length B / 2))) as [Hbad|_]; [lia|].
    rewrite read_int16_length, drop_0.
    replace (2 * (length B / 2))%nat with (length B) by lia.
    by rewrite firstn_all.
  - assert (Hodd : Nat.odd (length B) = true).
    { rewrite <- Nat.negb_even, Hev. done. }
    apply Nat.odd_spec in Hodd as [k Hk].
    assert (Ho : (length B mod 2 = 1)%nat) by lia.
    rewrite Ho. done.
Qed.

End DecoderFacts.

(* ===================================================================== *)
(** * Properties of the shell: clock format, auto start, reload, fetch *)
(* ===================================================================== *)

Module ShellFacts.

Import App Shell.

(** ** The clock string *)

(** The two-character form of every value below 60, checked by evaluation. *)
Lemma two_digits_table :
  forallb (fun i =>
    match padStart2 (pretty (Z.of_nat i)) with
    | String _ (String _ EmptyString) => true
    | _ => false
    end &&
    forallb (fun j =>
      implb (String.eqb (padStart2 (pretty (Z.of_nat i)))
                        (padStart2 (pretty (Z.of_nat j))))
            (i =? j)%nat) (seq 0 60)) (seq 0 60) = true.
Proof. vm_compute. reflexivity. Qed.

Lemma two_digits z :
  0 <= z < 60 ->
  exists a b, padStart2 (pretty z) = String a (String b EmptyString).
Proof.
  intros Hz.
  pose proof (proj1 (forallb_forall _ _) two_digits_table (Z.to_nat z)) as H.
  cbv beta in H. rewrite Z2Nat.id in H by lia.
  destruct (andb_prop _ _ (H ltac:(apply in_seq; lia))) as [H1 _].
  destruct (padStart2 (pretty z)) as [|a [|b [|]]]; try done. by exists a, b.
Qed.

Lemma two_digits_inj z z' :
  0 <= z < 60 -> 0 <= z' < 60 ->
  padStart2 (pretty z) = padStart2 (pretty z') -> z = z'.
Proof.
  intros Hz Hz' Heq.
  pose proof (proj1 (forallb_forall _ _) two_digits_table (Z.to_nat z)) as H.
  destruct (andb_prop _ _ (H ltac:(apply in_seq; lia))) as [_ H2].
  pose proof (proj1 (forallb_forall _ _) H2 (Z.to_nat z')
                ltac:(apply in_seq; lia)) as H3.
  cbv beta in H3. rewrite !Z2Nat.id in H3 by lia.
  rewrite Heq, String.eqb_refl in H3. simpl in H3.
  apply Nat.eqb_eq in H3. lia.
Qed.

(** X4.  At every wall-clock reading the string compared with the start
    times has the form [HH:MM] with both fields zero-padded: it is five
    characters long, so a start time of any other length (['7:00']) never
    matches, and two readings give the same string only in the same minute
    of the day. *)
Theorem clock_format (now : Date) :
  clock now ->
  String.length (currentHhMm now) = 5%nat /\
  (forall s, String.length (startTime s) <> 5%nat -> matches now s = false) /\
  (forall now', clock now' -> currentHhMm now' = currentHhMm now ->
     getHours now' = getHours now /\ getMinutes now' = getMinutes now).
Proof.
  intros [Hh Hm].
  destruct (two_digits (getHours now)) as (a & b & Eh); [lia|].
  destruct (two_digits (getMinutes now)) as (c & d & Em); [lia|].
  assert (Hlen : String.length (currentHhMm now) = 5%nat).
  { unfold currentHhMm. rewrite Eh, Em. done. }
  split; [done|]. split.
  - intros s Hs. unfold matches.
    destruct (String.eqb_spec (startTime s) (currentHhMm now)) as [E|_].
    + rewrite E in Hs. done.
    + apply andb_false_r.
  - intros now' [Hh' Hm'] Heq.
    destruct (two_digits (getHours now')) as (a' & b' & Eh'); [lia|].
    destruct (two_digits (getMinutes now')) as (c' & d' & Em'); [lia|].
    unfold currentHhMm in Heq. rewrite Eh, Em, Eh', Em' in Heq.
    simpl in Heq. injection Heq as -> -> -> ->.
    split; apply two_digits_inj; try lia; congruence.
Qed.

(** The theorem on a Monday at 07:00:30. *)
Lemma clock_format_witness : String.length (currentHhMm monday_morning) = 5%nat.
Proof.
  apply (clock_format monday_morning). unfold clock. simpl. lia.
Defined.

(** ** The schedule check *)

(** [padStart] on every value below 60 against [two_decimals], checked by
    evaluation. *)
Lemma two_decimals_table :
  forallb (fun i => String.eqb (padStart2 (pretty (Z.of_nat i)))
                               (two_decimals (Z.of_nat i))) (seq 0 60) = true.
Proof. vm_compute. reflexivity. Qed.

Lemma padStart2_decimals z : 0 <= z < 60 -> padStart2 (pretty z) = two_decimals z.
Proof.
  intros Hz.
  pose proof (proj1 (forallb_forall _ _) two_decimals_table (Z.to_nat z)
                ltac:(apply in_seq; lia)) as H.
  cbv beta in H. rewrite Z2Nat.id in H by lia. by apply String.eqb_eq.
Qed.

Lemma currentHhMm_hh_mm now :
  clock now -> currentHhMm now = hh_mm (getHours now) (getMinutes now).
Proof.
  intros [Hh Hm]. unfold currentHhMm, hh_mm.
  by rewrite !padStart2_decimals by lia.
Qed.

(** C8.  At every wall-clock reading the string compared with the start
    times is the time of day to the minute, [HH:MM], whatever the seconds.
    An entry is due exactly when it is enabled, today's weekday is one of
    its repeat days and its start time is that string; the active schedule
    is the first due entry in list order; changing the end times changes
    neither the active schedule (up to its own end time) nor the outcome of
    the check; after the check the player is shown exactly when it was
    shown before or some entry is due; the check changes nothing when the
    player is already shown or when no entry is due, and never changes the
    entries or the armed flag. *)
Theorem schedule_check (now : Date) (st : AppState) :
  clock now ->
  let minute := hh_mm (getHours now) (getMinutes now) in
  let due s :=
    enabled s = true /\ getDay now ∈ repeatDays s /\ startTime s = minute in
  currentHhMm now = minute /\
  (forall s, matches now s = true <-> due s) /\
  (forall s, activeSchedule now st = Some s <->
     exists l1 l2, schedules st = l1 ++ s :: l2 /\ due s /\
                   Forall (fun y => ~ due y) l1) /\
  (forall f, activeSchedule now (retime f st) =
               (fun s => set_endTime (f s) s) <$> activeSchedule now st) /\
  (forall f, checkSchedule now (retime f st) = retime f (checkSchedule now st)) /\
  (currentView (checkSchedule now st) = player <->
     currentView st = player \/ exists s, s ∈ schedules st /\ due s) /\
  (currentView st = player -> checkSchedule now st = st) /\
  ((forall s, s ∈ schedules st -> ~ due s) -> checkSchedule now st = st) /\
  schedules (checkSchedule now st) = schedules st /\
  isAutoModeArmed (checkSchedule now st) = isAutoModeArmed st.
Proof.
  intros Hc minute due.
  assert (Hclock : currentHhMm now = minute) by by apply currentHhMm_hh_mm.
  assert (Hdue : forall s, matches now s = true <-> due s).
  { intros s. rewrite AppFacts.matches_spec, Hclock. done. }
  assert (Hnot : forall s, matches now s = false <-> ~ due s).
  { intros s. rewrite <- Hdue. by destruct (matches now s). }
  assert (Hre : forall f, activeSchedule now (retime f st) =
             (fun s => set_endTime (f s) s) <$> activeSchedule now st).
  { intros f. unfold activeSchedule, retime. simpl. apply AppFacts.find_retime. }
  assert (Hnone : (forall s, s ∈ schedules st -> ~ due s) ->
                  activeSchedule now st = None).
  { intros Hall. unfold activeSchedule.
    destruct (List.find (matches now) (schedules st)) as [a|] eqn:Ha; [|done].
    apply find_some in Ha as [Hin Hm].
    destruct (Hall a); [by apply list_elem_of_In | by apply Hdue]. }
  split; [done|]. split; [done|]. split.
  { intros s. unfold activeSchedule. rewrite AppFacts.find_first.
    split; intros (l1 & l2 & E & Hs & Hl1); exists l1, l2;
      (split; [done|]); (split; [by apply Hdue|]);
      eapply Forall_impl; try exact Hl1; intros y; apply Hnot. }
  split; [done|]. split.
  { intros f. unfold checkSchedule. rewrite Hre.
    destruct (activeSchedule now st); simpl; [|done].
    by destruct (is_player (currentView st)). }
  split.
  { unfold checkSchedule.
    destruct (activeSchedule now st) as [a|] eqn:Ha.
    - apply find_some in Ha as [Hin Hm].
      assert (exists s, s ∈ schedules st /\ due s) as Hex.
      { exists a. split; [by apply list_elem_of_In | by apply Hdue]. }
      destruct (currentView st) eqn:Hv; simpl; rewrite ?Hv; split; auto.
    - split; [by left|]. intros [Hv|(s & Hin & Hs)]; [done|].
      unfold activeSchedule in Ha.
      pose proof (find_none _ _ Ha s (proj1 (list_elem_of_In _ _) Hin)) as Hf.
      apply Hnot in Hf. done. }
  split.
  { intros Hv. unfold checkSchedule. rewrite Hv.
    by destruct (activeSchedule now st). }
  split.
  { intros Hall. unfold checkSchedule. by rewrite Hnone. }
  unfold checkSchedule.
  destruct (activeSchedule now st); [|done].
  by destruct (is_player (currentView st)).
Qed.

(** The theorem on a Monday at 07:00:30 with the default schedules, from the
    home view. *)
Lemma schedule_check_witness :
  currentHhMm monday_morning = "07:00" /\
  currentView (checkSchedule monday_morning
                 {| currentView := home; schedules := default_schedules;
                    isAutoModeArmed := true |}) = player.
Proof.
  destruct (schedule_check monday_morning
              {| currentView := home; schedules := default_schedules;
                 isAutoModeArmed := true |})
    as (H1 & _ & _ & _ & _ & H6 & _).
  { unfold clock. simpl. lia. }
  split; [exact H1|]. apply H6. right.
  eexists. split; [apply list_elem_of_here|].
  split; [reflexivity|]. split; [apply list_elem_of_here | reflexivity].
Defined.
(** ** The auto-start effect *)

Lemma activeSchedule_exists now st :
  bool_decide (is_Some (activeSchedule now st)) =
  existsb (matches now) (schedules st).
Proof.
  unfold activeSchedule.
  induction (schedules st) as [|s l IH]; simpl.
  - first [done | apply bool_decide_eq_false_2; by intros [? ?]].
  - destruct (matches now s); simpl; [|done].
    first [done | apply bool_decide_eq_true_2; by eexists].
Qed.

Lemma auto_start_view now st :
  schedules (auto_start now st) = schedules st /\
  isAutoModeArmed (auto_start now st) = isAutoModeArmed st /\
  currentView (auto_start now st) =
    if isAutoModeArmed st && negb (is_player (currentView st)) &&
       existsb (matches now) (schedules st)
    then player else currentView st.
Proof.
  unfold auto_start, checkSchedule. rewrite <- activeSchedule_exists.
  destruct st as [view scheds armed]. cbn [isAutoModeArmed currentView schedules].
  destruct armed; simpl; [|done].
  destruct (activeSchedule now _) as [s|].
  - rewrite bool_decide_eq_true_2 by (by eexists).
    destruct view; simpl; done.
  - rewrite bool_decide_eq_false_2 by (by intros [? ?]).
    by rewrite andb_false_r.
Qed.

(** X5.  The checks of the auto-start effect, over any sequence of instants:
    they never change the schedules or the armed flag, and the view they
    leave is the player exactly when the mode is armed, the player was not
    shown already, and at one of the instants some schedule matched;
    otherwise the view is what it was.  Once the player is shown, no later
    check moves away from it. *)
Theorem auto_start_ticks (nows : list Date) (st : AppState) :
  schedules (ticks st nows) = schedules st /\
  isAutoModeArmed (ticks st nows) = isAutoModeArmed st /\
  currentView (ticks st nows) =
    if isAutoModeArmed st && negb (is_player (currentView st)) &&
       existsb (fun now => existsb (matches now) (schedules st)) nows
    then player else currentView st.
Proof.
  revert st. induction nows as [|now nows IH]; intros st.
  - simpl. by rewrite andb_false_r.
  - change (ticks st (now :: nows)) with (ticks (auto_start now st) nows).
    destruct (IH (auto_start now st)) as (IH1 & IH2 & IH3).
    destruct (auto_start_view now st) as (H1 & H2 & H3).
    rewrite IH1, IH2, IH3, H1, H2, H3. split; [done|]. split; [done|].
    cbn [existsb].
    destruct (isAutoModeArmed st); simpl; [|done].
    destruct (is_player (currentView st)) eqn:Hv; simpl; [by rewrite Hv|].
    destruct (existsb (matches now) (schedules st)); simpl; [done|].
    rewrite Hv. done.
Qed.

(** ** Reloading the application *)

(** Decide a lookup in a tower of updates, key by key. *)
Ltac by_key k :=
  repeat (first
    [ rewrite lookup_insert_eq
    | rewrite lookup_insert_ne by done
    | match goal with
      | |- context [<[?j := _]> _ !! k] =>
          destruct (decide (j = k)) as [<-|?]
      end ]);
  try done.

(** One action before a reload. *)
Lemma reload_act (mock_lesson0 : JSON) (st : Obj) (a : Action) :
  reload mock_lesson0 (act st a) =
  match a with
  | SetCurrentLesson lesson => <["currentLesson" := lesson]> (reload mock_lesson0 st)
  | SetSchedules schedules => <["schedules" := schedules]> (reload mock_lesson0 st)
  | SetView _ | ToggleAutoMode => reload mock_lesson0 st
  end.
Proof.
  unfold reload, initial_state, restore. cbn [own_props].
  destruct a; unfold act, setView, toggleAutoMode, setCurrentLesson, setSchedules;
    apply map_eq; intros k; by_key k.
Qed.

(** X6.  What a reload keeps of the state written by the persistence effect.
    Reloading twice is reloading once, and the default state reloads to
    itself.  The view and the armed flag are forgotten: after any sequence
    of actions of the shell the reloaded state is the one reached by the
    lesson selections and schedule edits alone.  A selected lesson and
    edited schedules are kept. *)
Theorem reload_keeps_lesson_and_schedules (mock_lesson0 : JSON) (st : Obj) :
  reload mock_lesson0 (reload mock_lesson0 st) = reload mock_lesson0 st /\
  reload mock_lesson0 (default_state mock_lesson0) = default_state mock_lesson0 /\
  (forall actions,
     reload mock_lesson0 (run st actions) =
     reload mock_lesson0 (run st (List.filter persistent actions))) /\
  (forall lesson,
     reload mock_lesson0 (setCurrentLesson lesson st) =
     <["currentLesson" := lesson]> (reload mock_lesson0 st)) /\
  (forall schedules,
     reload mock_lesson0 (setSchedules schedules st) =
     <["schedules" := schedules]> (reload mock_lesson0 st)).
Proof.
  split; [|split; [|split; [|split]]].
  - unfold reload, initial_state, restore. cbn [own_props].
    apply map_eq; intros k; by_key k.
  - unfold reload, initial_state, restore, default_state. cbn [own_props].
    apply map_eq; intros k; by_key k.
  - intros actions. induction actions as [|a actions IH] using rev_ind; [done|].
    unfold run in *. rewrite List.filter_app, !fold_left_app. cbn [fold_left].
    rewrite reload_act. cbn [List.filter].
    destruct a; cbn [persistent fold_left]; rewrite ?reload_act; by rewrite IH.
  - intros lesson. apply (reload_act mock_lesson0 st (SetCurrentLesson lesson)).
  - intros schedules. apply (reload_act mock_lesson0 st (SetSchedules schedules)).
Qed.

(** Arming twice: the flag is back to its truth value, and the state is the
    original one when the flag was a boolean. *)
Lemma toggleAutoMode_twice (st : Obj) (b : bool) :
  st !! "isAutoModeArmed" = Some (JBool b) ->
  toggleAutoMode (toggleAutoMode st) = st.
Proof.
  intros Hb. unfold toggleAutoMode. apply map_eq. intros k.
  rewrite lookup_insert_eq, Hb. simpl. rewrite negb_involutive.
  by_key k.
Qed.

(** ** Fetching a lesson: failures and fallbacks *)

(** X7.  [fetchLessonContent] returns [null] in exactly three cases: the
    request or the parser threw, the payload is [null], or the payload is an
    object whose [sentences] field is truthy and not an array.  A lesson
    that is returned carries the drawn identifier; its title is the
    payload's title when that is truthy and the requested name otherwise;
    and a payload that is no object (a number, a string, a boolean, an
    array) gives a lesson without sentences named after the request. *)
Theorem fetch_outcome (lessonName rnd : string) (data : Result JSON) :
  (fetchLessonContent lessonName rnd data = None <->
     (exists e, data = inl e) \/ data = inr JNull \/
     exists m v, data = inr (JObj m) /\ m !! "sentences" = Some v /\
                 truthy (Some v) = true /\ forall l, v <> JArr l) /\
  (forall lesson, fetchLessonContent lessonName rnd data = Some lesson ->
     id lesson = rnd /\
     (forall m, data = inr (JObj m) ->
        title lesson = if truthy (m !! "title") then default JNull (m !! "title")
                       else JStr lessonName) /\
     (forall d, data = inr d -> (forall m, d <> JObj m) ->
        title lesson = JStr lessonName /\ sentences lesson = [])).
Proof.
  split.
  - split.
    + destruct data as [e|d]; [intros _; left; by exists e|].
      destruct d as [| | | | |m]; try done; [intros _; right; by left|].
      unfold fetchLessonContent. cbn [get_prop]. unfold map_sentences.
      destruct (m !! "sentences") as [v|] eqn:Hv; [|done].
      destruct (truthy (Some v)) eqn:Ht; [|done].
      destruct v; try done; intros _; right; right; eexists _, _;
        (split; [done|]); (split; [done|]); (split; [done|]); done.
    + intros [[e ->]|[->|(m & v & -> & Hv & Ht & Hna)]]; [done|done|].
      unfold fetchLessonContent. cbn [get_prop]. unfold map_sentences.
      rewrite Hv, Ht. destruct v; try done. by destruct (Hna l).
  - intros lesson. destruct data as [e|d]; [done|].
    unfold fetchLessonContent.
    destruct (get_prop d "title") as [e|t] eqn:Et; [done|].
    destruct (get_prop d "sentences") as [e|ss] eqn:Es; [done|].
    destruct (map_sentences ss) as [e|sents] eqn:Em; [done|].
    intros [= <-]. cbn [id title sentences]. split; [done|]. split.
    + intros m [= ->]. cbn [get_prop] in Et. by injection Et as <-.
    + intros d' [= <-] Hno.
      destruct d as [| | | | |m]; try done; try (by destruct (Hno m));
        cbn [get_prop] in Et, Es; injection Et as <-; injection Es as <-;
        by injection Em as <-.
Qed.

End ShellFacts.

(* ===================================================================== *)
(** * Properties of the home screen *)
(* ===================================================================== *)

Module HomeFacts.

Import App Home.

(** X8.  The schedules listed under the auto-mode switch are the enabled
    ones in their stored order, and the schedule check can only select one
    of them: when the list is empty (the screen says that no schedule is
    enabled) the check changes nothing at any instant. *)
Theorem listed_schedules_trigger (now : Date) (st : AppState) :
  (forall s, activeSchedule now st = Some s -> s ∈ activeSchedules st) /\
  (forall s, s ∈ activeSchedules st <-> s ∈ schedules st /\ enabled s = true) /\
  activeSchedules st `sublist_of` schedules st /\
  (activeSchedules st = [] -> forall now', checkSchedule now' st = st).
Proof.
  unfold activeSchedules, activeSchedule.
  assert (Hin : forall s, s ∈ List.filter enabled (schedules st) <->
                          s ∈ schedules st /\ enabled s = true).
  { intros s. rewrite !list_elem_of_In. apply filter_In. }
  split; [|split; [done|split]].
  - intros s Hf. apply Hin. apply find_some in Hf as [Hs Hm].
    split; [by apply list_elem_of_In|].
    unfold matches in Hm. by destruct (enabled s).
  - clear Hin. induction (schedules st) as [|s l IH]; simpl; [done|].
    destruct (enabled s); by constructor.
  - intros Hnone now'. unfold checkSchedule, activeSchedule.
    destruct (List.find (matches now') (schedules st)) as [s|] eqn:Hf; [|done].
    apply find_some in Hf as [Hs Hm].
    assert (Hs' : s ∈ List.filter enabled (schedules st)).
    { apply Hin. split; [by apply list_elem_of_In|].
      unfold matches in Hm. by destruct (enabled s). }
    rewrite Hnone in Hs'. by apply elem_of_nil in Hs'.
Qed.

(** X9.  A lesson returned by [fetchLessonContent] is labelled as
    high-school material on the home screen, whatever its text: the label
    has two cases, and the category ['custom'] falls into the second. *)
Theorem fetched_lesson_label (lessonName rnd : string) (data : Result JSON)
  (lesson : Lesson) :
  fetchLessonContent lessonName rnd data = Some lesson ->
  category_label (category lesson) = "高中必背".
Proof.
  unfold fetchLessonContent. destruct data as [e|d]; [done|].
  destruct (get_prop d "title") as [e|t]; [done|].
  destruct (get_prop d "sentences") as [e|ss]; [done|].
  destruct (map_sentences ss) as [e|sents]; [done|].
  intros [= <-]. reflexivity.
Qed.

(** The theorem at an English payload. *)
Lemma fetched_lesson_label_witness :
  category_label
    (category {| id := "k3x9"; title := JStr "If"; category := "custom";
                 sentences := [] |}) = "高中必背".
Proof.
  apply (fetched_lesson_label "If" "k3x9"
           (inr (JObj (<["title" := JStr "If"]> ∅)))).
  reflexivity.
Defined.

End HomeFacts.

(* ===================================================================== *)
(** * Runs of the narration engine: position, pausing, a whole lesson *)
(* ===================================================================== *)

Module EngineRuns.

Import WebAudio Engine Narration EngineFacts.

(** ** Device operations keep the indices of the handlers *)

Lemma handlers_ok_issue op f n (d : Device Handler) :
  (forall x, onended (f x) = onended x \/ onended (f x) = None) ->
  handlers_ok d -> handlers_ok (issue op f n d).
Proof.
  intros Hf Hd. unfold handlers_ok, issue. cbn [nodes].
  apply Forall_alter; [done|]. intros x _ Hx.
  destruct (Hf x) as [-> | ->]; done.
Qed.

Lemma handlers_ok_stop n (d d' : Device Handler) :
  stop n d = inr d' -> handlers_ok d -> handlers_ok d'.
Proof.
  unfold stop. destruct (nodes d !! n) as [x|]; [|done].
  destruct (playback x); try done; intros [= <-];
    apply handlers_ok_issue; intros y; by left.
Qed.

Lemma handlers_ok_stopAllAudio s :
  handlers_ok (device s) -> handlers_ok (device (stopAllAudio s)).
Proof.
  intros Hd. unfold stopAllAudio.
  destruct (currentSourceRef s) as [r|]; fsimpl; [|done].
  assert (Hdet : handlers_ok (detach r (device s))).
  { apply handlers_ok_issue; [|done]. intros x. by right. }
  destruct (stop r (detach r (device s))) as [e|d] eqn:Hstop; fsimpl; [done|].
  apply handlers_ok_issue; [intros x; by left|].
  by eapply handlers_ok_stop.
Qed.

Lemma handlers_ok_new_source buf h s :
  nonneg (handler_index (Some h)) -> handlers_ok (device s) ->
  handlers_ok (device (new_source buf h s).2).
Proof.
  intros Hh Hd. pose proof (new_source_lookup buf h s) as Hn.
  destruct (new_source buf h s) as [n t]. cbn [snd].
  destruct Hn as (_ & Hnodes & _). unfold handlers_ok. rewrite Hnodes.
  apply Forall_app. split; [done|]. by constructor.
Qed.

Lemma handlers_ok_start n (d : Device Handler) :
  handlers_ok d -> handlers_ok (start n d).
Proof. apply handlers_ok_issue. intros x. by left. Qed.

Lemma handlers_ok_dispatch n (d d' : Device Handler) h :
  dispatch_ended n d = Some (h, d') -> handlers_ok d ->
  handlers_ok d' /\ nonneg (handler_index h).
Proof.
  unfold dispatch_ended. intros Hdisp Hd.
  destruct (nodes d !! n) as [x|] eqn:Hx; [|done].
  assert (Hx' : nonneg (handler_index (onended x))).
  { by eapply (proj1 (Forall_lookup _ _) Hd). }
  assert (Halt : handlers_ok
            {| nodes := alter (fun s0 => {| buffer := buffer s0;
                                            onended := onended s0;
                                            playback := Ended;
                                            connected := connected s0 |})
                          n (nodes d);
               log := log d |}).
  { unfold handlers_ok. cbn [nodes]. apply Forall_alter; [done|]. by intros y _. }
  destruct (playback x); try done; by injection Hdisp as <- <-.
Qed.

Section Player.

Variable sentences : list Sentence.

Abbreviation step := (step sentences).
Abbreviation run := (run sentences).
Abbreviation effect := (effect sentences).
Abbreviation handle := (handle sentences).
Abbreviation len := (len sentences).
Abbreviation indices_ok := (indices_ok sentences).

(** ** The position stays an index of the lesson *)

Lemma sentence_at_nonneg index sentence :
  sentence_at sentences index = Some sentence -> 0 <= index < len.
Proof.
  unfold sentence_at, Engine.len. destruct (Z.ltb_spec index 0); [done|].
  intros Hl. apply lookup_lt_Some in Hl. lia.
Qed.

Lemma io_stopAllAudio s : indices_ok s -> indices_ok (stopAllAudio s).
Proof.
  intros (Hi & Hp & Hd).
  pose proof (stopAllAudio_frame s) as F. cbv zeta in F.
  destruct F as (Fi & _ & _ & _ & _ & _ & _ & Fp & _).
  split; [by rewrite Fi|]. split; [by rewrite Fp|].
  by apply handlers_ok_stopAllAudio.
Qed.

Lemma io_playNextSentence c index s :
  indices_ok s -> indices_ok (playNextSentence sentences c index s).
Proof.
  intros (Hi & Hp & Hd). unfold playNextSentence.
  destruct (negb (c_isPlaying c) || negb (isComponentMounted s)); [done|].
  destruct (sentence_at sentences index) as [sentence|] eqn:Hs; [|done].
  apply sentence_at_nonneg in Hs.
  split; [done|]. split; [|done]. fsimpl.
  apply Forall_app. split; [done|]. constructor; [simpl; lia | done].
Qed.

Lemma io_effect s : indices_ok s -> indices_ok (effect s).
Proof.
  intros Hs. unfold Engine.effect. destruct (isPlaying s).
  - by apply io_playNextSentence.
  - destruct (negb (truthy_id (activeSpeechId s))); [by apply io_stopAllAudio | done].
Qed.

Lemma io_settle k s : indices_ok s -> indices_ok (settle k s).
Proof.
  intros (Hi & Hp & Hd). split; [done|]. split; [|done]. fsimpl.
  by apply Forall_insert.
Qed.

Lemma io_speakSentence_resume id audioBytes s :
  indices_ok s -> indices_ok (speakSentence_resume id audioBytes s).
Proof.
  intros Hs. unfold speakSentence_resume.
  destruct (negb (isComponentMounted s)); [done|].
  destruct audioBytes as [bytes|]; [|done].
  destruct (PCM.decodeAudioData (PCM.fresh bytes)) as [e|buf]; [done|].
  destruct Hs as (Hi & Hp & Hd).
  pose proof (handlers_ok_new_source buf ClearActiveSpeech
                (setLoadingSpeechId None s) I Hd) as Hh.
  pose proof (new_source_lookup buf ClearActiveSpeech
                (setLoadingSpeechId None s)) as Hn.
  destruct (new_source buf ClearActiveSpeech (setLoadingSpeechId None s))
    as [n t].
  destruct Hn as (_ & _ & _ & Hci & _ & _ & _ & _ & Hpe & _). cbn [snd] in Hh.
  split; [|split]; fsimpl.
  - by rewrite Hci.
  - by rewrite Hpe.
  - by apply handlers_ok_start.
Qed.

Lemma io_playNextSentence_resume c index audioBytes s :
  0 <= index -> indices_ok s ->
  indices_ok (playNextSentence_resume c index audioBytes s).
Proof.
  intros Hindex Hs. unfold playNextSentence_resume.
  destruct (negb (isComponentMounted s) || negb (c_isPlaying c)); [done|].
  destruct Hs as (Hi & Hp & Hd).
  destruct audioBytes as [bytes|].
  - destruct (PCM.decodeAudioData (PCM.fresh bytes)) as [e|buf]; [done|].
    pose proof (handlers_ok_new_source buf (AutoAdvance c index)
                  (setLoadingAudio false s) Hindex Hd) as Hh.
    pose proof (new_source_lookup buf (AutoAdvance c index)
                  (setLoadingAudio false s)) as Hn.
    destruct (new_source buf (AutoAdvance c index) (setLoadingAudio false s))
      as [n t].
    destruct Hn as (_ & _ & _ & Hci & _ & _ & _ & _ & Hpe & _). cbn [snd] in Hh.
    frame (stopAllAudio_frame t).
    split; [|split]; fsimpl.
    + congruence.
    + congruence.
    + by apply handlers_ok_start, handlers_ok_stopAllAudio.
  - split; [done|]. split; [|done]. fsimpl.
    apply Forall_app. split; [done|]. by constructor.
Qed.

Lemma io_run_handler h s :
  nonneg (handler_index (Some h)) -> indices_ok s ->
  indices_ok (run_handler sentences h s).
Proof.
  intros Hh Hs. destruct h as [|c index]; [done|]. cbn [run_handler].
  destruct (negb (isComponentMounted s)); [done|].
  destruct (c_isLooping c); [by apply io_playNextSentence|].
  destruct (Z.ltb_spec (index + 1) len); [|done].
  destruct Hs as (Hi & Hp & Hd). split; [|done].
  fsimpl. simpl in Hh. unfold Nav.valid_index. lia.
Qed.

Lemma io_handle e s :
  0 < len -> indices_ok s -> indices_ok (handle e s).
Proof.
  intros Hlen Hs.
  destruct e as [| | | |text id|k audioBytes|k|n]; cbn [Engine.handle].
  - unfold toggleAutoPlay.
    destruct (truthy_id (activeSpeechId s)); [|done].
    by apply (io_stopAllAudio s).
  - done.
  - destruct Hs as (Hi & Hp & Hd). split; [|done]. fsimpl.
    unfold Nav.valid_index, Nav.prev_click in *.
    destruct (Z.eqb_spec (currentIndex s) 0); lia.
  - destruct Hs as (Hi & Hp & Hd). split; [|done]. fsimpl.
    unfold Nav.valid_index, Nav.next_click in *.
    destruct (Z.eqb_spec (currentIndex s) (len - 1)); lia.
  - unfold speakSentence.
    destruct (io_stopAllAudio s Hs) as (Hi & Hp & Hd).
    split; [done|]. split; [|done]. fsimpl.
    apply Forall_app. split; [done|]. by constructor.
  - destruct (pending s !! k) as [[text id|c i text|i|]|] eqn:Hk; try done.
    + by apply io_speakSentence_resume, io_settle.
    + apply io_playNextSentence_resume; [|by apply io_settle].
      destruct Hs as (_ & Hp & _).
      by apply (proj1 (Forall_lookup _ _) Hp k _ Hk).
  - destruct (pending s !! k) as [[text id|c i text|i|]|] eqn:Hk; try done.
    assert (Hi : 0 <= i).
    { destruct Hs as (_ & Hp & _).
      by apply (proj1 (Forall_lookup _ _) Hp k _ Hk). }
    destruct (io_settle k s Hs) as (Hv & Hp & Hd).
    unfold skip_failed. destruct (Z.ltb_spec (i + 1) len); [|done].
    split; [|done]. fsimpl. unfold Nav.valid_index. lia.
  - destruct (dispatch_ended n (device s)) as [[h d]|] eqn:Hd; [|done].
    destruct Hs as (Hi & Hp & Hdev).
    destruct (handlers_ok_dispatch n (device s) d h Hd Hdev) as [Hd' Hh].
    assert (Hs' : indices_ok (on_device (fun _ => d) s)) by done.
    destruct h as [h|]; [|done]. by apply io_run_handler.
Qed.

Lemma io_step s e : 0 < len -> indices_ok s -> indices_ok (step s e).
Proof.
  intros Hlen Hs. unfold Engine.step, commit.
  case_decide; [by apply io_handle | by apply io_effect, io_handle].
Qed.

(** X10.  On a lesson with at least one unit the position is an index of
    the lesson in every state the player can reach, whatever the listener
    does and whenever speech, timers and completions arrive: every
    advance is guarded by the length of the lesson, and the indices kept by
    suspended requests, timers and completion handlers are never negative. *)
Theorem position_stays_valid (es : list Event) :
  0 < len ->
  Nav.valid_index len (currentIndex (run init es)) /\
  pending_ok (pending (run init es)) /\ handlers_ok (device (run init es)).
Proof.
  intros Hlen.
  assert (H : forall s, indices_ok s -> indices_ok (run s es)).
  { induction es as [|e es IH]; intros s Hs; [done|].
    simpl. by apply IH, io_step. }
  apply H. split; [|split].
  - unfold Nav.valid_index. simpl. lia.
  - constructor.
  - constructor.
Qed.

(** ** Pausing *)

Lemma narration_run es : forall s,
  Forall (fun e => is_point_read e = false) es ->
  ref_owns_sound s /\ no_point_read_pending s ->
  ref_owns_sound (run s es) /\ no_point_read_pending (run s es).
Proof.
  induction es as [|e es IH]; intros s Hes Hs; [done|].
  apply Forall_cons in Hes as [He Hes]. simpl.
  apply IH; [done|]. by apply narration_step.
Qed.

Lemma narration_init : ref_owns_sound init /\ no_point_read_pending init.
Proof. split; [intros n node Hn; done | intros k text id Hk; done]. Qed.

Lemma silent_ref_owns_sound s : silent s -> ref_owns_sound s.
Proof. intros Hs n node Hn Hp. by destruct (Hs n node Hn). Qed.

Lemma commit_changed before after :
  deps before <> deps after ->
  commit sentences before after = effect after.
Proof. intros H. unfold commit. by rewrite decide_False. Qed.

(** X11.  Pausing narration silences the player.  In a run without point
    reads, pressing the play button while narration is on turns narration
    off, stops the current source and leaves no source sounding and none
    current; the position and the pending requests are untouched. *)
Theorem pause_silences (es : list Event) :
  Forall (fun e => is_point_read e = false) es ->
  isPlaying (run init es) = true ->
  let s := run init es in
  let s' := step s ToggleAutoPlay in
  isPlaying s' = false /\ silent s' /\ currentSourceRef s' = None /\
  activeSpeechId s' = None /\ currentIndex s' = currentIndex s /\
  pending s' = pending s.
Proof.
  intros Hes Hplay s s'. subst s'.
  destruct (narration_run es init Hes narration_init) as [Hros _].
  fold s in Hros, Hplay.
  unfold Engine.step. cbn [Engine.handle]. unfold toggleAutoPlay.
  rewrite Hplay. cbn [negb].
  set (t := if truthy_id (activeSpeechId s) then stopAllAudio s else s).
  assert (Ht : ref_owns_sound t /\ currentIndex t = currentIndex s /\
               pending t = pending s /\
               truthy_id (activeSpeechId t) = false).
  { subst t. destruct (truthy_id (activeSpeechId s)) eqn:Ha; [|done].
    pose proof (stopAllAudio_frame s) as F. cbv zeta in F.
    destruct F as (Fi & _ & _ & _ & _ & _ & _ & Fp & Fa & _).
    split; [by apply ros_stopAllAudio|]. rewrite Fa. done. }
  destruct Ht as (Hrt & Hit & Hpt & Hat).
  rewrite commit_changed.
  2:{ unfold deps. fsimpl. rewrite Hplay. intros [= _ ? _]. }
  rewrite effect_stopped by (fsimpl; done).
  assert (Hrt' : ref_owns_sound (setIsPlaying false t)).
  { intros n node. fsimpl. apply Hrt. }
  pose proof (stopAllAudio_frame (setIsPlaying false t)) as F. cbv zeta in F.
  destruct F as (Fi & Fpl & _ & _ & _ & _ & _ & Fp & Fa & Fr & _). fsimpl.
  split; [done|]. split.
  { intros n node. by apply silent_after_stopAllAudio. }
  repeat split; congruence.
Qed.

(** ** After the component is unmounted *)

(** [stopAllAudio] starts nothing: a node that sounds afterwards sounded
    before. *)
Lemma stopAllAudio_starts_nothing s n node :
  nodes (device (stopAllAudio s)) !! n = Some node -> playback node = Sounding ->
  nodes (device s) !! n = Some node.
Proof.
  intros Hn Hp.
  destruct (decide (currentSourceRef s = Some n)) as [Hr|Hr].
  - destruct (nodes (device s) !! n) as [x|] eqn:Hx.
    + destruct (stopAllAudio_current s n x Hr Hx) as (y & Hy & _ & Hny & _).
      congruence.
    + apply lookup_ge_None in Hx. apply lookup_lt_Some in Hn.
      pose proof (stopAllAudio_frame s) as F. cbv zeta in F.
      destruct F as (_ & _ & _ & _ & _ & _ & _ & _ & _ & _ & Flen). lia.
  - by rewrite stopAllAudio_other in Hn.
Qed.

Lemma effect_unmounted s :
  isComponentMounted s = false ->
  isComponentMounted (effect s) = false /\ pending (effect s) = pending s /\
  currentIndex (effect s) = currentIndex s /\
  forall n node, nodes (device (effect s)) !! n = Some node ->
    playback node = Sounding -> nodes (device s) !! n = Some node.
Proof.
  intros Hm. unfold Engine.effect. destruct (isPlaying s).
  - unfold playNextSentence. rewrite Hm, orb_true_r. done.
  - destruct (negb (truthy_id (activeSpeechId s))); [|done].
    pose proof (stopAllAudio_frame s) as F. cbv zeta in F.
    destruct F as (Fi & _ & _ & _ & _ & _ & Fm & Fp & _).
    repeat split; try congruence. apply stopAllAudio_starts_nothing.
Qed.

(** X22.  After the component is unmounted nothing is started.  Speech that
    arrives late, a timer that fires and a source that ends find the mounted
    flag cleared: no source node is created, no node that was silent sounds,
    no speech is requested and no timer is armed. *)
Theorem unmounted_starts_nothing (s : State) (e : Event) :
  isComponentMounted s = false -> is_arrival e = true ->
  let s' := step s e in
  isComponentMounted s' = false /\
  length (nodes (device s')) = length (nodes (device s)) /\
  length (pending s') = length (pending s) /\
  (forall k, pending s' !! k = pending s !! k \/ pending s' !! k = Some Settled) /\
  forall n node, nodes (device s') !! n = Some node -> playback node = Sounding ->
    exists node0, nodes (device s) !! n = Some node0 /\ playback node0 = Sounding.
Proof.
  intros Hm He s'. subst s'.
  assert (Hh : isComponentMounted (handle e s) = false /\
               length (nodes (device (handle e s))) =
                 length (nodes (device s)) /\
               length (pending (handle e s)) = length (pending s) /\
               (forall k, pending (handle e s) !! k = pending s !! k \/
                          pending (handle e s) !! k = Some Settled) /\
               forall n node,
                 nodes (device (handle e s)) !! n = Some node ->
                 playback node = Sounding ->
                 exists node0, nodes (device s) !! n = Some node0 /\
                               playback node0 = Sounding).
  { assert (Hsettle : forall j k,
              <[j := Settled]> (pending s) !! k = pending s !! k \/
              <[j := Settled]> (pending s) !! k = Some Settled).
    { intros j k. destruct (decide (j = k)) as [->|Hne].
      - destruct (pending s !! k) eqn:Hk.
        + right. apply list_lookup_insert_eq. by eapply lookup_lt_Some.
        + left. apply lookup_ge_None. rewrite length_insert.
          by apply lookup_ge_None.
      - left. by apply list_lookup_insert_ne. }
    destruct e as [| | | |text id|k audioBytes|k|n]; try done; cbn [Engine.handle].
    - destruct (pending s !! k) as [[text id|c i text|i|]|] eqn:Hk;
        try (repeat split; try done; [by left | by eauto]).
      + unfold speakSentence_resume. fsimpl. rewrite Hm. cbn [negb]. fsimpl.
        rewrite length_insert. repeat split; try done; eauto.
      + unfold playNextSentence_resume. fsimpl. rewrite Hm. cbn [negb orb]. fsimpl.
        rewrite length_insert. repeat split; try done; eauto.
    - destruct (pending s !! k) as [[text id|c i text|i|]|] eqn:Hk;
        try (repeat split; try done; [by left | by eauto]).
      unfold skip_failed. destruct (i + 1 <? len); fsimpl;
        rewrite length_insert; repeat split; try done; eauto.
    - unfold dispatch_ended.
      destruct (nodes (device s) !! n) as [x|] eqn:Hx;
        [|repeat split; try done; [by left | by eauto]].
      assert (Hquiet : forall m node,
                alter (fun s0 : SourceNode Handler =>
                         {| buffer := buffer s0; onended := onended s0;
                            playback := Ended; connected := connected s0 |})
                      n (nodes (device s)) !! m = Some node ->
                playback node = Sounding ->
                exists node0, nodes (device s) !! m = Some node0 /\
                              playback node0 = Sounding).
      { intros m node. rewrite list_lookup_alter. case_decide as Hmn.
        - subst m. rewrite Hx. simpl. by intros [= <-].
        - eauto. }
      destruct (playback x);
        try (repeat split; try done; [by left | by eauto]);
        (destruct (onended x) as [[|c i]|]; cbn [run_handler]; fsimpl;
         rewrite ?Hm; cbn [negb]; fsimpl; cbn [nodes];
         rewrite ?length_alter; repeat split; try done; try (by left);
         apply Hquiet). }
  destruct Hh as (H1 & H2 & H3 & H4 & H5).
  unfold Engine.step, commit. case_decide; [done|].
  destruct (effect_unmounted _ H1) as (E1 & E2 & E3 & E4).
  split; [done|]. split.
  { rewrite <- H2. unfold Engine.effect. destruct (isPlaying _).
    - pose proof (playNextSentence_frame sentences
        {| c_isPlaying := true;
           c_isLooping := isLooping (handle e s) |}
        (currentIndex (handle e s)) (handle e s)) as F.
      cbv zeta in F. destruct F as (_ & _ & _ & _ & _ & _ & _ & ->). done.
    - destruct (negb _); [|done].
      pose proof (stopAllAudio_frame (handle e s)) as F. cbv zeta in F.
      by destruct F as (_ & _ & _ & _ & _ & _ & _ & _ & _ & _ & ->). }
  rewrite E2. split; [done|]. split; [done|].
  intros n node Hn Hp. apply (H5 n node); [|done]. by apply E4.
Qed.

(** ** Narration of a whole lesson *)

Abbreviation narrate := (narrate sentences).
Abbreviation deliver := (deliver sentences).
Abbreviation awaiting := (awaiting sentences).

(** The closure of the render in which narration is on and loop mode off. *)
Abbreviation forward := {| c_isPlaying := true; c_isLooping := false |}.

Lemma sentence_at_nat j : sentence_at sentences (Z.of_nat j) = sentences !! j.
Proof.
  unfold sentence_at. destruct (Z.ltb_spec (Z.of_nat j) 0); [lia|].
  by rewrite Nat2Z.id.
Qed.

(** The effect of a render that narrates unit [j] requests its speech. *)
Lemma effect_requests j sentence a :
  isPlaying a = true -> isLooping a = false -> isComponentMounted a = true ->
  currentIndex a = Z.of_nat j -> sentences !! j = Some sentence ->
  effect a =
    suspend (AutoAwait forward (Z.of_nat j) (full_text sentence))
      (setStatusMsg (Some (msg_studying (Z.of_nat j))) (setLoadingAudio true a)).
Proof.
  intros Hp Hl Hm Hi Hs. unfold Engine.effect, playNextSentence.
  rewrite Hp, Hl, Hi, Hm, sentence_at_nat, Hs. done.
Qed.

Lemma awaiting_requested j sentence a :
  isPlaying a = true -> isLooping a = false -> isComponentMounted a = true ->
  activeSpeechId a = None ->
  currentIndex a = Z.of_nat j -> sentences !! j = Some sentence ->
  silent a ->
  (forall r, currentSourceRef a = Some r -> (r < length (nodes (device a)))%nat) ->
  awaiting j (effect a).
Proof.
  intros Hp Hl Hm Ha Hi Hs Hsil Hr.
  rewrite (effect_requests j sentence) by done.
  unfold Narration.awaiting. fsimpl.
  repeat (split; [done|]). by exists (pending a), sentence.
Qed.

(** The last unit has been narrated (or skipped): narration is off and
    nothing sounds. *)
Lemma finished_stopped a :
  ref_owns_sound a -> isPlaying a = false -> activeSpeechId a = None ->
  isPlaying (effect a) = false /\ currentIndex (effect a) = currentIndex a /\
  silent (effect a) /\ currentSourceRef (effect a) = None /\
  statusMsg (effect a) = statusMsg a.
Proof.
  intros Hros Hp Ha. rewrite effect_stopped by (by rewrite ?Ha).
  pose proof (stopAllAudio_frame a) as F. cbv zeta in F.
  destruct F as (Fi & Fpl & _ & _ & _ & Fs & _ & _ & _ & Fr & _).
  repeat split; try congruence.
  intros n node. by apply silent_after_stopAllAudio.
Qed.

(** One delivery: the speech of unit [j] arrives (or fails), and narration
    moves to unit [j + 1] or, after the last unit, ends. *)
Lemma deliver_awaiting j s outcome :
  awaiting j s -> no_point_read_pending s -> playable outcome ->
  no_point_read_pending (deliver s outcome) /\
  ((S j < length sentences)%nat -> awaiting (S j) (deliver s outcome)) /\
  ((length sentences <= S j)%nat ->
     isPlaying (deliver s outcome) = false /\
     currentIndex (deliver s outcome) = Z.of_nat j /\
     silent (deliver s outcome) /\ currentSourceRef (deliver s outcome) = None /\
     (is_Some outcome -> statusMsg (deliver s outcome) = Some msg_finished)).
Proof.
  intros (Hm & Hp & Hl & Ha & Hi & Hsil & Hr & p & sentence & Hs & Hpe) Hn Hplay.
  pose proof (silent_ref_owns_sound s Hsil) as Hros.
  assert (Hk : pending s !! length p =
               Some (AutoAwait forward (Z.of_nat j) (full_text sentence))).
  { rewrite Hpe. by apply list_lookup_middle. }
  assert (Hlen : length (pending s) = S (length p)).
  { rewrite Hpe, length_app. simpl. lia. }
  assert (Hnext : Z.of_nat j + 1 = Z.of_nat (S j)) by lia.
  unfold Narration.deliver. rewrite Hlen. cbn [Nat.pred].
  destruct outcome as [audio|].
  - (* the speech arrives and its source plays to the end *)
    simpl in Hplay.
    pose proof (auto_settled_ok sentences s (length p) forward (Z.of_nat j)
                  (full_text sentence) audio Hm eq_refl Ha Hr Hk Hplay) as H1.
    cbv zeta in H1.
    destruct (narration_step sentences s (SpeechSettled (length p) (Some audio))
                eq_refl (conj Hros Hn)) as [Hros1 Hn1].
    set (s1 := step s (SpeechSettled (length p) (Some audio))) in *.
    destruct H1 as (Hi1 & Hp1 & Hl1 & Hm1 & Ha1 & Hr1 & Hpe1 & buf & Hsrc).
    rewrite Hr1.
    destruct (narration_step sentences s1 (SourceEnded (length (nodes (device s))))
                eq_refl (conj Hros1 Hn1)) as [_ Hn2].
    split; [done|].
    unfold Engine.step in *. cbn [Engine.handle] in *.
    assert (Hdisp : exists d,
              dispatch_ended (length (nodes (device s))) (device s1) =
                Some (Some (AutoAdvance forward (Z.of_nat j)), d) /\
              forall m node, nodes d !! m = Some node -> playback node <> Sounding).
    { unfold dispatch_ended. rewrite Hsrc. cbn [playback onended].
      eexists. split; [reflexivity|]. cbn [nodes]. intros m node.
      rewrite list_lookup_alter. case_decide as Hmeq.
      - subst m. rewrite Hsrc. simpl. by intros [= <-].
      - intros Hnode Hsound. apply Hmeq.
        pose proof (Hros1 m node Hnode Hsound) as Hc. congruence. }
    destruct Hdisp as (d & Hd & Hquiet). rewrite Hd in *.
    cbn [run_handler c_isLooping]. fsimpl. rewrite Hm1. cbn [negb].
    assert (Hrange : forall r, currentSourceRef s1 = Some r ->
                               (r < length (nodes d))%nat).
    { intros r. rewrite Hr1. intros [= <-].
      unfold dispatch_ended in Hd. rewrite Hsrc in Hd. cbn [playback] in Hd.
      injection Hd as <-. cbn [nodes]. rewrite length_alter.
      by eapply lookup_lt_Some. }
    split.
    + intros Hlt. rewrite Hnext.
      destruct (Z.ltb_spec (Z.of_nat (S j)) len) as [_|Hge];
        [|unfold Engine.len in Hge; lia].
      destruct (lookup_lt_is_Some_2 sentences (S j) Hlt) as [sentence' Hs'].
      rewrite commit_changed by (unfold deps; fsimpl; rewrite Hi1, Hi; intros [= ?]; lia).
      apply (awaiting_requested (S j) sentence'); fsimpl; try done; congruence.
    + intros Hge. rewrite Hnext.
      destruct (Z.ltb_spec (Z.of_nat (S j)) len) as [Hlt|_];
        [unfold Engine.len in Hlt; lia|].
      rewrite commit_changed
        by (unfold deps; fsimpl; rewrite Hp1, Hp; intros [= ?]).
      match goal with
      | |- context [effect ?a] =>
          destruct (finished_stopped a) as (F1 & F2 & F3 & F4 & F5)
      end.
      { intros m node. fsimpl. intros Hnode Hsound.
        by destruct (Hquiet m node Hnode). }
      { done. }
      { fsimpl. done. }
      rewrite F1, F2, F4, F5. fsimpl. rewrite Hi1, Hi.
      repeat split; done.
  - (* the request fails and its timer fires *)
    destruct (narration_step sentences s (SpeechSettled (length p) None)
                eq_refl (conj Hros Hn)) as [Hros1 Hn1].
    destruct (narration_step sentences
                (step s (SpeechSettled (length p) None))
                (TimerFired (S (length p))) eq_refl (conj Hros1 Hn1)) as [_ Hn2].
    split; [done|]. clear Hros1 Hn1 Hn2.
    assert (H1 : step s (SpeechSettled (length p) None) =
                 suspend (SkipTimer (Z.of_nat j))
                   (setLoadingAudio false (settle (length p) s))).
    { unfold Engine.step. cbn [Engine.handle]. rewrite Hk.
      unfold playNextSentence_resume. fsimpl. rewrite Hm. cbn [negb orb c_isPlaying].
      by rewrite commit_same. }
    rewrite H1. unfold Engine.step. cbn [Engine.handle]. fsimpl.
    assert (Ht : (<[length p := Settled]> (pending s) ++ [SkipTimer (Z.of_nat j)])
                   !! S (length p) = Some (SkipTimer (Z.of_nat j))).
    { apply list_lookup_middle. rewrite length_insert. done. }
    rewrite Ht. unfold skip_failed. fsimpl. rewrite Hnext.
    split.
    + intros Hlt.
      destruct (Z.ltb_spec (Z.of_nat (S j)) len) as [_|Hge];
        [|unfold Engine.len in Hge; lia].
      destruct (lookup_lt_is_Some_2 sentences (S j) Hlt) as [sentence' Hs'].
      rewrite commit_changed by (unfold deps; fsimpl; rewrite Hi; intros [= ?]; lia).
      apply (awaiting_requested (S j) sentence'); fsimpl; done.
    + intros Hge.
      destruct (Z.ltb_spec (Z.of_nat (S j)) len) as [Hlt|_];
        [unfold Engine.len in Hlt; lia|].
      rewrite commit_changed by (unfold deps; fsimpl; rewrite Hp; intros [= ?]).
      match goal with
      | |- context [effect ?a] =>
          destruct (finished_stopped a) as (F1 & F2 & F3 & F4 & F5)
      end.
      { intros m node. fsimpl. apply Hros. }
      { done. }
      { fsimpl. done. }
      rewrite F1, F2, F4. fsimpl.
      repeat split; try done; by intros [? ?].
Qed.

(** X19.  Speech requested before a pause is played when it arrives.
    Narration of unit [j] has been requested and the listener pauses: the
    player goes silent.  When the speech then arrives, the guard after the
    request reads the [isPlaying] of the render that made the request, so a
    source is started and sounds although narration is off; its completion
    handler is the one of that render. *)
Theorem paused_request_still_plays (j : nat) (s : State) (audio : list byte) :
  awaiting j s -> (2 <= length audio)%nat ->
  let paused := step s ToggleAutoPlay in
  let s' := step paused (SpeechSettled (Nat.pred (length (pending s))) (Some audio)) in
  (isPlaying paused = false /\ silent paused /\ pending paused = pending s) /\
  isPlaying s' = false /\ currentIndex s' = Z.of_nat j /\
  exists src node,
    currentSourceRef s' = Some src /\ nodes (device s') !! src = Some node /\
    playback node = Sounding /\
    onended node = Some (AutoAdvance forward (Z.of_nat j)).
Proof.
  intros (Hm & Hp & Hl & Ha & Hi & Hsil & Hr & p & sentence & Hs & Hpe) Haudio
    paused s'.
  assert (Hpaused : paused = stopAllAudio (setIsPlaying false s)).
  { subst paused. unfold Engine.step. cbn [Engine.handle]. unfold toggleAutoPlay.
    rewrite Ha, Hp. cbn [truthy_id negb].
    rewrite commit_changed by (unfold deps; fsimpl; rewrite Hp; intros [= ?]).
    apply effect_stopped; fsimpl; [done | by rewrite Ha]. }
  pose proof (stopAllAudio_frame (setIsPlaying false s)) as F. cbv zeta in F.
  rewrite <- Hpaused in F. fsimpl.
  destruct F as (Fi & Fpl & Fl & _ & _ & _ & Fm & Fpe & Fa & Fr & _).
  assert (Hquiet : silent paused).
  { rewrite Hpaused. intros n node. apply silent_after_stopAllAudio.
    intros m x. fsimpl. by apply silent_ref_owns_sound. }
  split; [done|].
  assert (Hk : pending paused !! Nat.pred (length (pending s)) =
               Some (AutoAwait forward (Z.of_nat j) (full_text sentence))).
  { rewrite Fpe, Hpe, length_app. cbn [length].
    replace (Nat.pred (length p + 1)) with (length p) by lia.
    by apply list_lookup_middle. }
  pose proof (auto_settled_ok sentences paused _ forward (Z.of_nat j)
                (full_text sentence) audio ltac:(congruence) eq_refl Fa
                ltac:(intros r; rewrite Fr; done) Hk Haudio) as H1.
  cbv zeta in H1. fold s' in H1.
  destruct H1 as (Hi1 & Hp1 & _ & _ & _ & Hr1 & _ & buf & Hsrc).
  split; [congruence|]. split; [congruence|].
  eexists _, _. split; [exact Hr1|]. split; [exact Hsrc|]. done.
Qed.

(** ** The controls during narration *)

(** A press of the loop switch or of a navigation control that changes a
    dependency of the playback effect makes it request the unit at the new
    position, and leaves the device alone. *)
Lemma rerun_requests (s : State) (e : Event) (j : nat) (sentence : Sentence) :
  isComponentMounted s = true -> isPlaying s = true ->
  e = ToggleLoop \/ e = PrevClick \/ e = NextClick ->
  deps (handle e s) <> deps s ->
  currentIndex (handle e s) = Z.of_nat j -> sentences !! j = Some sentence ->
  pending (step s e) = pending s ++
    [AutoAwait {| c_isPlaying := true; c_isLooping := isLooping (handle e s) |}
               (Z.of_nat j) (full_text sentence)] /\
  currentIndex (step s e) = Z.of_nat j /\ isPlaying (step s e) = true /\
  device (step s e) = device s /\
  currentSourceRef (step s e) = currentSourceRef s.
Proof.
  intros Hm Hp He Hdeps Hj Hs.
  assert (Hh : isPlaying (handle e s) = true /\
               isComponentMounted (handle e s) = true /\
               pending (handle e s) = pending s /\
               device (handle e s) = device s /\
               currentSourceRef (handle e s) = currentSourceRef s).
  { destruct He as [->|[->| ->]]; cbn [Engine.handle]; fsimpl; done. }
  destruct Hh as (H1 & H2 & H3 & H4 & H5).
  unfold Engine.step. rewrite commit_changed by congruence.
  unfold Engine.effect, playNextSentence.
  rewrite H1, H2, Hj, sentence_at_nat, Hs. cbn [negb orb c_isPlaying]. fsimpl.
  rewrite H3. done.
Qed.

(** X23.  The loop switch and the previous / next controls during
    narration.  Switching loop mode requests the speech of the current unit
    once more, with the new loop flag; a press of "previous" or "next" that
    moves the position requests the speech of the unit moved to.  Either way
    the audio device is not touched: the source that sounds keeps sounding
    until the requested speech arrives. *)
Theorem controls_during_narration (s : State) (j : nat) (sentence : Sentence) :
  isComponentMounted s = true -> isPlaying s = true ->
  sentences !! j = Some sentence ->
  (currentIndex s = Z.of_nat j ->
     let s' := step s ToggleLoop in
     isLooping s' = negb (isLooping s) /\ currentIndex s' = currentIndex s /\
     pending s' = pending s ++
       [AutoAwait {| c_isPlaying := true; c_isLooping := negb (isLooping s) |}
                  (Z.of_nat j) (full_text sentence)] /\
     device s' = device s /\ currentSourceRef s' = currentSourceRef s) /\
  (forall e, e = PrevClick \/ e = NextClick ->
     let s' := step s e in
     currentIndex s' = Z.of_nat j -> currentIndex s <> Z.of_nat j ->
     isLooping s' = isLooping s /\
     pending s' = pending s ++
       [AutoAwait {| c_isPlaying := true; c_isLooping := isLooping s |}
                  (Z.of_nat j) (full_text sentence)] /\
     device s' = device s /\ currentSourceRef s' = currentSourceRef s).
Proof.
  intros Hm Hp Hs. split.
  - intros Hj s'. subst s'.
    destruct (rerun_requests s ToggleLoop j sentence Hm Hp) as (R1 & R2 & _ & R4 & R5);
      [by left | | done | done |].
    { unfold deps. cbn [Engine.handle]. fsimpl. intros [= ?].
      by destruct (isLooping s). }
    destruct (commit_frame sentences s (handle ToggleLoop s)) as (_ & _ & C3 & _).
    split; [exact C3|]. split; [by rewrite R2|]. split; [exact R1|]. done.
  - intros e He s' Hj Hne. subst s'.
    destruct (commit_frame sentences s (handle e s)) as (C1 & _ & C3 & _).
    assert (Hj' : currentIndex (handle e s) = Z.of_nat j) by (by rewrite <- C1).
    assert (Hl : isLooping (handle e s) = isLooping s).
    { destruct He as [->| ->]; done. }
    destruct (rerun_requests s e j sentence Hm Hp) as (R1 & _ & _ & R4 & R5);
      [by right | | done | done |].
    { unfold deps. rewrite Hj'. intros [= ?]. congruence. }
    rewrite Hl in R1.
    split; [by rewrite <- Hl|]. split; [exact R1|]. done.
Qed.

(** Pressing play on a fresh player requests the first unit. *)
Lemma play_requests_first :
  (0 < length sentences)%nat ->
  awaiting 0 (step init ToggleAutoPlay) /\
  no_point_read_pending (step init ToggleAutoPlay).
Proof.
  intros Hlen.
  destruct (lookup_lt_is_Some_2 sentences 0 Hlen) as [sentence Hs].
  split.
  - unfold Engine.step. cbn [Engine.handle]. unfold toggleAutoPlay. simpl truthy_id.
    cbv iota. rewrite commit_changed by (intros [= ?]).
    apply (awaiting_requested 0 sentence); try done;
      intros n node Hn; done.
  - apply (narration_step sentences init ToggleAutoPlay eq_refl narration_init).
Qed.

Lemma narrate_awaiting (outcomes : list (option (list byte))) :
  Forall playable outcomes ->
  (0 < length sentences)%nat ->
  (length outcomes < length sentences)%nat ->
  awaiting (length outcomes) (narrate (step init ToggleAutoPlay) outcomes) /\
  no_point_read_pending (narrate (step init ToggleAutoPlay) outcomes).
Proof.
  intros Hplay Hlen.
  induction outcomes as [|o os IH] using rev_ind; intros Hlt.
  - by apply play_requests_first.
  - apply Forall_app in Hplay as [Hos Ho]. apply Forall_inv in Ho.
    rewrite length_app in *. cbn [length] in *.
    unfold Narration.narrate in *. rewrite fold_left_app. cbn [fold_left].
    destruct (IH Hos ltac:(lia)) as [IH1 IH2].
    destruct (deliver_awaiting (length os) _ o IH1 IH2 Ho) as (D0 & D1 & _).
    split; [|done].
    replace (length os + 1)%nat with (S (length os)) by lia. apply D1. lia.
Qed.

(** X12.  Uninterrupted narration visits every unit in order.  Play is
    pressed on a fresh player and every speech request is answered, by
    audio that plays to its end or by a failure followed by its timer.
    After [j] answers, [j] below the number of units, the position is [j],
    the speech of unit [j] is the request made last and nothing sounds; after
    the answer for the last unit narration is off, the position is the last
    unit, nothing sounds and no source is current. *)
Theorem narration_visits_every_unit (outcomes : list (option (list byte))) :
  Forall playable outcomes ->
  (0 < length sentences)%nat ->
  (length outcomes <= length sentences)%nat ->
  let s := narrate (step init ToggleAutoPlay) outcomes in
  ((length outcomes < length sentences)%nat -> awaiting (length outcomes) s) /\
  (length outcomes = length sentences ->
     isPlaying s = false /\ currentIndex s = len - 1 /\ silent s /\
     currentSourceRef s = None).
Proof.
  intros Hplay Hlen Hle. cbv zeta. split.
  - intros Hlt. by apply narrate_awaiting.
  - intros Heq.
    destruct outcomes as [|o os _] using rev_ind; [simpl in Heq; lia|].
    apply Forall_app in Hplay as [Hos Ho]. apply Forall_inv in Ho.
    rewrite length_app in *. cbn [length] in *.
    destruct (narrate_awaiting os Hos Hlen ltac:(lia)) as [A1 A2].
    unfold Narration.narrate in *. rewrite fold_left_app. cbn [fold_left].
    destruct (deliver_awaiting (length os) _ o A1 A2 Ho) as (_ & _ & D2).
    destruct D2 as (E1 & E2 & E3 & E4 & _); [lia|].
    repeat split; try done. rewrite E2. unfold Engine.len. lia.
Qed.

End Player.

(** The theorem of the position on the sample lesson: three presses of
    "next", then a failed request and its timer. *)
Lemma position_stays_valid_witness :
  Nav.valid_index 3
    (currentIndex (Engine.run sample_lesson init
       [NextClick; NextClick; NextClick; ToggleAutoPlay;
        SpeechSettled 0 None; TimerFired 1])).
Proof.
  apply (position_stays_valid sample_lesson
           [NextClick; NextClick; NextClick; ToggleAutoPlay;
            SpeechSettled 0 None; TimerFired 1]).
  reflexivity.
Defined.

(** The theorem of the pause at the narrating sample player. *)
Lemma pause_silences_witness :
  isPlaying (Engine.step sample_lesson narrating ToggleAutoPlay) = false.
Proof.
  apply (pause_silences sample_lesson
           [ToggleAutoPlay; SpeechSettled 0 (Some sample_audio)]).
  - repeat constructor.
  - reflexivity.
Defined.

(** The theorem of the paused request on the sample lesson: play, pause,
    and the speech of the first unit arrives. *)
Lemma paused_request_still_plays_witness :
  isPlaying (Engine.run sample_lesson init
               [ToggleAutoPlay; ToggleAutoPlay;
                SpeechSettled 0 (Some sample_audio)]) = false.
Proof.
  apply (paused_request_still_plays sample_lesson 0
           (Engine.step sample_lesson init ToggleAutoPlay) sample_audio).
  - unfold Narration.awaiting. repeat split; try reflexivity.
    + intros n node Hn. simpl in Hn. by rewrite lookup_nil in Hn.
    + intros r Hr. discriminate Hr.
    + eexists [], _. split; reflexivity.
  - simpl. lia.
Defined.

(** The theorem of the whole lesson on the sample lesson, the second request
    failing: narration ends on the last unit. *)
Lemma narration_visits_every_unit_witness :
  currentIndex (Narration.narrate sample_lesson
                  (Engine.step sample_lesson init ToggleAutoPlay)
                  [Some sample_audio; None; Some sample_audio]) = 2.
Proof.
  apply (narration_visits_every_unit sample_lesson
           [Some sample_audio; None; Some sample_audio]).
  - repeat constructor; simpl; lia.
  - simpl. lia.
  - simpl. lia.
  - reflexivity.
Defined.

(** The theorem of the unmounted player: speech arrives for a request of a
    player that has been unmounted since. *)
Lemma unmounted_starts_nothing_witness :
  length (nodes (device (Engine.step sample_lesson
    {| currentIndex := 0; isPlaying := true; isLooping := false;
       loadingAudio := true; activeSpeechId := None; loadingSpeechId := None;
       statusMsg := None; currentSourceRef := None;
       isComponentMounted := false; device := no_device;
       pending := [AutoAwait {| c_isPlaying := true; c_isLooping := false |} 0
                     "学而时习之。意思是：Learn and practise"] |}
    (SpeechSettled 0 (Some sample_audio))))) = 0%nat.
Proof.
  apply (unmounted_starts_nothing sample_lesson
    {| currentIndex := 0; isPlaying := true; isLooping := false;
       loadingAudio := true; activeSpeechId := None; loadingSpeechId := None;
       statusMsg := None; currentSourceRef := None;
       isComponentMounted := false; device := no_device;
       pending := [AutoAwait {| c_isPlaying := true; c_isLooping := false |} 0
                     "学而时习之。意思是：Learn and practise"] |}
    (SpeechSettled 0 (Some sample_audio))); reflexivity.
Defined.

(** The theorem of the controls at the narrating sample player: "next" is
    pressed while the first unit sounds, and the device is left alone. *)
Lemma controls_during_narration_witness :
  device (Engine.step sample_lesson narrating NextClick) = device narrating.
Proof.
  destruct (controls_during_narration sample_lesson narrating 1
              {| s_id := "s-1"; original := "不亦说乎";
                 translation := "Is it not a joy" |}
              eq_refl eq_refl eq_refl) as [_ H].
  apply (H NextClick); [right; reflexivity | reflexivity | discriminate].
Defined.

(** The skip after a failed request on the sample lesson: the first request
    fails, its timer fires, and the position is 1. *)
Lemma failure_skips_witness :
  currentIndex (Engine.run sample_lesson init
                  [ToggleAutoPlay; SpeechSettled 0 None; TimerFired 1]) = 1.
Proof.
  pose proof (failure_skips sample_lesson
                (Engine.step sample_lesson init ToggleAutoPlay) 0
                {| c_isPlaying := true; c_isLooping := false |} 0
                "学而时习之。意思是：Learn and practise"
                eq_refl eq_refl eq_refl) as H.
  cbv zeta in H. destruct H as (_ & H & _).
  apply H. reflexivity.
Defined.

(** A single source on the sample lesson: narration with a press of "next"
    while the first unit sounds. *)
Lemma narration_single_source_witness :
  single_source (device (Engine.run sample_lesson init
    [ToggleAutoPlay; SpeechSettled 0 (Some sample_audio); NextClick;
     SpeechSettled 1 (Some sample_audio)])).
Proof.
  apply (narration_single_source sample_lesson
    [ToggleAutoPlay; SpeechSettled 0 (Some sample_audio); NextClick;
     SpeechSettled 1 (Some sample_audio)]).
  repeat constructor.
Defined.

End EngineRuns.

(* ===================================================================== *)
(** * Runs of the first player: one source at a time *)
(* ===================================================================== *)

Module DraftRunFacts.

Import WebAudio Draft DraftRuns.

Ltac dsimpl :=
  cbn [currentIndex isPlaying isLooping loadingAudio error currentSourceRef
       device pending setCurrentIndex setIsPlaying setIsLooping
       setLoadingAudio setError set_ref on_device set_pending suspend
       settle] in *.

(** A node that sounds after [try { stop() } catch {}] on node [r] is another
    node, and it sounded before. *)
Lemma try_stop_sounding r (d : Device Handler) m node :
  nodes (try_stop r d) !! m = Some node -> playback node = Sounding ->
  m <> r /\ nodes d !! m = Some node.
Proof.
  unfold try_stop, stop.
  destruct (nodes d !! r) as [x|] eqn:Hx.
  - destruct (playback x) eqn:Hp.
    + intros Hm Hs. split; [|done]. intros ->. congruence.
    + unfold issue. cbn [nodes]. rewrite list_lookup_alter.
      case_decide as Hmr; [|by intros; split].
      subst m. rewrite Hx. simpl. rewrite Hp. by intros [= <-].
    + unfold issue. cbn [nodes]. rewrite list_lookup_alter.
      case_decide as Hmr; [|by intros; split].
      subst m. rewrite Hx. simpl. rewrite Hp. by intros [= <-].
    + unfold issue. cbn [nodes]. rewrite list_lookup_alter.
      case_decide as Hmr; [|by intros; split].
      subst m. rewrite Hx. simpl. rewrite Hp. by intros [= <-].
  - intros Hm Hs. split; [|done]. intros ->. congruence.
Qed.

(** When its [ended] event is dispatched a node stops sounding; no other
    node changes. *)
Lemma dispatch_sounding n (d d' : Device Handler) h m node :
  dispatch_ended n d = Some (h, d') ->
  nodes d' !! m = Some node -> playback node = Sounding ->
  m <> n /\ nodes d !! m = Some node.
Proof.
  unfold dispatch_ended. destruct (nodes d !! n) as [x|] eqn:Hx; [|done].
  intros Hd.
  assert (Hd' : nodes d' = alter (fun s0 => {| buffer := buffer s0;
                                               onended := onended s0;
                                               playback := Ended;
                                               connected := connected s0 |})
                                 n (nodes d)).
  { destruct (playback x); try done; by injection Hd as _ <-. }
  rewrite Hd', list_lookup_alter. case_decide as Hmn; [|by intros; split].
  subst m. rewrite Hx. simpl. by intros [= <-].
Qed.

Section Player.

Variable sentences : list Sentence.

Abbreviation step := (step sentences).
Abbreviation run := (run sentences).

(** After the current source is stopped nothing sounds, provided only the
    current source did. *)
Lemma quiet_stop_current s m node :
  ref_owns_sound s ->
  nodes (device (stop_current s)) !! m = Some node -> playback node <> Sounding.
Proof.
  intros Hros Hm Hs. unfold stop_current in Hm.
  destruct (currentSourceRef s) as [r|] eqn:Hr; dsimpl.
  - destruct (try_stop_sounding r (device s) m node Hm Hs) as [Hne Hm'].
    pose proof (Hros m node Hm' Hs). congruence.
  - pose proof (Hros m node Hm Hs). congruence.
Qed.

Lemma ros_stop_current s : ref_owns_sound s -> ref_owns_sound (stop_current s).
Proof.
  intros Hros m node Hm Hs. by destruct (quiet_stop_current s m node).
Qed.

Lemma ros_playSentence c index s :
  ref_owns_sound s -> ref_owns_sound (playSentence sentences c index s).
Proof.
  intros Hros. unfold playSentence.
  destruct (negb (Engine.c_isPlaying c)); [done|].
  by destruct (sentence_at sentences index).
Qed.

(** [playSentence] stops the current source before it starts the new one. *)
Lemma ros_playSentence_resume c index audioBytes s :
  ref_owns_sound s -> ref_owns_sound (playSentence_resume c index audioBytes s).
Proof.
  intros Hros. unfold playSentence_resume.
  destruct audioBytes as [bytes|]; [|done].
  destruct (negb (Engine.c_isPlaying c)); [done|].
  assert (Hros' : ref_owns_sound (setLoadingAudio false s)) by done.
  pose proof (quiet_stop_current (setLoadingAudio false s)) as Hquiet.
  set (t := stop_current (setLoadingAudio false s)) in *.
  destruct (PCM.decodeAudioData (PCM.fresh bytes)) as [e|buf].
  - intros m node. dsimpl. intros Hm Hs. by destruct (Hquiet m node).
  - unfold createBufferSource. intros m node. dsimpl.
    destruct (decide (m = length (nodes (device t)))) as [->|Hne]; [done|].
    unfold start. rewrite WebAudioFacts.issue_lookup_ne by done.
    unfold set_onended. cbn [nodes]. rewrite list_lookup_alter_ne by done.
    unfold connect. rewrite WebAudioFacts.issue_lookup_ne by done.
    cbn [nodes]. rewrite lookup_snoc_Some.
    intros [[_ Hm]|[Hm _]] Hs; [|done]. by destruct (Hquiet m node).
Qed.

Lemma ros_draft_handler h s :
  ref_owns_sound s -> ref_owns_sound (run_handler sentences h s).
Proof.
  intros Hros. destruct h as [c index]. cbn [run_handler].
  destruct (Engine.c_isLooping c); [by apply ros_playSentence|].
  by destruct (index + 1 <? len sentences).
Qed.

Lemma ros_handle e s :
  ref_owns_sound s -> ref_owns_sound (handle sentences e s).
Proof.
  intros Hros. destruct e as [| | | |idx|k audioBytes|n]; cbn [handle]; try done.
  - by destruct ((Z.of_nat idx <? len sentences) && negb (isPlaying s)).
  - destruct (pending s !! k) as [[c index text|]|]; try done.
    by apply ros_playSentence_resume.
  - destruct (dispatch_ended n (device s)) as [[h d]|] eqn:Hd; [|done].
    assert (Hros' : ref_owns_sound (on_device (fun _ => d) s)).
    { intros m node. dsimpl. intros Hm Hs.
      destruct (dispatch_sounding n (device s) d h m node Hd Hm Hs) as [_ Hm'].
      by apply (Hros m node). }
    destruct h as [h|]; [|done]. by apply ros_draft_handler.
Qed.

Lemma ros_step s e : ref_owns_sound s -> ref_owns_sound (step s e).
Proof.
  intros Hros. unfold Draft.step, commit.
  pose proof (ros_handle e s Hros) as Hh.
  case_decide; [done|]. unfold effect, cleanup.
  pose proof (ros_stop_current _ Hh) as Hc.
  destruct (isPlaying (stop_current (handle sentences e s))).
  - by apply ros_playSentence.
  - by apply ros_stop_current.
Qed.

(** X13.  In the first player at most one source sounds, in every state it
    can reach: a source is started only by [playSentence], right after the
    current one was stopped, and only the current source can sound.  (The
    part of [playSentence] after [generateSpeech] runs as one task: its
    [await] on the local decoder lets no other task in.) *)
Theorem draft_single_source (es : list Event) :
  single_source (device (run init es)) /\ ref_owns_sound (run init es).
Proof.
  assert (H : forall s, ref_owns_sound s -> ref_owns_sound (run s es)).
  { induction es as [|e es IH]; intros s Hs; [done|].
    simpl. by apply IH, ros_step. }
  assert (Hros : ref_owns_sound (run init es)).
  { apply H. intros n node Hn. done. }
  split; [|done].
  intros n m a b Ha Hb Hpa Hpb.
  pose proof (Hros n a Ha Hpa). pose proof (Hros m b Hb Hpb). congruence.
Qed.

(** The sentence at a natural-number index. *)
Lemma draft_sentence_at_nat idx : sentence_at sentences (Z.of_nat idx) = sentences !! idx.
Proof.
  unfold sentence_at. destruct (Z.ltb_spec (Z.of_nat idx) 0); [lia|].
  by rewrite Nat2Z.id.
Qed.

(** What [stop()] inside [try] leaves of a node that was current. *)
Lemma stop_current_silences s r node :
  currentSourceRef s = Some r ->
  nodes (device (stop_current s)) !! r = Some node -> playback node <> Sounding.
Proof.
  intros Hr Hn Hs. unfold stop_current in Hn. rewrite Hr in Hn. dsimpl.
  by destruct (try_stop_sounding r (device s) r node Hn Hs).
Qed.

(** X14.  Clicking a rendered sentence of the first player selects it and
    turns narration on.  When that changes nothing (the sentence is the
    current one and narration is on) the click has no effect at all;
    otherwise the current source is stopped and the speech of the clicked
    sentence, original and translation joined, is requested with the loop
    flag of the moment. *)
Theorem sentence_click_starts_narration (s : State) (idx : nat)
  (sentence : Sentence) :
  sentences !! idx = Some sentence ->
  let s' := step s (SentenceClick idx) in
  currentIndex s' = Z.of_nat idx /\ isPlaying s' = true /\
  isLooping s' = isLooping s /\
  (currentIndex s = Z.of_nat idx -> isPlaying s = true -> s' = s) /\
  (currentIndex s <> Z.of_nat idx \/ isPlaying s = false ->
     pending s' = pending s ++
       [AutoAwait {| Engine.c_isPlaying := true;
                     Engine.c_isLooping := isLooping s |} (Z.of_nat idx)
          (Engine.original sentence +:+ "。" +:+ Engine.translation sentence)] /\
     loadingAudio s' = true /\ error s' = None /\
     currentSourceRef s' = currentSourceRef s /\
     forall r node, currentSourceRef s = Some r ->
       nodes (device s') !! r = Some node -> playback node <> Sounding).
Proof.
  intros Hs s'. subst s'.
  pose proof (lookup_lt_Some _ _ _ Hs) as Hlt.
  unfold Draft.step. cbn [handle]. unfold Nav.sentence_click, len.
  destruct (Z.leb_spec 0 (Z.of_nat idx)) as [_|?]; [|lia].
  destruct (Z.ltb_spec (Z.of_nat idx) (Z.of_nat (length sentences))) as [_|?];
    [|lia].
  cbn [andb].
  set (a := if negb (isPlaying s)
            then setIsPlaying true (setCurrentIndex (Z.of_nat idx) s)
            else setCurrentIndex (Z.of_nat idx) s).
  assert (Ha : currentIndex a = Z.of_nat idx /\ isPlaying a = true /\
               isLooping a = isLooping s /\ pending a = pending s /\
               currentSourceRef a = currentSourceRef s /\ device a = device s).
  { subst a. by destruct (isPlaying s) eqn:Hp. }
  destruct Ha as (Hi & Hp & Hl & Hpe & Hr & Hd).
  assert (Hchanged : deps s <> deps a ->
            commit sentences s a =
            suspend (AutoAwait {| Engine.c_isPlaying := true;
                                  Engine.c_isLooping := isLooping s |}
                       (Z.of_nat idx)
                       (Engine.original sentence +:+ "。" +:+
                        Engine.translation sentence))
              (setLoadingAudio true (setError None (stop_current a)))).
  { intros Hne. unfold commit. rewrite decide_False by done.
    unfold effect, cleanup, playSentence.
    assert (Hsc : isPlaying (stop_current a) = true /\
                  isLooping (stop_current a) = isLooping s /\
                  currentIndex (stop_current a) = Z.of_nat idx).
    { unfold stop_current.
      destruct (currentSourceRef a) eqn:E; dsimpl; repeat split; congruence. }
    destruct Hsc as (-> & -> & ->). cbn [Engine.c_isPlaying negb].
    by rewrite draft_sentence_at_nat, Hs. }
  assert (Hsc : pending (stop_current a) = pending s /\
                currentSourceRef (stop_current a) = currentSourceRef s /\
                currentIndex (stop_current a) = Z.of_nat idx /\
                isPlaying (stop_current a) = true /\
                isLooping (stop_current a) = isLooping s).
  { unfold stop_current.
    destruct (currentSourceRef a) eqn:E; dsimpl; repeat split; congruence. }
  destruct Hsc as (Sp & Sr & Si & Spl & Sl).
  destruct (decide (deps s = deps a)) as [Heq|Hne].
  - unfold commit. rewrite decide_True by done.
    unfold deps in Heq. rewrite Hi, Hp, Hl in Heq. injection Heq as Hci Hpl.
    repeat (split; [done|]). split.
    + intros _ _. subst a. rewrite Hpl. cbn [negb]. rewrite <- Hci.
      by destruct s.
    + intros [Hno|Hno]; congruence.
  - rewrite (Hchanged Hne). dsimpl.
    repeat (split; [done|]). split.
    + intros Hci Hpl. destruct Hne. unfold deps. by rewrite Hi, Hp, Hl, Hci, Hpl.
    + intros _. rewrite Sp. repeat (split; [done|]).
      intros r node Hsr. apply (stop_current_silences a). by rewrite Hr.
Qed.

End Player.

(** The theorem on the sample lesson: the third sentence is clicked on a
    fresh player. *)
Lemma sentence_click_starts_narration_witness :
  currentIndex (Draft.step Engine.sample_lesson init (SentenceClick 2)) = 2.
Proof.
  eapply (sentence_click_starts_narration Engine.sample_lesson init 2).
  reflexivity.
Defined.

End DraftRunFacts.

(* ===================================================================== *)
(** * The last player: point reading with [speakText] *)
(* ===================================================================== *)

Module DraftPointRunFacts.

Import WebAudio DraftPoint.






Section Player.

Variable sentences : list Sentence.

Abbreviation step := (step sentences).



End Player.


End DraftPointRunFacts.

(* ===================================================================== *)
(** * The second player: what a decoding failure leaves behind *)
(* ===================================================================== *)

Module SecondFacts.

Import WebAudio Second.

Ltac ssimpl :=
  cbn [currentIndex isPlaying isLooping loadingAudio currentSourceRef crashed
       device pending setCurrentIndex setIsPlaying setIsLooping
       setLoadingAudio set_ref crash on_device set_pending suspend settle]
    in *.

(** Node [r] exists and has been started. *)
Abbreviation started d r :=
  (exists node : SourceNode Handler,
     nodes d !! r = Some node /\ playback node <> Unstarted).

Lemma started_alter (f : SourceNode Handler -> SourceNode Handler) n
  (d d' : Device Handler) r :
  (forall x, playback x <> Unstarted -> playback (f x) <> Unstarted) ->
  nodes d' = alter f n (nodes d) ->
  started d r -> started d' r.
Proof.
  intros Hf Hd' (node & Hn & Hp). rewrite Hd'.
  rewrite list_lookup_alter. case_decide as Hr.
  - subst r. rewrite Hn. exists (f node). split; [done|]. by apply Hf.
  - by exists node.
Qed.

Lemma started_stop n (d d' : Device Handler) r :
  stop n d = inr d' -> started d r -> started d' r.
Proof.
  unfold stop. destruct (nodes d !! n) as [x|]; [|done].
  destruct (playback x); try done; intros [= <-];
    (eapply started_alter; [|reflexivity]);
    intros y Hy; cbn [playback]; by destruct (playback y).
Qed.

Lemma started_try_stop n (d : Device Handler) r :
  started d r -> started (try_stop n d) r.
Proof.
  intros Hs. unfold try_stop. destruct (stop n d) as [e|d'] eqn:Hstop; [done|].
  by eapply started_stop.
Qed.

(** [stop()] on a started node does not throw. *)
Lemma stop_started r (d : Device Handler) :
  started d r -> exists d', stop r d = inr d'.
Proof.
  intros (node & Hn & Hp). unfold stop. rewrite Hn.
  destruct (playback node); try done; by eexists.
Qed.

Lemma started_dispatch n (d d' : Device Handler) h r :
  dispatch_ended n d = Some (h, d') -> started d r -> started d' r.
Proof.
  unfold dispatch_ended. destruct (nodes d !! n) as [x|]; [|done].
  destruct (playback x); try done; intros [= _ <-];
    (eapply started_alter; [|reflexivity]); done.
Qed.

Section Player.

Variable sentences : list Sentence.

Abbreviation step := (step sentences).
Abbreviation run := (run sentences).

(** The invariant: no exception has left the effect, and the current source
    has been started. *)
Abbreviation sound s := (crashed s = false /\ ref_started s).

Lemma sound_stop_current s : sound s -> sound (stop_current s).
Proof.
  intros [Hc Hr]. unfold stop_current.
  destruct (currentSourceRef s) as [r|] eqn:E; [|done].
  split; [done|]. intros r'. ssimpl. intros Hr'. apply started_try_stop.
  apply Hr. congruence.
Qed.

Lemma sound_playSentence c index s :
  sound s -> sound (playSentence sentences c index s).
Proof.
  intros Hs. unfold playSentence.
  destruct (negb (Engine.c_isPlaying c)); [done|].
  by destruct (sentence_at sentences index).
Qed.

Lemma sound_playSentence_resume c index audioBytes s :
  sound s -> sound (playSentence_resume c index audioBytes s).
Proof.
  intros Hs. unfold playSentence_resume.
  destruct audioBytes as [bytes|]; [|done].
  assert (Hs' : sound (stop_current (setLoadingAudio false s))).
  { by apply sound_stop_current. }
  set (t := stop_current (setLoadingAudio false s)) in *.
  destruct (PCM.decodeAudioData_whole (PCM.fresh bytes)) as [e|buf]; [done|].
  destruct Hs' as [Hc _].
  unfold createBufferSource, start, set_onended, connect, issue. ssimpl.
  split; [done|]. intros r [= <-]. ssimpl. cbn [nodes log].
  rewrite !WebAudioFacts.alter_snoc. cbn [buffer onended playback connected].
  rewrite list_lookup_middle by done. by eexists.
Qed.

Lemma sound_run_handler h s :
  sound s -> sound (run_handler sentences h s).
Proof.
  intros Hs. destruct h as [c index]. cbn [run_handler].
  destruct (Engine.c_isLooping c); [by apply sound_playSentence|].
  by destruct (index + 1 <? len sentences).
Qed.

Lemma sound_handle e s : sound s -> sound (handle sentences e s).
Proof.
  intros Hs. destruct e as [| | | |idx|k audioBytes|n]; cbn [handle]; try done.
  - destruct (pending s !! k) as [[c index text|]|]; try done.
    by apply sound_playSentence_resume.
  - destruct (dispatch_ended n (device s)) as [[h d]|] eqn:Hd; [|done].
    assert (Hs' : sound (on_device (fun _ => d) s)).
    { destruct Hs as [Hc Hr]. split; [done|]. intros r. ssimpl. intros Href.
      eapply started_dispatch; [done|]. by apply Hr. }
    destruct h as [h|]; [|done]. by apply sound_run_handler.
Qed.

Lemma sound_effect s : sound s -> sound (effect sentences s).
Proof.
  intros Hs. unfold effect. destruct (isPlaying s).
  - by apply sound_playSentence.
  - destruct Hs as [Hc Hr].
    destruct (currentSourceRef s) as [r|] eqn:E; [|done].
    destruct (stop_started r (device s) (Hr r E)) as [d' Hstop].
    rewrite Hstop. split; [done|]. intros r'. ssimpl. intros Hr'.
    eapply started_stop; [done|]. apply Hr. congruence.
Qed.

Lemma sound_step s e : sound s -> sound (step s e).
Proof.
  intros Hs. unfold Second.step. destruct Hs as [Hc Hr]. rewrite Hc.
  unfold commit. pose proof (sound_handle e s (conj Hc Hr)) as Hh.
  case_decide; [done|]. by apply sound_effect, sound_stop_current.
Qed.

(** X20.  The playback effect of the second player calls [stop()] on the
    current source outside any [try]; the call throws on a source that was
    never started.  In every state the player can reach after mounting the
    current source has been started, so the exception never arises. *)
Theorem unguarded_stop_never_throws (es : list Event) :
  crashed (run (mounted sentences) es) = false /\
  forall r, currentSourceRef (run (mounted sentences) es) = Some r ->
    exists d, stop r (device (run (mounted sentences) es)) = inr d.
Proof.
  assert (H : forall s, sound s -> sound (run s es)).
  { induction es as [|e es IH]; intros s Hs; [done|].
    simpl. by apply IH, sound_step. }
  destruct (H (mounted sentences)) as [Hc Hr].
  { apply sound_effect. split; [done|]. intros r Hr. done. }
  split; [done|]. intros r Href. by apply stop_started, Hr.
Qed.



End Player.


End SecondFacts.
